(** * Credential rotation and rate-limit resilience of veo-studio

    A shallow embedding of
    - [services/apiKeyManager.ts]   (class [ApiKeyManager], the credential pool),
    - [hooks/useAudioGeneration.ts] ([parseRateLimitError], [generateSingleAudio],
      [handleGenerateAllAudio], [retryAudioClip]),
    and the properties of the specification checked against it.

    Conventions of the embedding.
    - A JavaScript [number] that holds a timestamp in milliseconds, a number of
      seconds or a counter is a [Z]; [NaN], which [parseInt] can produce, is
      kept apart in the type [Number]. Where the code computes an integer
      that can pass 2^53 ([parseInt], the products of [createWavBlob]),
      [to_double] rounds it as the double does. [Infinity] is not modelled.
    - A JavaScript string is a [string]; each character stands for one code
      unit below 256.
    - The mutable objects (the manager, the console, the React state of the
      hook, the clock) live in one [World]; every method is a computation
      [JS A] that reads and writes the world and may throw. *)

From Stdlib Require Import ZArith String Ascii List Bool Lia.
From stdpp Require Import base tactics option list strings pretty.

Local Open Scope string_scope.
Local Open Scope Z_scope.
Set Warnings "-register-all".

(** ** JavaScript values *)

(** The result of [parseInt]: an integer or [NaN]. *)
Inductive Number :=
| Int (z : Z)
| NaN.

(** A value produced by [JSON.parse]. Members of an object are its own
    properties, in insertion order. *)
Inductive Json :=
| JNull
| JBool (b : bool)
| JNumber (n : Z)
| JString (s : string)
| JArray (items : list Json)
| JObject (members : list (string * Json)).

(** What a [throw] carries: an [Error] object (any subclass, with its [name]
    and [message]), or a value that is not [instanceof Error], of which only
    [String(error)] is observed. *)
Inductive Thrown :=
| JsError (name : string) (message : string)
| NotError (text : string).

Definition TypeError (message : string) : Thrown := JsError "TypeError" message.
Definition Error (message : string) : Thrown := JsError "Error" message.

Inductive Outcome (A : Type) :=
| Returns (a : A)
| Throws (e : Thrown).
Arguments Returns {A} a.
Arguments Throws {A} e.

Definition Blob : Type := string.
Definition new_Blob : Blob := "".

Inductive Language := english | vietnamese.
Inductive Voice := male | female.

(** ** Strings *)

(** [WhiteSpace] and [LineTerminator] code units below 256: TAB, LF, VT, FF,
    CR, SP and NBSP. *)
Definition is_whitespace (c : ascii) : bool :=
  let n := nat_of_ascii c in
  (Nat.leb 9 n && Nat.leb n 13) || Nat.eqb n 32 || Nat.eqb n 160.

Fixpoint trimStart (s : string) : string :=
  match s with
  | String c s' => if is_whitespace c then trimStart s' else s
  | EmptyString => EmptyString
  end.

(** [s.trim()] is truthy exactly when something is left after the leading
    white space. *)
Definition trim_truthy (s : string) : bool :=
  match trimStart s with
  | EmptyString => false
  | String _ _ => true
  end.

(** [s.substring(0, 20)]. *)
Definition substring_0_20 (s : string) : string := substring 0 20 s.

(** [s.replace(c, '')] for a one-character pattern: the first occurrence goes. *)
Fixpoint replace_first (c : ascii) (s : string) : string :=
  match s with
  | EmptyString => EmptyString
  | String a s' => if Ascii.eqb a c then s' else String a (replace_first c s')
  end.

Definition digit_of (radix : Z) (c : ascii) : option Z :=
  let n := Z.of_nat (nat_of_ascii c) in
  let d := if (48 <=? n) && (n <=? 57) then Some (n - 48)
           else if (97 <=? n) && (n <=? 122) then Some (n - 87)
           else if (65 <=? n) && (n <=? 90) then Some (n - 55)
           else None in
  match d with
  | Some v => if v <? radix then Some v else None
  | None => None
  end.

(** The longest prefix of digits of the radix, as a number; [None] when the
    prefix is empty. *)
Fixpoint parse_digits (radix : Z) (s : string) (acc : option Z) : option Z :=
  match s with
  | EmptyString => acc
  | String c s' =>
      match digit_of radix c with
      | Some d => parse_digits radix s' (Some (radix * default 0 acc + d))
      | None => acc
      end
  end.

(** The double nearest to the integer [z], ties going to the even mantissa:
    the identity on the integers of magnitude up to 2^53. An integer of
    magnitude 2^1024 or more, where JavaScript has [Infinity], is outside
    the model. *)
Definition to_double (z : Z) : Z :=
  let a := Z.abs z in
  let e := Z.log2 a - 52 in
  if e <=? 0 then z
  else
    let q := Z.shiftr a e in
    let r := a - Z.shiftl q e in
    let half := Z.shiftl 1 (e - 1) in
    let q' := if (half <? r) || ((half =? r) && Z.odd q) then q + 1 else q in
    Z.sgn z * Z.shiftl q' e.

(** [parseInt(s)] with no radix: white space, a sign, [0x] for radix 16; the
    digits are read exactly and the result is the double nearest to them. *)
Definition parseInt (s : string) : Number :=
  let s1 := trimStart s in
  let '(negative, s2) :=
    match s1 with
    | String "-" r => (true, r)
    | String "+" r => (false, r)
    | _ => (false, s1)
    end in
  let '(radix, s3) :=
    match s2 with
    | String "0" (String "x" r) => (16, r)
    | String "0" (String "X" r) => (16, r)
    | _ => (10, s2)
    end in
  match parse_digits radix s3 None with
  | Some n => Int (to_double (if negative then - n else n))
  | None => NaN
  end.

(** ** Arrays *)

(** [a.find(p)], as the position of the element together with the element: the
    elements of the arrays below are distinct objects, so [a.indexOf] of the
    object found is that position. *)
Fixpoint Array_find {A : Type} (p : A -> bool) (l : list A) : option (nat * A) :=
  match l with
  | [] => None
  | x :: l' => if p x then Some (O, x) else prod_map S id <$> Array_find p l'
  end.

(** [a.findIndex(p)], [None] for [-1]. *)
Definition Array_findIndex {A : Type} (p : A -> bool) (l : list A) : option nat :=
  fst <$> Array_find p l.

(** [a.reduce(f)] with no initial value; [None] when the array is empty, where
    JavaScript throws a [TypeError]. *)
Definition Array_reduce {A : Type} (f : A -> A -> A) (l : list A) : option A :=
  match l with
  | [] => None
  | x :: l' => Some (fold_left f l' x)
  end.

(** Every element with its position. *)
Definition indexed {A : Type} (l : list A) : list (nat * A) :=
  imap (fun i x => (i, x)) l.

(** ** The credential pool: data *)

Record KeyStatus := {
  key : string;
  availableAt : Z;
  isBlocked : bool;
  errorCount : Z
}.

Record ApiKeyManager := {
  keys : list KeyStatus;
  currentIndex : nat
}.

(** ** The hook: data *)

Record ScriptEntry := {
  timestamp : string;
  text : string
}.

Record AudioData := {
  url : string;
  blob : Blob;
  error : option Json;
  isLoading : option bool;
  retryAfter : option Z
}.

(** A cell of the [audioData] array: a hole (an index that holds no element;
    it reads as [undefined], and [filter] skips it), the value [undefined],
    [null], or an [AudioData] object. *)
Inductive Cell :=
| Hole
| Undefined
| Null
| Clip (d : AudioData).

Record Props := {
  script : option (list ScriptEntry);
  language : Language;
  voice : Voice
}.

(** ** The world *)

(** Console lines, with the values their templates interpolate. *)
Inductive ConsoleLine :=
| LogInitialized (total : nat)
| WarnKeyNotFound
| LogRateLimited (position total : nat) (retryAfterSeconds : Z)
| LogRotated (position total available : nat)
| WarnMarkedInvalid (position : Z) (total : nat)
| LogResetErrorCounts
| LogStatus (total available blocked position : nat)
| LogRetryingRotated (attempt outOf : Z)
| LogWaiting (waitTime : Number)
| ErrorGenerateClip (i : nat) (clipError : Thrown)
| ErrorRetryClip (index : nat) (clipError : Thrown).

(** One call of the remote speech service. *)
Record Request := {
  req_text : string;
  req_language : Language;
  req_voice : Voice;
  req_apiKey : string
}.

Record World := {
  manager : ApiKeyManager;          (* the hook's [apiKeyManager] *)
  clock : Z;                        (* [Date.now()] *)
  console : list ConsoleLine;       (* oldest line first *)
  requests : list Request;          (* remote calls made, oldest first *)
  audioData : list Cell;            (* React state *)
  isLoadingAudio : bool             (* React state *)
}.

Definition set_manager (m : ApiKeyManager) (w : World) : World :=
  {| manager := m; clock := clock w; console := console w;
     requests := requests w; audioData := audioData w;
     isLoadingAudio := isLoadingAudio w |}.

Definition set_clock (t : Z) (w : World) : World :=
  {| manager := manager w; clock := t; console := console w;
     requests := requests w; audioData := audioData w;
     isLoadingAudio := isLoadingAudio w |}.

Definition set_console (c : list ConsoleLine) (w : World) : World :=
  {| manager := manager w; clock := clock w; console := c;
     requests := requests w; audioData := audioData w;
     isLoadingAudio := isLoadingAudio w |}.

Definition set_requests (r : list Request) (w : World) : World :=
  {| manager := manager w; clock := clock w; console := console w;
     requests := r; audioData := audioData w;
     isLoadingAudio := isLoadingAudio w |}.

Definition set_audioData (a : list Cell) (w : World) : World :=
  {| manager := manager w; clock := clock w; console := console w;
     requests := requests w; audioData := a;
     isLoadingAudio := isLoadingAudio w |}.

Definition set_isLoadingAudio (b : bool) (w : World) : World :=
  {| manager := manager w; clock := clock w; console := console w;
     requests := requests w; audioData := audioData w;
     isLoadingAudio := b |}.

(** ** Computations *)

Definition JS (A : Type) : Type := World -> Outcome A * World.

Definition ret {A : Type} (a : A) : JS A := fun w => (Returns a, w).

Definition throw {A : Type} (e : Thrown) : JS A := fun w => (Throws e, w).

Definition bind {A B : Type} (c : JS A) (k : A -> JS B) : JS B :=
  fun w =>
    match c w with
    | (Returns a, w') => k a w'
    | (Throws e, w') => (Throws e, w')
    end.

(** [try { body } catch (e) { handler }] *)
Definition try_catch {A : Type} (body : JS A) (handler : Thrown -> JS A) : JS A :=
  fun w =>
    match body w with
    | (Returns a, w') => (Returns a, w')
    | (Throws e, w') => handler e w'
    end.

(** [try { body } finally { cleanup }] *)
Definition try_finally {A : Type} (body : JS A) (cleanup : JS unit) : JS A :=
  fun w =>
    match body w with
    | (r, w') =>
        match cleanup w' with
        | (Returns _, w'') => (r, w'')
        | (Throws e, w'') => (Throws e, w'')
        end
    end.

Declare Scope js_scope.
Delimit Scope js_scope with js.
Bind Scope js_scope with JS.
Notation "x <- c ;; k" := (bind c (fun x => k))
  (at level 100, c at next level, right associativity) : js_scope.
Notation "c ;; k" := (bind c (fun _ => k))
  (at level 100, right associativity) : js_scope.
Local Open Scope js_scope.

Definition gets {A : Type} (f : World -> A) : JS A := fun w => (Returns (f w), w).
Definition modify (f : World -> World) : JS unit := fun w => (Returns tt, f w).

Definition Date_now : JS Z := gets clock.


(** [await new Promise((resolve) => setTimeout(resolve, ms))]: the clock moves
    on by the delay; a delay that is negative or [NaN] counts as 0. *)
Definition sleep (ms : Number) : JS unit :=
  match ms with
  | Int z => modify (fun w => set_clock (clock w + Z.max 0 z) w)
  | NaN => ret tt
  end.

Definition this_keys : JS (list KeyStatus) := gets (fun w => keys (manager w)).
Definition this_currentIndex : JS nat := gets (fun w => currentIndex (manager w)).

(** The world after [this.keys] has been mutated into [ks], and after
    [this.currentIndex = i]. *)
Definition with_keys (ks : list KeyStatus) (w : World) : World :=
  set_manager {| keys := ks; currentIndex := currentIndex (manager w) |} w.

Definition with_currentIndex (i : nat) (w : World) : World :=
  set_manager {| keys := keys (manager w); currentIndex := i |} w.

Definition set_this_keys (ks : list KeyStatus) : JS unit := modify (with_keys ks).

Definition set_this_currentIndex (i : nat) : JS unit := modify (with_currentIndex i).

(** [console.log], [console.warn], [console.error]: one more line. *)
Definition with_line (l : ConsoleLine) (w : World) : World :=
  set_console (console w ++ [l]) w.

Definition console_line (l : ConsoleLine) : JS unit := modify (with_line l).

(** ** [class ApiKeyManager] *)

Module ApiKeyManager.

(** [new ApiKeyManager(apiKeys)]; the line it logs is left to the caller's
    world. *)
Definition constructor (apiKeys : list string) : ApiKeyManager :=
  {| keys := map (fun key => {| key := key; availableAt := 0;
                                isBlocked := false; errorCount := 0 |}) apiKeys;
     currentIndex := 0 |}.

(** The test [!k.isBlocked && k.availableAt <= now] that the methods share. *)
Definition available (now : Z) (k : KeyStatus) : bool :=
  negb (isBlocked k) && (availableAt k <=? now).

(** [(prev, curr) => (curr.availableAt < prev.availableAt ? curr : prev)], on
    objects that carry their position in [this.keys]. *)
Definition sooner (prev curr : nat * KeyStatus) : nat * KeyStatus :=
  if availableAt (snd curr) <? availableAt (snd prev) then curr else prev.

Definition getCurrentKey : JS string :=
  now <- Date_now ;;
  ks <- this_keys ;;
  match Array_find (available now) ks with
  | Some (i, availableKey) =>
      set_this_currentIndex i ;;
      ret (key availableKey)
  | None =>
      match Array_reduce sooner
              (List.filter (fun k => negb (isBlocked (snd k))) (indexed ks)) with
      | None => throw (TypeError "Reduce of empty array with no initial value")
      | Some (i, soonestKey) =>
          set_this_currentIndex i ;;
          ret (key soonestKey)
      end
  end.

(** The callback of [findIndex] in [markRateLimited]. *)
Definition same_prefix (keyString : string) (k : KeyStatus) : bool :=
  String.eqb (substring_0_20 (key k)) (substring_0_20 keyString).

Definition rate_limit (now retryAfterSeconds : Z) (k : KeyStatus) : KeyStatus :=
  {| key := key k;
     availableAt := now + retryAfterSeconds * 1000;
     isBlocked := isBlocked k;
     errorCount := errorCount k + 1 |}.

(** [markRateLimited(keyString, retryAfterSeconds)], called as its signature
    says: with a string and a number. *)
Definition markRateLimited (keyString : string) (retryAfterSeconds : Z) : JS unit :=
  ks <- this_keys ;;
  match Array_findIndex (same_prefix keyString) ks with
  | None => console_line WarnKeyNotFound
  | Some keyIndex =>
      now <- Date_now ;;
      set_this_keys (alter (rate_limit now retryAfterSeconds) keyIndex ks) ;;
      console_line (LogRateLimited (keyIndex + 1) (length ks) retryAfterSeconds)
  end.

(** [markRateLimited(n)] with a single argument that is a number, as
    [generateSingleAudio] calls it: [keyString] is bound to the number and
    [retryAfterSeconds] to [undefined]. The callback of [findIndex] evaluates
    [keyString.substring], which a number does not have, so it throws on the
    first element; on an empty array the callback never runs and [findIndex]
    is [-1]. *)
Definition markRateLimited_number (keyString : Number) : JS unit :=
  ks <- this_keys ;;
  match ks with
  | [] => console_line WarnKeyNotFound
  | _ :: _ => throw (TypeError "keyString.substring is not a function")
  end.

Definition getTotalKeys : JS nat :=
  ks <- this_keys ;;
  ret (length ks).

Definition getAvailableKeyCount : JS nat :=
  now <- Date_now ;;
  ks <- this_keys ;;
  ret (length (List.filter (available now) ks)).

(** The [for] loop of [rotateToNextKey], [remaining] iterations from [i] on,
    and the [return] after it. *)
Fixpoint rotate_loop (remaining i startIndex : nat) (now : Z) : JS string :=
  ks <- this_keys ;;
  match remaining with
  | O =>
      current <- this_currentIndex ;;
      match ks !! current with
      | Some k => ret (key k)
      | None => throw (TypeError "Cannot read properties of undefined (reading 'key')")
      end
  | S remaining' =>
      let nextIndex := ((startIndex + i) mod length ks)%nat in
      match ks !! nextIndex with
      | None => throw (TypeError "Cannot read properties of undefined (reading 'isBlocked')")
      | Some k =>
          if available now k then
            set_this_currentIndex nextIndex ;;
            count <- getAvailableKeyCount ;;
            console_line (LogRotated (nextIndex + 1) (length ks) count) ;;
            ret (key k)
          else rotate_loop remaining' (S i) startIndex now
      end
  end.

Definition rotateToNextKey : JS string :=
  now <- Date_now ;;
  startIndex <- this_currentIndex ;;
  ks <- this_keys ;;
  rotate_loop (length ks) 1 startIndex now.

Definition hasAvailableKey : JS bool :=
  now <- Date_now ;;
  ks <- this_keys ;;
  ret (existsb (available now) ks).

(** [Math.ceil(ms / 1000)] on integers. *)
Definition ceil_seconds (ms : Z) : Z := - ((- ms) / 1000).

(** The test [!k.isBlocked && k.availableAt > now]. *)
Definition cooling (now : Z) (k : KeyStatus) : bool :=
  negb (isBlocked k) && (now <? availableAt k).

Definition getSecondsUntilNextAvailable : JS Z :=
  now <- Date_now ;;
  ks <- this_keys ;;
  let blockedKeys := List.filter (fun k => cooling now (snd k)) (indexed ks) in
  match Array_reduce sooner blockedKeys with
  | None => ret 0
  | Some soonest => ret (ceil_seconds (availableAt (snd soonest) - now))
  end.

Definition block (k : KeyStatus) : KeyStatus :=
  {| key := key k; availableAt := availableAt k;
     isBlocked := true; errorCount := errorCount k |}.

(** [markKeyInvalid(keyIndex?)]; [this.keys[index]] is [undefined] outside
    the array. *)
Definition markKeyInvalid (keyIndex : option Z) : JS unit :=
  current <- this_currentIndex ;;
  let index := default (Z.of_nat current) keyIndex in
  ks <- this_keys ;;
  if (0 <=? index) && (index <? Z.of_nat (length ks)) then
    set_this_keys (alter block (Z.to_nat index) ks) ;;
    console_line (WarnMarkedInvalid (index + 1) (length ks))
  else ret tt.

Definition resetErrorCounts : JS unit :=
  ks <- this_keys ;;
  set_this_keys (map (fun k => {| key := key k; availableAt := availableAt k;
                                  isBlocked := isBlocked k; errorCount := 0 |}) ks) ;;
  console_line LogResetErrorCounts.

Definition logStatus : JS unit :=
  available <- getAvailableKeyCount ;;
  total <- getTotalKeys ;;
  ks <- this_keys ;;
  current <- this_currentIndex ;;
  let blocked := length (List.filter isBlocked ks) in
  console_line (LogStatus total available blocked (current + 1)).

(** An element of the array that [getKeysStatus] returns. *)
Record KeyReport := {
  report_index : nat;
  report_available : bool;
  report_availableIn : Z;
  report_errorCount : Z;
  report_isBlocked : bool
}.

Definition getKeysStatus : JS (list KeyReport) :=
  now <- Date_now ;;
  ks <- this_keys ;;
  ret (imap (fun i k =>
               {| report_index := i + 1;
                  report_available := available now k;
                  report_availableIn := Z.max 0 (ceil_seconds (availableAt k - now));
                  report_errorCount := errorCount k;
                  report_isBlocked := isBlocked k |}) ks).

(** The element that the callback of [getKeysStatus] builds for the credential
    [k] at position [i]. *)
Definition report_of (now : Z) (i : nat) (k : KeyStatus) : KeyReport :=
  {| report_index := i + 1;
     report_available := available now k;
     report_availableIn := Z.max 0 (ceil_seconds (availableAt k - now));
     report_errorCount := errorCount k;
     report_isBlocked := isBlocked k |}.

(** The callback of [forEach] in [resetErrorCounts]. *)
Definition reset_count (k : KeyStatus) : KeyStatus :=
  {| key := key k; availableAt := availableAt k;
     isBlocked := isBlocked k; errorCount := 0 |}.

(** The world after a successful rotation to position [j]. *)
Definition rotated (j : nat) (w : World) : World :=
  with_line
    (LogRotated (j + 1) (length (keys (manager w)))
                (length (List.filter (available (clock w)) (keys (manager w)))))
    (with_currentIndex j w).

(** The [return] after the loop. *)
Definition rotate_fallback (w : World) : Outcome string * World :=
  match keys (manager w) !! currentIndex (manager w) with
  | Some k => (Returns (key k), w)
  | None => (Throws (TypeError "Cannot read properties of undefined (reading 'key')"), w)
  end.

End ApiKeyManager.

(** ** What the browser and the remote service provide *)

(** The builtins and the collaborator that the hook calls and that are not
    part of the repository's logic:
    - [JSON_parse s] is [JSON.parse(s)], [None] when it throws a [SyntaxError];
    - [remote n req] is what the [n]-th call (from 0) of the speech service
      does with request [req]: it resolves with a blob or rejects;
    - [URL_createObjectURL]. *)
Class Host := {
  JSON_parse : string -> option Json;
  remote : nat -> Request -> Outcome Blob;
  URL_createObjectURL : Blob -> string
}.

(** ** [hooks/useAudioGeneration.ts] *)

Section useAudioGeneration.

Context `{host : Host}.
Variable props : Props.

(** *** Reading a parsed JSON value *)

(** [x.name] for [x] that is neither [null] nor [undefined], for the names read
    below ([error], [code], [details], [message], [retryDelay], [@type]), none
    of which a string, number, boolean or array has. [None] is [undefined]. *)
Definition member (name : string) (x : Json) : option Json :=
  match x with
  | JObject members => snd <$> List.find (fun m => String.eqb (fst m) name) members
  | _ => None
  end.

(** [x?.name] for [x] that may be [null] or [undefined]. *)
Definition optional_member (name : string) (x : option Json) : option Json :=
  match x with
  | None | Some JNull => None
  | Some v => member name v
  end.

Definition truthy (x : option Json) : bool :=
  match x with
  | None | Some JNull => false
  | Some (JBool b) => b
  | Some (JNumber n) => negb (n =? 0)
  | Some (JString s) => negb (String.eqb s "")
  | Some (JArray _) | Some (JObject _) => true
  end.

(** [x === n] for a number [n]. *)
Definition is_number (n : Z) (x : option Json) : bool :=
  match x with
  | Some (JNumber m) => m =? n
  | _ => false
  end.

Definition RetryInfo_type : string := "type.googleapis.com/google.rpc.RetryInfo".

(** [details.find((d) => d['@type'] === '...RetryInfo')]. The outer [option]
    is [None] when the callback throws, which it does on a [null] element. *)
Fixpoint find_RetryInfo (details : list Json) : option (option Json) :=
  match details with
  | [] => Some None
  | JNull :: _ => None
  | d :: rest =>
      match member "@type" d with
      | Some (JString t) =>
          if String.eqb t RetryInfo_type then Some (Some d) else find_RetryInfo rest
      | _ => find_RetryInfo rest
      end
  end.

Record RateLimitInfo := {
  isRateLimit : bool;
  retryAfterSeconds : Number;
  errorMsg : Json
}.

(** The body of the [try] of [parseRateLimitError] after [JSON.parse]; [None]
    when it throws (a [TypeError], from reading a property of [null] or from
    calling what is not a function). *)
Definition parse_errorJson (errorJson : Json) (message : string) : option RateLimitInfo :=
  match errorJson with
  | JNull => None
  | _ =>
      let error := member "error" errorJson in
      let otherwise :=
        let m := optional_member "message" error in
        Some {| isRateLimit := false; retryAfterSeconds := Int 0;
                errorMsg := if truthy m then default JNull m else JString message |} in
      if is_number 429 (optional_member "code" error) then
          let found :=
            match optional_member "details" error with
            | None | Some JNull => Some None
            | Some (JArray details) => find_RetryInfo details
            | Some _ => None
            end in
          match found with
          | None => None
          | Some found =>
              let retryDelay := optional_member "retryDelay" found in
              if truthy retryDelay then
                match retryDelay with
                | Some (JString d) =>
                    Some {| isRateLimit := true;
                            retryAfterSeconds := parseInt (replace_first "s" d);
                            errorMsg := JString "Rate limit exceeded" |}
                | _ => None
                end
              else otherwise
          end
      else otherwise
  end.

Definition parseRateLimitError (error : Thrown) : RateLimitInfo :=
  match error with
  | NotError text =>
      {| isRateLimit := false; retryAfterSeconds := Int 0; errorMsg := JString text |}
  | JsError _ message =>
      let caught := {| isRateLimit := false; retryAfterSeconds := Int 0;
                       errorMsg := JString message |} in
      match JSON_parse message with
      | None => caught
      | Some errorJson => default caught (parse_errorJson errorJson message)
      end
  end.

(** *** [generateSingleAudio] *)

(** [await generateAudioFromText(text, language, voice, currentKey)]. *)
Definition request_for (text : string) (currentKey : string) : Request :=
  {| req_text := text; req_language := language props;
     req_voice := voice props; req_apiKey := currentKey |}.

Definition generateAudioFromText (text : string) (currentKey : string) : JS Blob :=
  fun w =>
    let req := request_for text currentKey in
    (remote (length (requests w)) req, set_requests (requests w ++ [req]) w).

Definition Math_min (a : Number) (b : Z) : Number :=
  match a with
  | Int z => Int (Z.min z b)
  | NaN => NaN
  end.

Definition times_1000 (a : Number) : Number :=
  match a with
  | Int z => Int (z * 1000)
  | NaN => NaN
  end.

(** What follows the call of [markRateLimited] in the [if (isRateLimit)] of the
    [catch]: [true] when the branch ends in [continue], [false] when control
    falls through to [throw error]. *)
Definition rotate_or_wait (retryAfterSeconds : Number) (attempt maxRetries : Z) : JS bool :=
  total <- ApiKeyManager.getTotalKeys ;;
  rotating <- (if (1 <? total)%nat then ApiKeyManager.hasAvailableKey else ret false) ;;
  if rotating then
    ApiKeyManager.rotateToNextKey ;;
    console_line (LogRetryingRotated (attempt + 1) (maxRetries + 1)) ;;
    sleep (Int 500) ;;
    ret true
  else if attempt <? maxRetries then
    let waitTime := Math_min retryAfterSeconds 10 in
    console_line (LogWaiting waitTime) ;;
    sleep (times_1000 waitTime) ;;
    ret true
  else ret false.

(** The [catch (error)] block of one attempt, up to the [continue] or the
    [throw error]. *)
Definition on_failure (error : Thrown) (attempt maxRetries : Z) : JS bool :=
  let info := parseRateLimitError error in
  if isRateLimit info then
    ApiKeyManager.markRateLimited_number (retryAfterSeconds info) ;;
    rotate_or_wait (retryAfterSeconds info) attempt maxRetries
  else ret false.

(** The [for] loop with [remaining] iterations left, [attempt] being the loop
    variable, and the [throw] after it. *)
Fixpoint attempts (remaining : nat) (text : string) (attempt maxRetries : Z) : JS Blob :=
  match remaining with
  | O => throw (Error "Max retries exceeded")
  | S remaining' =>
      try_catch
        (currentKey <- ApiKeyManager.getCurrentKey ;;
         generateAudioFromText text currentKey)
        (fun error =>
           again <- on_failure error attempt maxRetries ;;
           if again then attempts remaining' text (attempt + 1) maxRetries
           else throw error)
  end.

(** [attempt] runs over [0 .. maxRetries]: [maxRetries + 1] iterations. *)
Definition generateSingleAudio (text : string) (maxRetries : Z) : JS Blob :=
  attempts (Z.to_nat (maxRetries + 1)) text 0 maxRetries.

(** *** The batch *)

(** [[...a]]: the copy holds the value [undefined] where [a] has a hole. *)
Definition spread (a : list Cell) : list Cell :=
  map (fun c => match c with Hole => Undefined | _ => c end) a.

(** [const updated = [...prev]; updated[i] = v]: beyond the end the copy
    grows, with holes in between. *)
Definition Array_set (i : nat) (v : Cell) (a : list Cell) : list Cell :=
  let updated := spread a in
  if (i <? length updated)%nat then <[i := v]> updated
  else updated ++ replicate (i - length updated) Hole ++ [v].

(** [a[i]]: a hole, and an index outside the array, read as [undefined]. *)
Definition Array_get (i : nat) (a : list Cell) : Cell :=
  match a !! i with
  | Some Hole | None => Undefined
  | Some c => c
  end.

Definition setAudioData (f : list Cell -> list Cell) : JS unit :=
  modify (fun w => set_audioData (f (audioData w)) w).

Definition setIsLoadingAudio (b : bool) : JS unit := modify (set_isLoadingAudio b).

Definition loading_clip : AudioData :=
  {| url := ""; blob := new_Blob; error := None; isLoading := Some true;
     retryAfter := None |}.

Definition succeeded_clip (audioUrl : string) (audioBlob : Blob) : AudioData :=
  {| url := audioUrl; blob := audioBlob; error := None; isLoading := None;
     retryAfter := None |}.

(** The object stored for a failed clip; [now] is [Date.now()]. *)
Definition failed_clip (now : Z) (clipError : Thrown) : AudioData :=
  let info := parseRateLimitError clipError in
  {| url := ""; blob := new_Blob; error := Some (errorMsg info); isLoading := None;
     retryAfter := match retryAfterSeconds info with
                   | Int s => if 0 <? s then Some (now + s * 1000) else None
                   | NaN => None
                   end |}.

(** The object that the [try]/[catch] around a run of the executor stores
    for the item: that of a clip with the blob that the run returned, or that
    of a failure with the error that it threw, at the time the run ended. *)
Definition state_after (run : Outcome Blob * World) : Cell :=
  match run with
  | (Returns audioBlob, _) =>
      Clip (succeeded_clip (URL_createObjectURL audioBlob) audioBlob)
  | (Throws clipError, w1) => Clip (failed_clip (clock w1) clipError)
  end.

(** The [try]/[catch] around one clip in [handleGenerateAllAudio]; [len] is
    [script.length]. *)
Definition generate_clip (i len : nat) (entry : ScriptEntry) : JS unit :=
  try_catch
    (audioBlob <- generateSingleAudio (text entry) 2 ;;
     let audioUrl := URL_createObjectURL audioBlob in
     setAudioData (Array_set i (Clip (succeeded_clip audioUrl audioBlob))) ;;
     if Z.of_nat i <? Z.of_nat len - 1 then sleep (Int 1000) else ret tt)
    (fun clipError =>
       console_line (ErrorGenerateClip i clipError) ;;
       now <- Date_now ;;
       setAudioData (Array_set i (Clip (failed_clip now clipError))))%js.

(** The [for] loop of [handleGenerateAllAudio] from index [i] on, over the
    entries left. *)
Fixpoint generate_from (i : nat) (len : nat) (entries : list ScriptEntry) : JS unit :=
  match entries with
  | [] => ret tt
  | entry :: rest =>
      (if trim_truthy (text entry) then generate_clip i len entry else ret tt) ;;
      generate_from (S i) len rest
  end.

Definition handleGenerateAllAudio : JS unit :=
  match script props with
  | None => ret tt
  | Some script =>
      setIsLoadingAudio true ;;
      setAudioData (fun _ =>
        map (fun entry => if trim_truthy (text entry) then Clip loading_clip else Null)
            script) ;;
      try_finally
        (generate_from 0 (length script) script)
        (setIsLoadingAudio false ;; ApiKeyManager.logStatus)
  end.

Definition retryAudioClip (index : nat) : JS unit :=
  match script props with
  | None => ret tt
  | Some script =>
      match script !! index with
      | None => ret tt
      | Some entry =>
          if trim_truthy (text entry) then
            setAudioData (Array_set index (Clip loading_clip)) ;;
            try_catch
              (audioBlob <- generateSingleAudio (text entry) 2 ;;
               let audioUrl := URL_createObjectURL audioBlob in
               setAudioData (Array_set index (Clip (succeeded_clip audioUrl audioBlob))))
              (fun clipError =>
                 console_line (ErrorRetryClip index clipError) ;;
                 now <- Date_now ;;
                 setAudioData (Array_set index (Clip (failed_clip now clipError))))
          else ret tt
      end
  end.

(** What the [catch] block does with the rest of the loop. *)
Definition after_failure (remaining : nat) (text : string) (attempt maxRetries : Z)
    (error : Thrown) : JS Blob :=
  again <- on_failure error attempt maxRetries ;;
  if again then attempts remaining text (attempt + 1) maxRetries
  else throw error.

(** The [code] of the structured failure in an error's message, when the
    message is JSON with an [error.code]. *)
Definition error_code (error : Thrown) : option Json :=
  match error with
  | JsError _ message =>
      match JSON_parse message with
      | Some errorJson => optional_member "code" (member "error" errorJson)
      | None => None
      end
  | NotError _ => None
  end.

End useAudioGeneration.

(** ** [hooks/useApiKeyManager.ts] *)

Fixpoint trimEnd (s : string) : string :=
  match s with
  | EmptyString => EmptyString
  | String c s' =>
      match trimEnd s' with
      | EmptyString => if is_whitespace c then EmptyString else String c EmptyString
      | rest => String c rest
      end
  end.

(** [s.trim()]. *)
Definition trim (s : string) : string := trimEnd (trimStart s).

(** [s.split(sep)] for a one-character separator; the empty string gives one
    empty piece. *)
Fixpoint split_on (sep : ascii) (s : string) : list string :=
  match s with
  | EmptyString => [EmptyString]
  | String c s' =>
      if Ascii.eqb c sep then EmptyString :: split_on sep s'
      else match split_on sep s' with
           | piece :: pieces => String c piece :: pieces
           | [] => [String c EmptyString]
           end
  end.

(** [s.includes(c)] for a one-character pattern. *)
Fixpoint includes (c : ascii) (s : string) : bool :=
  match s with
  | EmptyString => false
  | String a s' => Ascii.eqb a c || includes c s'
  end.

(** A key as the hook keeps it: not empty, without a comma, and with no white
    space around it. *)
Definition clean_key (k : string) : Prop :=
  k <> "" /\ includes "," k = false /\ trim k = k.

(** [a || b] for operands that are strings or [undefined]: the empty string
    is falsy. *)
Definition js_or (a b : option string) : option string :=
  match a with
  | Some EmptyString | None => b
  | Some _ => a
  end.

(** The array [apiKeys] of the hook; the arguments are [process.env.API_KEY]
    and [process.env.GEMINI_API_KEY]. *)
Definition configured_keys (API_KEY GEMINI_API_KEY : option string) : list string :=
  let apiKeysString := default "" (js_or (js_or API_KEY GEMINI_API_KEY) (Some "")) in
  List.filter (fun k => (0 <? String.length k)%nat)
              (map trim (split_on "," apiKeysString)).

(** The manager that the hook creates; the lines it prints are left out, as
    for the constructor. *)
Definition useApiKeyManager (API_KEY GEMINI_API_KEY : option string) : ApiKeyManager :=
  let apiKeys := configured_keys API_KEY GEMINI_API_KEY in
  match apiKeys with
  | [] => ApiKeyManager.constructor [""]
  | _ :: _ => ApiKeyManager.constructor apiKeys
  end.

(** ** [services/geminiService.ts]: the WAV container *)

(** The [n] low bytes of [v], the lowest first. *)
Fixpoint le_bytes (n : nat) (v : Z) : list Z :=
  match n with
  | O => []
  | S n' => v mod 256 :: le_bytes n' (v / 256)
  end.

(** A write of [bs] at [offset] into the bytes of a buffer; [None] is the
    [RangeError] of a write that does not fit. *)
Definition write_at (offset : nat) (bs : list Z) (view : list Z) : option (list Z) :=
  if (offset + length bs <=? length view)%nat
  then Some (take offset view ++ bs ++ drop (offset + length bs) view)%list
  else None.

(** [view.setUint8(offset, value)], [view.setUint16(offset, value, true)] and
    [view.setUint32(offset, value, true)]: the value is taken modulo 2^8, 2^16
    and 2^32 and stored little-endian. *)
Definition setUint8 (offset : nat) (value : Z) (view : list Z) : option (list Z) :=
  write_at offset [value mod 256] view.

Definition setUint16 (offset : nat) (value : Z) (view : list Z) : option (list Z) :=
  write_at offset (le_bytes 2 (value mod 65536)) view.

Definition setUint32 (offset : nat) (value : Z) (view : list Z) : option (list Z) :=
  write_at offset (le_bytes 4 (value mod 4294967296)) view.

Fixpoint writeString (view : list Z) (offset : nat) (s : string) : option (list Z) :=
  match s with
  | EmptyString => Some view
  | String c s' =>
      match setUint8 offset (Z.of_nat (nat_of_ascii c)) view with
      | Some view' => writeString view' (S offset) s'
      | None => None
      end
  end.

(** [createWavBlob(pcmData, sampleRate, numChannels, bytesPerSample)]: the
    bytes of the blob (its type is ['audio/wav']); [pcmData] is a
    [Uint8Array], a list of bytes. The three numbers are integers; their
    products are doubles, rounded before they are stored. *)
Definition createWavBlob (pcmData : list Z) (sampleRate numChannels bytesPerSample : Z)
    : option (list Z) :=
  let blockAlign := to_double (numChannels * bytesPerSample) in
  let byteRate := to_double (sampleRate * blockAlign) in
  let dataSize := Z.of_nat (length pcmData) in
  let buffer := replicate (44 + length pcmData) 0 in
  view ← writeString buffer 0 "RIFF";
  view ← setUint32 4 (36 + dataSize) view;
  view ← writeString view 8 "WAVE";
  view ← writeString view 12 "fmt ";
  view ← setUint32 16 16 view;
  view ← setUint16 20 1 view;
  view ← setUint16 22 numChannels view;
  view ← setUint32 24 sampleRate view;
  view ← setUint32 28 byteRate view;
  view ← setUint16 32 blockAlign view;
  view ← setUint16 34 (to_double (bytesPerSample * 8)) view;
  view ← writeString view 36 "data";
  view ← setUint32 40 dataSize view;
  write_at 44 pcmData view.

(** Reading back: [view.getUint16(offset, true)], [view.getUint32(offset,
    true)] and the characters at an offset. *)
Fixpoint le_value (bs : list Z) : Z :=
  match bs with
  | [] => 0
  | b :: rest => b + 256 * le_value rest
  end.

Definition getUint (size offset : nat) (view : list Z) : Z :=
  le_value (take size (drop offset view)).

Definition char_codes (s : string) : list Z :=
  map (fun c => Z.of_nat (nat_of_ascii c)) (list_ascii_of_string s).

(** ** [components/AudioResults.tsx]: the summary and the list *)

(** The callbacks of the three [filter]s. [filter] does not visit holes; on
    the value [undefined] the first two callbacks are falsy and [a !== null]
    is true. *)
Definition counts_as_success (c : Cell) : bool :=
  match c with
  | Clip d =>
      negb (String.eqb (url d) "") && negb (truthy (error d)) &&
      negb (default false (isLoading d))
  | _ => false
  end.

Definition counts_as_error (c : Cell) : bool :=
  match c with
  | Clip d => truthy (error d)
  | _ => false
  end.

Definition counts_as_nonempty (c : Cell) : bool :=
  match c with
  | Hole | Null => false
  | Undefined | Clip _ => true
  end.

Definition successCount (a : list Cell) : nat := length (List.filter counts_as_success a).
Definition errorCount_of (a : list Cell) : nat := length (List.filter counts_as_error a).
Definition totalNonEmpty (a : list Cell) : nat := length (List.filter counts_as_nonempty a).

(** What the list shows under a line of the script: nothing when the cell
    holds no object; otherwise the spinner, the countdown, the error box with
    its retry button, the player, or an empty frame. *)
Inductive Shown :=
| ShowNothing
| ShowGenerating
| ShowCountdown (retryAfter : Z)
| ShowError (message : Json)
| ShowPlayer (url : string)
| ShowEmpty.

(** The conditional under [audioData[index] && ...]; [now] is [Date.now()]. *)
Definition shown (now : Z) (c : Cell) : Shown :=
  match c with
  | Hole | Undefined | Null => ShowNothing
  | Clip d =>
      if default false (isLoading d) then ShowGenerating
      else if truthy (error d) then
        match retryAfter d with
        | Some t =>
            if negb (t =? 0) && (now <? t) then ShowCountdown t
            else ShowError (default JNull (error d))
        | None => ShowError (default JNull (error d))
        end
      else if negb (String.eqb (url d) "") then ShowPlayer (url d)
      else ShowEmpty
  end.

(** ** Relations between worlds *)

(** [keeps R c]: running [c] takes a world to one related to it by [R],
    whether [c] returns or throws. *)
Definition keeps (R : World -> World -> Prop) {A : Type} (c : JS A) : Prop :=
  forall w, R w (snd (c w)).

(** A call of a method of the pool, as a client can make it. *)
Inductive PoolCall :=
| CallGetCurrentKey
| CallMarkRateLimited (keyString : string) (retryAfterSeconds : Z)
| CallMarkRateLimitedNumber (keyString : Number)
| CallRotateToNextKey
| CallHasAvailableKey
| CallGetSecondsUntilNextAvailable
| CallGetTotalKeys
| CallGetAvailableKeyCount
| CallMarkKeyInvalid (keyIndex : option Z)
| CallResetErrorCounts
| CallLogStatus.

Definition ignore {A : Type} (c : JS A) : JS unit := (c ;; ret tt)%js.

Definition perform (c : PoolCall) : JS unit :=
  match c with
  | CallGetCurrentKey => ignore ApiKeyManager.getCurrentKey
  | CallMarkRateLimited keyString s => ApiKeyManager.markRateLimited keyString s
  | CallMarkRateLimitedNumber n => ApiKeyManager.markRateLimited_number n
  | CallRotateToNextKey => ignore ApiKeyManager.rotateToNextKey
  | CallHasAvailableKey => ignore ApiKeyManager.hasAvailableKey
  | CallGetSecondsUntilNextAvailable => ignore ApiKeyManager.getSecondsUntilNextAvailable
  | CallGetTotalKeys => ignore ApiKeyManager.getTotalKeys
  | CallGetAvailableKeyCount => ignore ApiKeyManager.getAvailableKeyCount
  | CallMarkKeyInvalid keyIndex => ApiKeyManager.markKeyInvalid keyIndex
  | CallResetErrorCounts => ApiKeyManager.resetErrorCounts
  | CallLogStatus => ApiKeyManager.logStatus
  end.

(** The calls one after the other, each at its own time, a call that throws
    not stopping the client from making the next. *)
Fixpoint perform_all (calls : list (Z * PoolCall)) (w : World) : World :=
  match calls with
  | [] => w
  | (time, c) :: rest => perform_all rest (snd (perform c (set_clock time w)))
  end.

(** The current index names a credential. *)
Definition current_in_range (w : World) : Prop :=
  (currentIndex (manager w) < length (keys (manager w)))%nat.

(** Every credential blocked in [w] is still there, and blocked, in [w']. *)
Definition blocked_kept (w w' : World) : Prop :=
  forall i k,
    keys (manager w) !! i = Some k -> isBlocked k = true ->
    exists k', keys (manager w') !! i = Some k' /\ isBlocked k' = true /\ key k' = key k.

Definition same_keys (w w' : World) : Prop := keys (manager w') = keys (manager w).

Inductive ItemState := NoState | Loading | Succeeded | Failed.

(** The state of a work item as its cell shows it: no object, an object with
    [isLoading] set, an object that carries an [error], or an object with
    neither. *)
Definition item_state (c : Cell) : ItemState :=
  match c with
  | Hole | Undefined | Null => NoState
  | Clip d =>
      match isLoading d with
      | Some true => Loading
      | _ => match error d with
             | Some _ => Failed
             | None => Succeeded
             end
      end
  end.

Definition settled (c : Cell) : Prop :=
  item_state c = Succeeded \/ item_state c = Failed.

(** The requests made between [w] and [w'] all carry [text]; the React state
    is the same. *)
Definition executor_frame (text : string) (w w' : World) : Prop :=
  audioData w' = audioData w /\
  isLoadingAudio w' = isLoadingAudio w /\
  exists new, requests w' = (requests w ++ new)%list /\
              Forall (fun q => req_text q = text) new.

(** ** Sample hosts and worlds *)

(** [JSON.stringify] of a value whose strings need no escaping. *)
Definition quote : string := String (ascii_of_nat 34) EmptyString.

Fixpoint join (sep : string) (l : list string) : string :=
  match l with
  | [] => ""
  | [x] => x
  | x :: rest => x +:+ sep +:+ join sep rest
  end.

Fixpoint JSON_stringify (j : Json) : string :=
  match j with
  | JNull => "null"
  | JBool true => "true"
  | JBool false => "false"
  | JNumber n => pretty n
  | JString s => quote +:+ s +:+ quote
  | JArray items => "[" +:+ join "," (map JSON_stringify items) +:+ "]"
  | JObject members =>
      "{" +:+ join "," (map (fun m => quote +:+ fst m +:+ quote +:+ ":" +:+
                                      JSON_stringify (snd m)) members) +:+ "}"
  end.

Module Samples.

(** The body of a 429 answer of the remote service, with its retry delay. *)
Definition too_many_requests (retryDelay : string) : Json :=
  JObject [("error", JObject [
    ("code", JNumber 429);
    ("message", JString "Resource has been exhausted (e.g. check quota).");
    ("status", JString "RESOURCE_EXHAUSTED");
    ("details", JArray [
       JObject [("@type", JString RetryInfo_type);
                ("retryDelay", JString retryDelay)]])])].

(** The body of a 403 answer. *)
Definition permission_denied : Json :=
  JObject [("error", JObject [
    ("code", JNumber 403);
    ("message", JString "Permission denied");
    ("status", JString "PERMISSION_DENIED")])].

(** [JSON.parse] on the texts of the bodies above; any other message met in
    the samples is plain prose, on which [JSON.parse] throws. *)
Definition parse_sample (s : string) : option Json :=
  List.find (fun v => String.eqb (JSON_stringify v) s)
            [too_many_requests "1s"; too_many_requests "5s"; permission_denied].

Definition ApiError (body : Json) : Thrown := JsError "ApiError" (JSON_stringify body).

Definition createObjectURL_sample (b : Blob) : string := "blob:" +:+ b.

(** A service that answers every request with a rate limit of [retryDelay]. *)
Definition always_rate_limited (retryDelay : string) : Host :=
  {| JSON_parse := parse_sample;
     remote := fun _ _ => Throws (ApiError (too_many_requests retryDelay));
     URL_createObjectURL := createObjectURL_sample |}.

(** A service that rejects every credential. *)
Definition always_denied : Host :=
  {| JSON_parse := parse_sample;
     remote := fun _ _ => Throws (ApiError permission_denied);
     URL_createObjectURL := createObjectURL_sample |}.

(** A service that never produces audio for the text ["second line"] and
    always does for any other text. *)
Definition fails_on_second_line : Host :=
  {| JSON_parse := parse_sample;
     remote := fun _ req =>
       if String.eqb (req_text req) "second line"
       then Throws (Error "No audio data received from the API.")
       else Returns ("RIFF:" +:+ req_text req);
     URL_createObjectURL := createObjectURL_sample |}.

(** A service that always produces audio. *)
Definition always_resolves : Host :=
  {| JSON_parse := parse_sample;
     remote := fun _ req => Returns ("RIFF:" +:+ req_text req);
     URL_createObjectURL := createObjectURL_sample |}.

(** The world right after the hook has been set up with the given keys. *)
Definition fresh (apiKeys : list string) (now : Z) : World :=
  {| manager := ApiKeyManager.constructor apiKeys;
     clock := now;
     console := [LogInitialized (length apiKeys)];
     requests := [];
     audioData := [];
     isLoadingAudio := false |}.

(** A world whose pool holds the given credentials. *)
Definition pool_world (ks : list KeyStatus) (current : nat) (now : Z) : World :=
  {| manager := {| keys := ks; currentIndex := current |};
     clock := now;
     console := [];
     requests := [];
     audioData := [];
     isLoadingAudio := false |}.

Definition credential (secret : string) (at_ : Z) (blocked : bool) : KeyStatus :=
  {| key := secret; availableAt := at_; isBlocked := blocked; errorCount := 0 |}.

Definition noon : Z := 1700000000000.

Definition three_lines : Props :=
  {| script := Some [ {| timestamp := "00:00-00:05"; text := "first line" |};
                      {| timestamp := "00:05-00:10"; text := "second line" |};
                      {| timestamp := "00:10-00:15"; text := "third line" |};
                      {| timestamp := "00:15-00:20"; text := "   " |} ];
     language := english;
     voice := female |}.

(** Pools and worlds of the sample runs. *)

Definition cooling_then_two_usable : World :=
  pool_world [credential "key-1" (noon + 30000) false;
              credential "key-2" 0 false;
              credential "key-3" 0 false] 0 noon.

Definition blocked_and_cooling : World :=
  pool_world [credential "key-1" 0 true;
              credential "key-2" (noon + 9000) false;
              credential "key-3" (noon + 3000) false] 0 noon.

Definition all_blocked : World :=
  pool_world [credential "key-1" 0 true; credential "key-2" 0 true] 0 noon.



(** [A] blocked, [B] and [C] usable, the current index given. *)
Definition A_blocked_B_C (current : nat) : World :=
  pool_world [credential "A" 0 true; credential "B" 0 false;
              credential "C" 0 false] current noon.

Definition only_cooling : World :=
  pool_world [credential "key-1" (noon + 9000) false;
              credential "key-2" (noon + 3000) false] 1 noon.


Definition service_error : Thrown := Error "No audio data received from the API.".

Definition lines : list ScriptEntry := default [] (script three_lines).

Definition one_cooling_one_usable : World :=
  pool_world [credential "key-1" (noon + 5000) false;
              credential "key-2" 0 false] 0 noon.

Definition single_cooling : World :=
  pool_world [credential "key-1" (noon + 30000) false] 0 noon.

End Samples.

(** * Properties *)

(** Case analysis on a member of a list that is written out. *)
Ltac each_member H :=
  repeat (apply elem_of_cons in H as [-> | H]); [.. | by apply elem_of_nil in H].

(** ** Arrays *)

Section arrays.

Context {A : Type}.
Implicit Types (p : A -> bool) (l : list A).

Lemma Array_find_Some p l i x :
  Array_find p l = Some (i, x) <->
  l !! i = Some x /\ p x = true /\
  (forall j y, l !! j = Some y -> (j < i)%nat -> p y = false).
Proof.
  revert i. induction l as [|a l IH]; intros i; simpl.
  - split; [discriminate | intros [H _]; discriminate].
  - destruct (p a) eqn:Hpa.
    + split.
      * intros [= <- <-]. repeat split; auto. intros j y _ Hj. lia.
      * intros (Hl & Hx & Hmin). destruct i as [|i].
        -- simpl in Hl. congruence.
        -- specialize (Hmin O a eq_refl ltac:(lia)). congruence.
    + destruct (Array_find p l) as [[i' x']|]; simpl.
      * split.
        -- intros [= <- <-]. destruct (IH i') as [(Hl & Hx & Hmin) _]; [done |].
           repeat split; auto. intros [|j] y Hj Hlt; simpl in Hj.
           ++ congruence.
           ++ apply (Hmin j); [done | lia].
        -- intros (Hl & Hx & Hmin). destruct i as [|i]; simpl in Hl.
           ++ congruence.
           ++ destruct (IH i) as [_ Hi].
              assert (Some (i', x') = Some (i, x)) as [= -> ->]; [| done].
              apply Hi. repeat split; auto.
              intros j y Hj Hlt. apply (Hmin (S j)); [done | lia].
      * split; [discriminate |].
        intros (Hl & Hx & Hmin). destruct i as [|i]; simpl in Hl.
        -- congruence.
        -- destruct (IH i) as [_ Hi].
           assert (@None (nat * A) = Some (i, x)) as Hn; [| discriminate].
           apply Hi. repeat split; auto.
           intros j y Hj Hlt. apply (Hmin (S j)); [done | lia].
Qed.

Lemma Array_find_None p l :
  Array_find p l = None <-> forall x, x ∈ l -> p x = false.
Proof.
  induction l as [|a l IH]; simpl.
  - split; [intros _ x Hx; inversion Hx | done].
  - destruct (p a) eqn:Hpa.
    + split; [discriminate |]. intros H. specialize (H a (list_elem_of_here _ _)).
      congruence.
    + destruct (Array_find p l) as [[i' x']|]; simpl.
      * split; [discriminate |]. intros H.
        assert (Some (i', x') = None) as Hn; [| discriminate].
        apply IH. intros x Hx. apply H. by apply list_elem_of_further.
      * split; [| done]. intros _ x Hx.
        apply elem_of_cons in Hx as [-> | Hx]; [done |].
        by apply IH.
Qed.

Lemma Array_find_existsb p l :
  existsb p l = true <-> exists i x, Array_find p l = Some (i, x).
Proof.
  induction l as [|a l IH]; simpl.
  - split; [discriminate | intros (? & ? & ?); discriminate].
  - destruct (p a); simpl.
    + split; eauto.
    + rewrite IH. split.
      * intros (i & x & ->). simpl. eauto.
      * intros (i & x & H). destruct (Array_find p l) as [[i' x']|]; [eauto | discriminate].
Qed.

Lemma indexed_lookup l i x : (i, x) ∈ indexed l <-> l !! i = Some x.
Proof.
  unfold indexed. rewrite elem_of_lookup_imap. split.
  - intros (j & y & [= -> ->] & H). done.
  - intros H. eauto.
Qed.

End arrays.

(** ** Sequencing *)

Lemma bind_returns {A B : Type} (c : JS A) (k : A -> JS B) w a w' :
  c w = (Returns a, w') -> bind c k w = k a w'.
Proof. unfold bind. by intros ->. Qed.

Lemma bind_throws {A B : Type} (c : JS A) (k : A -> JS B) w e w' :
  c w = (Throws e, w') -> bind c k w = (Throws e, w').
Proof. unfold bind. by intros ->. Qed.

(** ** The credential pool *)

Section pool.

Import ApiKeyManager.

Lemma Array_reduce_None {A : Type} (f : A -> A -> A) (l : list A) :
  Array_reduce f l = None <-> l = [].
Proof. destruct l; simpl; split; congruence. Qed.

Lemma fold_sooner l acc :
  let m := fold_left sooner l acc in
  (m = acc \/ m ∈ l) /\
  availableAt (snd m) <= availableAt (snd acc) /\
  (forall x, x ∈ l -> availableAt (snd m) <= availableAt (snd x)).
Proof.
  revert acc. induction l as [|a l IH]; intros acc; simpl.
  - split; [by left |]. split; [lia |]. intros x Hx. inversion Hx.
  - destruct (IH (sooner acc a)) as (Hin & Hle & Hmin).
    assert (availableAt (snd (sooner acc a)) <= availableAt (snd acc) /\
            availableAt (snd (sooner acc a)) <= availableAt (snd a) /\
            (sooner acc a = acc \/ sooner acc a = a)) as (Ha1 & Ha2 & Hor).
    { unfold sooner. destruct (availableAt (snd a) <? availableAt (snd acc)) eqn:E;
        [apply Z.ltb_lt in E | apply Z.ltb_ge in E]; repeat split; auto; lia. }
    split; [| split].
    + destruct Hin as [-> | Hin].
      * destruct Hor as [-> | ->]; [by left | right; apply list_elem_of_here].
      * right. by apply list_elem_of_further.
    + lia.
    + intros x Hx. apply elem_of_cons in Hx as [-> | Hx]; [lia | by apply Hmin].
Qed.

(** [reduce] with [sooner] picks an element with the least [availableAt]. *)
Lemma Array_reduce_sooner l m :
  Array_reduce sooner l = Some m ->
  m ∈ l /\ forall x, x ∈ l -> availableAt (snd m) <= availableAt (snd x).
Proof.
  destruct l as [|a l]; simpl; [discriminate |]. intros [= <-].
  destruct (fold_sooner l a) as (Hin & Hle & Hmin). split.
  - destruct Hin as [-> | Hin]; [apply list_elem_of_here | by apply list_elem_of_further].
  - intros x Hx. apply elem_of_cons in Hx as [-> | Hx]; [done | by apply Hmin].
Qed.

Lemma elem_of_List_filter {A : Type} (p : A -> bool) (l : list A) x :
  x ∈ List.filter p l <-> x ∈ l /\ p x = true.
Proof. rewrite !list_elem_of_In. apply filter_In. Qed.

Lemma getCurrentKey_eq w :
  getCurrentKey w =
  match Array_find (available (clock w)) (keys (manager w)) with
  | Some (i, availableKey) => (Returns (key availableKey), with_currentIndex i w)
  | None =>
      match Array_reduce sooner
              (List.filter (fun k => negb (isBlocked (snd k)))
                           (indexed (keys (manager w)))) with
      | None => (Throws (TypeError "Reduce of empty array with no initial value"), w)
      | Some (i, soonestKey) => (Returns (key soonestKey), with_currentIndex i w)
      end
  end.
Proof.
  unfold getCurrentKey, bind, Date_now, this_keys, gets. simpl.
  destruct (Array_find _ _) as [[i k]|]; [done |].
  destruct (Array_reduce _ _) as [[i k]|]; done.
Qed.

Lemma getCurrentKey_first_available w i k :
  keys (manager w) !! i = Some k ->
  available (clock w) k = true ->
  (forall j k', keys (manager w) !! j = Some k' -> (j < i)%nat ->
                available (clock w) k' = false) ->
  getCurrentKey w = (Returns (key k), with_currentIndex i w).
Proof.
  intros Hi Hk Hfirst. rewrite getCurrentKey_eq.
  assert (Array_find (available (clock w)) (keys (manager w)) = Some (i, k)) as ->.
  { apply Array_find_Some. auto. }
  done.
Qed.

Lemma getCurrentKey_soonest w :
  (forall k, k ∈ keys (manager w) -> available (clock w) k = false) ->
  (exists k, k ∈ keys (manager w) /\ isBlocked k = false) ->
  exists i k,
    keys (manager w) !! i = Some k /\ isBlocked k = false /\
    (forall k', k' ∈ keys (manager w) -> isBlocked k' = false ->
                availableAt k <= availableAt k') /\
    getCurrentKey w = (Returns (key k), with_currentIndex i w).
Proof.
  intros Hnone (k0 & Hk0 & Hb0). rewrite getCurrentKey_eq.
  apply Array_find_None in Hnone as ->.
  destruct (Array_reduce _ _) as [[i k]|] eqn:Hred.
  - apply Array_reduce_sooner in Hred as (Hin & Hmin).
    apply elem_of_List_filter in Hin as (Hin & Hb). simpl in Hb.
    apply indexed_lookup in Hin. exists i, k. repeat split; auto.
    + by destruct (isBlocked k).
    + intros k' Hk' Hb'. apply list_elem_of_lookup in Hk' as (j & Hj).
      apply (Hmin (j, k')). apply elem_of_List_filter. split.
      * by apply indexed_lookup.
      * simpl. by rewrite Hb'.
  - apply Array_reduce_None in Hred.
    apply list_elem_of_lookup in Hk0 as (j & Hj).
    assert ((j, k0) ∈ List.filter (fun k => negb (isBlocked (snd k)))
                                  (indexed (keys (manager w)))) as Hin.
    { apply elem_of_List_filter. split; [by apply indexed_lookup |].
      simpl. by rewrite Hb0. }
    rewrite Hred in Hin. inversion Hin.
Qed.

Lemma getCurrentKey_throws w :
  (exists e w', getCurrentKey w = (Throws e, w')) <->
  (keys (manager w) = [] \/ forall k, k ∈ keys (manager w) -> isBlocked k = true).
Proof.
  rewrite getCurrentKey_eq. split.
  - intros (e & w' & H). right. intros k Hk.
    destruct (Array_find _ _) as [[i a]|]; [discriminate |].
    destruct (Array_reduce _ _) as [[i a]|] eqn:Hred; [discriminate |].
    apply Array_reduce_None in Hred.
    destruct (isBlocked k) eqn:Hb; [done |].
    apply list_elem_of_lookup in Hk as (j & Hj).
    assert ((j, k) ∈ List.filter (fun k => negb (isBlocked (snd k)))
                                 (indexed (keys (manager w)))) as Hin.
    { apply elem_of_List_filter. split; [by apply indexed_lookup |].
      simpl. by rewrite Hb. }
    rewrite Hred in Hin. inversion Hin.
  - intros Hall.
    assert (forall k, k ∈ keys (manager w) -> isBlocked k = true) as Hblocked.
    { destruct Hall as [-> | H]; [intros k Hk; inversion Hk | done]. }
    assert (Array_find (available (clock w)) (keys (manager w)) = None) as ->.
    { apply Array_find_None. intros k Hk. unfold available.
      by rewrite (Hblocked k Hk). }
    destruct (List.filter _ _) as [|[j k] rest] eqn:Hf.
    + simpl. eauto.
    + assert ((j, k) ∈ List.filter (fun k => negb (isBlocked (snd k)))
                                   (indexed (keys (manager w)))) as Hin.
      { rewrite Hf. apply list_elem_of_here. }
      apply elem_of_List_filter in Hin as (Hin & Hb). simpl in Hb.
      apply indexed_lookup, list_elem_of_lookup_2, Hblocked in Hin.
      rewrite Hin in Hb. discriminate.
Qed.

Lemma available_later now t k :
  now <= t -> available now k = true -> available t k = true.
Proof.
  unfold available. intros Ht H. apply andb_true_iff in H as (Hb & Hle).
  apply Z.leb_le in Hle. rewrite Hb. simpl. apply Z.leb_le. lia.
Qed.

Lemma markRateLimited_eq keyString s w :
  markRateLimited keyString s w =
  match Array_findIndex (same_prefix keyString) (keys (manager w)) with
  | None => (Returns tt, with_line WarnKeyNotFound w)
  | Some keyIndex =>
      (Returns tt,
       with_line (LogRateLimited (keyIndex + 1) (length (keys (manager w))) s)
         (with_keys (alter (rate_limit (clock w) s) keyIndex (keys (manager w))) w))
  end.
Proof.
  unfold markRateLimited, bind, this_keys, gets. simpl.
  destruct (Array_findIndex _ _); done.
Qed.

Lemma same_prefix_refl k : same_prefix (key k) k = true.
Proof. unfold same_prefix. apply String.eqb_refl. Qed.

Lemma same_prefix_eq keyString k :
  same_prefix keyString k = true <->
  substring_0_20 (key k) = substring_0_20 keyString.
Proof. unfold same_prefix. apply String.eqb_eq. Qed.

Lemma same_prefix_neq keyString k :
  same_prefix keyString k = false <->
  substring_0_20 (key k) <> substring_0_20 keyString.
Proof. unfold same_prefix. apply String.eqb_neq. Qed.

Lemma Array_findIndex_Some {A : Type} (p : A -> bool) (l : list A) i :
  Array_findIndex p l = Some i <->
  exists x, l !! i = Some x /\ p x = true /\
            (forall j y, l !! j = Some y -> (j < i)%nat -> p y = false).
Proof.
  unfold Array_findIndex. split.
  - destruct (Array_find p l) as [[i' x]|] eqn:Hf; simpl; [| discriminate].
    intros [= <-]. exists x. by apply Array_find_Some.
  - intros (x & H). apply Array_find_Some in H. by rewrite H.
Qed.






Lemma markRateLimited_first_match keyString s w i k :
  keys (manager w) !! i = Some k ->
  substring_0_20 (key k) = substring_0_20 keyString ->
  (forall j k', keys (manager w) !! j = Some k' -> (j < i)%nat ->
                substring_0_20 (key k') <> substring_0_20 keyString) ->
  markRateLimited keyString s w =
  (Returns tt,
   with_line (LogRateLimited (i + 1) (length (keys (manager w))) s)
     (with_keys (alter (rate_limit (clock w) s) i (keys (manager w))) w)).
Proof.
  intros Hi Hk Hfirst. rewrite markRateLimited_eq.
  assert (Array_findIndex (same_prefix keyString) (keys (manager w)) = Some i) as ->; [| done].
  apply Array_findIndex_Some. exists k. repeat split; auto.
  - by apply same_prefix_eq.
  - intros j k' Hj Hlt. apply same_prefix_neq. eauto.
Qed.

(** Rotation correctness on a pool of three: credential 0 has just been
    marked, credential 1 or 2 is usable. *)
Lemma getCurrentKey_after_mark w k0 k1 k2 s t :
  keys (manager w) = [k0; k1; k2] ->
  available (clock w) k1 = true \/ available (clock w) k2 = true ->
  clock w <= t < clock w + s * 1000 ->
  let w1 := set_clock t (snd (markRateLimited (key k0) s w)) in
  exists i k,
    (i = 1 \/ i = 2)%nat /\ [k0; k1; k2] !! i = Some k /\
    getCurrentKey w1 = (Returns (key k), with_currentIndex i w1).
Proof.
  intros Hks Havail Ht.
  rewrite (markRateLimited_first_match (key k0) s w O k0); rewrite ?Hks; auto.
  2: { intros j k' _ Hj. lia. }
  simpl. set (w1 := set_clock t _).
  assert (keys (manager w1) = [rate_limit (clock w) s k0; k1; k2]) as Hks1 by done.
  assert (clock w1 = t) as Hclock by done.
  assert (available t (rate_limit (clock w) s k0) = false) as H0.
  { unfold available, rate_limit. simpl.
    replace (clock w + s * 1000 <=? t) with false; [apply andb_false_r |].
    symmetry. apply Z.leb_gt. lia. }
  destruct (available t k1) eqn:H1.
  - exists 1%nat, k1. repeat split; auto.
    apply getCurrentKey_first_available; rewrite ?Hks1, ?Hclock; auto.
    intros [|j] k' Hj Hlt; [simpl in Hj; congruence | lia].
  - assert (available t k2 = true) as H2.
    { destruct Havail as [H | H]; apply (available_later _ t) in H; try lia; congruence. }
    exists 2%nat, k2. repeat split; auto.
    apply getCurrentKey_first_available; rewrite ?Hks1, ?Hclock; auto.
    intros [|[|j]] k' Hj Hlt; simpl in Hj; [congruence | congruence | lia].
Qed.

(** C4. [getCurrentKey] returns the secret of the first credential, in pool
    order, that is not blocked and whose [availableAt] is not after now; when
    there is none, the non-blocked credential with the least [availableAt];
    it throws exactly when the pool is empty or every credential is blocked,
    and what it throws then is the [TypeError] of [reduce] on an empty array.
    On a pool of three where credential 0 has just been marked rate-limited
    and credential 1 or 2 is usable, it returns credential 1 or 2 until the
    cooldown has run out. *)
Theorem getCurrentKey_selectAvailable :
  (forall w i k,
     keys (manager w) !! i = Some k ->
     available (clock w) k = true ->
     (forall j k', keys (manager w) !! j = Some k' -> (j < i)%nat ->
                   available (clock w) k' = false) ->
     getCurrentKey w = (Returns (key k), with_currentIndex i w)) /\
  (forall w,
     (forall k, k ∈ keys (manager w) -> available (clock w) k = false) ->
     (exists k, k ∈ keys (manager w) /\ isBlocked k = false) ->
     exists i k,
       keys (manager w) !! i = Some k /\ isBlocked k = false /\
       (forall k', k' ∈ keys (manager w) -> isBlocked k' = false ->
                   availableAt k <= availableAt k') /\
       getCurrentKey w = (Returns (key k), with_currentIndex i w)) /\
  (forall w,
     ((exists e w', getCurrentKey w = (Throws e, w')) <->
      (keys (manager w) = [] \/
       forall k, k ∈ keys (manager w) -> isBlocked k = true)) /\
     (forall e w', getCurrentKey w = (Throws e, w') ->
        e = TypeError "Reduce of empty array with no initial value" /\ w' = w)) /\
  (forall w k0 k1 k2 s t,
     keys (manager w) = [k0; k1; k2] ->
     available (clock w) k1 = true \/ available (clock w) k2 = true ->
     clock w <= t < clock w + s * 1000 ->
     let w1 := set_clock t (snd (markRateLimited (key k0) s w)) in
     exists i k,
       (i = 1 \/ i = 2)%nat /\ [k0; k1; k2] !! i = Some k /\
       getCurrentKey w1 = (Returns (key k), with_currentIndex i w1)).
Proof.
  split; [exact getCurrentKey_first_available |].
  split; [exact getCurrentKey_soonest |].
  split; [| exact getCurrentKey_after_mark].
  intros w. split; [apply getCurrentKey_throws |].
  intros e w'. rewrite getCurrentKey_eq.
  destruct (Array_find _ _) as [[i k]|]; [discriminate |].
  destruct (Array_reduce _ _) as [[i k]|]; [discriminate |].
  by intros [= <- <-].
Qed.



(** *** Rotation *)

Lemma rotate_loop_O i start now w :
  rotate_loop 0 i start now w = rotate_fallback w.
Proof.
  unfold rotate_fallback. simpl. unfold bind, this_keys, this_currentIndex, gets. simpl.
  by destruct (_ !! _).
Qed.

Lemma rotate_loop_S remaining i start w k :
  keys (manager w) !! ((start + i) mod length (keys (manager w)))%nat = Some k ->
  rotate_loop (S remaining) i start (clock w) w =
  if available (clock w) k
  then (Returns (key k), rotated ((start + i) mod length (keys (manager w)))%nat w)
  else rotate_loop remaining (S i) start (clock w) w.
Proof.
  intros Hk. simpl. unfold bind at 1, this_keys at 1, gets at 1.
  rewrite Hk. by destruct (available (clock w) k).
Qed.

Lemma lookup_mod_length {A : Type} (l : list A) (x : nat) :
  l <> [] -> exists a, l !! (x mod length l)%nat = Some a.
Proof.
  intros Hl. apply lookup_lt_is_Some_2. apply Nat.mod_upper_bound.
  destruct l; [done | simpl; lia].
Qed.

(** The scan stops at the first usable credential it meets. *)
Lemma rotate_loop_first remaining i start w d k :
  (d < remaining)%nat ->
  keys (manager w) !! ((start + (i + d)) mod length (keys (manager w)))%nat = Some k ->
  available (clock w) k = true ->
  (forall d' k', (d' < d)%nat ->
     keys (manager w) !! ((start + (i + d')) mod length (keys (manager w)))%nat = Some k' ->
     available (clock w) k' = false) ->
  rotate_loop remaining i start (clock w) w =
  (Returns (key k), rotated ((start + (i + d)) mod length (keys (manager w)))%nat w).
Proof.
  revert i d. induction remaining as [|remaining IH]; intros i d Hd Hk Hav Hfirst; [lia |].
  destruct d as [|d].
  - rewrite Nat.add_0_r in *. rewrite (rotate_loop_S _ _ _ _ k) by done. by rewrite Hav.
  - assert (keys (manager w) <> []) as Hne.
    { intros E. rewrite E in Hk. by rewrite lookup_nil in Hk. }
    destruct (lookup_mod_length (keys (manager w)) (start + i) Hne) as (k' & Hk').
    rewrite (rotate_loop_S _ _ _ _ k') by done.
    rewrite (Hfirst O k'); [| lia | by rewrite Nat.add_0_r].
    replace (i + S d)%nat with (S i + d)%nat in * by lia.
    apply IH; auto; [lia |].
    intros d' k'' Hd' Hk''. apply (Hfirst (S d') k''); [lia |].
    by replace (i + S d')%nat with (S i + d')%nat by lia.
Qed.

(** Either the scan stops at a usable credential, or none of the positions
    it visits is usable and control reaches the [return] after the loop. *)
Lemma rotate_loop_cases remaining i start w :
  (remaining = 0%nat \/ keys (manager w) <> []) ->
  (exists d k,
     (d < remaining)%nat /\
     keys (manager w) !! ((start + (i + d)) mod length (keys (manager w)))%nat = Some k /\
     available (clock w) k = true /\
     rotate_loop remaining i start (clock w) w =
     (Returns (key k), rotated ((start + (i + d)) mod length (keys (manager w)))%nat w)) \/
  ((forall d k, (d < remaining)%nat ->
      keys (manager w) !! ((start + (i + d)) mod length (keys (manager w)))%nat = Some k ->
      available (clock w) k = false) /\
   rotate_loop remaining i start (clock w) w = rotate_fallback w).
Proof.
  revert i. induction remaining as [|remaining IH]; intros i Hne.
  - right. split; [intros; lia | apply rotate_loop_O].
  - destruct Hne as [? | Hne]; [lia |].
    destruct (lookup_mod_length (keys (manager w)) (start + i) Hne) as (k & Hk).
    rewrite (rotate_loop_S _ _ _ _ k) by done.
    destruct (available (clock w) k) eqn:Hav.
    + left. exists O, k. rewrite Nat.add_0_r. repeat split; auto. lia.
    + destruct (IH (S i)) as [(d & k' & Hd & Hk' & Hav' & Heq) | (Hnone & Heq)]; [by right | |].
      * left. exists (S d), k'.
        replace (i + S d)%nat with (S i + d)%nat by lia.
        repeat split; auto. lia.
      * right. split; [| done]. intros [|d] k' Hd Hk'.
        -- rewrite Nat.add_0_r in Hk'. congruence.
        -- apply (Hnone d k'); [lia |].
           by replace (S i + d)%nat with (i + S d)%nat by lia.
Qed.

(** A full cycle from any start visits every position. *)
Lemma cycle_covers (n start j : nat) :
  (j < n)%nat -> exists d, (d < n)%nat /\ ((start + (1 + d)) mod n)%nat = j.
Proof.
  intros Hj. set (a := ((start + 1) mod n)%nat).
  assert (a < n)%nat as Ha by (apply Nat.mod_upper_bound; lia).
  assert (forall d, ((start + (1 + d)) mod n = (a + d) mod n)%nat) as Hmod.
  { intros d. replace (start + (1 + d))%nat with (start + 1 + d)%nat by lia.
    unfold a. by rewrite Nat.Div0.add_mod_idemp_l. }
  destruct (decide (a <= j)%nat) as [Hle | Hgt].
  - exists (j - a)%nat. split; [lia |]. rewrite Hmod.
    replace (a + (j - a))%nat with j by lia. by apply Nat.mod_small.
  - exists (j + n - a)%nat. split; [lia |]. rewrite Hmod.
    replace (a + (j + n - a))%nat with (j + 1 * n)%nat by lia.
    rewrite Nat.Div0.mod_add. by apply Nat.mod_small.
Qed.

Lemma rotateToNextKey_eq w :
  rotateToNextKey w =
  rotate_loop (length (keys (manager w))) 1 (currentIndex (manager w)) (clock w) w.
Proof. done. Qed.

(** When some credential is usable, the rotation lands on a usable one. *)
Lemma rotateToNextKey_available w :
  existsb (available (clock w)) (keys (manager w)) = true ->
  exists j k,
    keys (manager w) !! j = Some k /\ available (clock w) k = true /\
    rotateToNextKey w = (Returns (key k), rotated j w).
Proof.
  intros Hex. rewrite rotateToNextKey_eq.
  destruct (rotate_loop_cases (length (keys (manager w))) 1
              (currentIndex (manager w)) w)
    as [(d & k & Hd & Hk & Hav & Heq) | (Hnone & _)].
  - destruct (keys (manager w)); [by left | by right].
  - eauto.
  - apply existsb_exists in Hex as (k & Hin & Hav).
    apply list_elem_of_In, list_elem_of_lookup in Hin as (j & Hj).
    destruct (cycle_covers (length (keys (manager w))) (currentIndex (manager w)) j)
      as (d & Hd & Hmod).
    { by apply lookup_lt_Some in Hj. }
    rewrite (Hnone d k) in Hav; [discriminate | done |]. by rewrite Hmod.
Qed.

Lemma rotateToNextKey_none w k :
  (forall k', k' ∈ keys (manager w) -> available (clock w) k' = false) ->
  keys (manager w) !! currentIndex (manager w) = Some k ->
  rotateToNextKey w = (Returns (key k), w).
Proof.
  intros Hnone Hk. rewrite rotateToNextKey_eq.
  destruct (rotate_loop_cases (length (keys (manager w))) 1
              (currentIndex (manager w)) w)
    as [(d & k' & Hd & Hk' & Hav & Heq) | (_ & ->)].
  - right. intros E. rewrite E in Hk. by rewrite lookup_nil in Hk.
  - apply list_elem_of_lookup_2, Hnone in Hk'. congruence.
  - unfold rotate_fallback. by rewrite Hk.
Qed.

(** With a current index inside the array the rotation does not throw. *)
Lemma rotateToNextKey_returns w :
  (currentIndex (manager w) < length (keys (manager w)))%nat ->
  exists secret w', rotateToNextKey w = (Returns secret, w').
Proof.
  intros Hcur. rewrite rotateToNextKey_eq.
  destruct (rotate_loop_cases (length (keys (manager w))) 1
              (currentIndex (manager w)) w)
    as [(d & k & _ & _ & _ & ->) | (_ & ->)].
  - right. intros E. rewrite E in Hcur. simpl in Hcur. lia.
  - eauto.
  - unfold rotate_fallback.
    destruct (lookup_lt_is_Some_2 _ _ Hcur) as (k & ->). eauto.
Qed.

Lemma rotateToNextKey_first w i k :
  let n := length (keys (manager w)) in
  let start := currentIndex (manager w) in
  (1 <= i <= n)%nat ->
  keys (manager w) !! ((start + i) mod n)%nat = Some k ->
  available (clock w) k = true ->
  (forall i' k', (1 <= i' < i)%nat ->
     keys (manager w) !! ((start + i') mod n)%nat = Some k' ->
     available (clock w) k' = false) ->
  rotateToNextKey w = (Returns (key k), rotated ((start + i) mod n)%nat w).
Proof.
  intros n start Hi Hk Hav Hfirst. rewrite rotateToNextKey_eq.
  replace i with (1 + (i - 1))%nat in * by lia.
  apply rotate_loop_first; auto; [lia |].
  intros d' k' Hd' Hk'. apply (Hfirst (1 + d')%nat k'); [lia | done].
Qed.

(** *** Waiting time *)

Lemma getSecondsUntilNextAvailable_eq w :
  getSecondsUntilNextAvailable w =
  match Array_reduce sooner
          (List.filter (fun k => cooling (clock w) (snd k)) (indexed (keys (manager w)))) with
  | None => (Returns 0, w)
  | Some soonest => (Returns (ceil_seconds (availableAt (snd soonest) - clock w)), w)
  end.
Proof.
  unfold getSecondsUntilNextAvailable, bind, Date_now, this_keys, gets. simpl.
  unfold cooling. by destruct (Array_reduce _ _).
Qed.

(** [ceil_seconds ms] is the least number of whole seconds that covers [ms]. *)
Lemma ceil_seconds_spec ms :
  1000 * (ceil_seconds ms - 1) < ms <= 1000 * ceil_seconds ms.
Proof.
  unfold ceil_seconds.
  pose proof (Z.div_mod (- ms) 1000 ltac:(lia)).
  pose proof (Z.mod_pos_bound (- ms) 1000 ltac:(lia)). lia.
Qed.


End pool.

(** ** The executor *)

Section executor.

Import ApiKeyManager.
Context `{host : Host}.
Variable props : Props.

Lemma getCurrentKey_returns w currentKey w1 :
  getCurrentKey w = (Returns currentKey, w1) ->
  exists i k,
    keys (manager w) !! i = Some k /\ currentKey = key k /\
    w1 = with_currentIndex i w.
Proof.
  rewrite getCurrentKey_eq.
  destruct (Array_find _ _) as [[i k]|] eqn:Hf.
  - intros [= <- <-]. apply Array_find_Some in Hf as (Hi & _). eauto.
  - destruct (Array_reduce _ _) as [[i k]|] eqn:Hred; [| discriminate].
    intros [= <- <-]. apply Array_reduce_sooner in Hred as (Hin & _).
    apply elem_of_List_filter in Hin as (Hin & _). apply indexed_lookup in Hin. eauto.
Qed.

Lemma attempts_S remaining text attempt maxRetries :
  attempts props (S remaining) text attempt maxRetries =
  try_catch
    (currentKey <- getCurrentKey ;; generateAudioFromText props text currentKey)
    (after_failure props remaining text attempt maxRetries).
Proof. done. Qed.

Lemma attempt_resolves remaining text attempt maxRetries w currentKey w1 audioBlob :
  getCurrentKey w = (Returns currentKey, w1) ->
  remote (length (requests w)) (request_for props text currentKey) = Returns audioBlob ->
  attempts props (S remaining) text attempt maxRetries w =
  (Returns audioBlob,
   set_requests (requests w ++ [request_for props text currentKey]) w1).
Proof.
  intros Hkey Hremote. rewrite attempts_S. unfold try_catch, bind. rewrite Hkey.
  apply getCurrentKey_returns in Hkey as (i & k & _ & _ & ->).
  unfold generateAudioFromText. simpl. by rewrite Hremote.
Qed.

Lemma attempt_rejects remaining text attempt maxRetries w currentKey w1 error :
  getCurrentKey w = (Returns currentKey, w1) ->
  remote (length (requests w)) (request_for props text currentKey) = Throws error ->
  attempts props (S remaining) text attempt maxRetries w =
  after_failure props remaining text attempt maxRetries error
    (set_requests (requests w ++ [request_for props text currentKey]) w1).
Proof.
  intros Hkey Hremote. rewrite attempts_S. unfold try_catch, bind. rewrite Hkey.
  apply getCurrentKey_returns in Hkey as (i & k & _ & _ & ->).
  unfold generateAudioFromText. simpl. by rewrite Hremote.
Qed.

Lemma generateSingleAudio_eq text maxRetries :
  0 <= maxRetries ->
  generateSingleAudio props text maxRetries =
  attempts props (S (Z.to_nat maxRetries)) text 0 maxRetries.
Proof.
  intros H. unfold generateSingleAudio.
  by replace (Z.to_nat (maxRetries + 1)) with (S (Z.to_nat maxRetries)) by lia.
Qed.

Lemma attempt_throws_other remaining text attempt maxRetries w w1 currentKey error :
  getCurrentKey w = (Returns currentKey, w1) ->
  remote (length (requests w)) (request_for props text currentKey) = Throws error ->
  isRateLimit (parseRateLimitError error) = false ->
  attempts props (S remaining) text attempt maxRetries w =
  (Throws error, set_requests (requests w ++ [request_for props text currentKey]) w1).
Proof.
  intros Hkey Hremote Hother.
  rewrite (attempt_rejects _ _ _ _ _ _ _ _ Hkey Hremote).
  unfold after_failure, bind, on_failure. by rewrite Hother.
Qed.

(** C9. A failure that the classifier does not report as a rate limit ends
    the executor on the attempt that met it: the failure itself is thrown,
    one request has been made on that attempt and none follows, whatever the
    number of attempts left; on the first attempt this is one request in
    all. *)
Theorem other_failure_not_retried :
  forall (text : string) (maxRetries : Z) (w w1 : World) (currentKey : string)
         (error : Thrown),
    getCurrentKey w = (Returns currentKey, w1) ->
    remote (length (requests w)) (request_for props text currentKey) = Throws error ->
    isRateLimit (parseRateLimitError error) = false ->
    (forall remaining attempt,
       attempts props (S remaining) text attempt maxRetries w =
       (Throws error,
        set_requests (requests w ++ [request_for props text currentKey]) w1)) /\
    (0 <= maxRetries ->
     exists w',
       generateSingleAudio props text maxRetries w = (Throws error, w') /\
       requests w' = (requests w ++ [request_for props text currentKey])%list).
Proof.
  intros text maxRetries w w1 currentKey error Hkey Hremote Hother.
  split; [intros; by apply attempt_throws_other |]. intros Hmax.
  rewrite generateSingleAudio_eq, (attempt_throws_other _ _ _ _ _ _ _ _ Hkey Hremote Hother)
    by done.
  eauto.
Qed.

(** The slip in the [catch] block: [markRateLimited] is called with the
    number of seconds alone, so on a pool that could hand out a credential the
    call throws and the executor ends there. *)
Lemma rate_limit_failure_throws_TypeError remaining text attempt maxRetries
    w w1 currentKey error :
  getCurrentKey w = (Returns currentKey, w1) ->
  remote (length (requests w)) (request_for props text currentKey) = Throws error ->
  isRateLimit (parseRateLimitError error) = true ->
  attempts props (S remaining) text attempt maxRetries w =
  (Throws (TypeError "keyString.substring is not a function"),
   set_requests (requests w ++ [request_for props text currentKey]) w1).
Proof.
  intros Hkey Hremote Hlimit.
  rewrite (attempt_rejects _ _ _ _ _ _ _ _ Hkey Hremote).
  apply getCurrentKey_returns in Hkey as (i & k & Hi & _ & ->).
  unfold after_failure, bind, on_failure. rewrite Hlimit.
  unfold bind, markRateLimited_number, bind, this_keys, gets. simpl.
  destruct (keys (manager w)); [by rewrite lookup_nil in Hi | done].
Qed.

Lemma getTotalKeys_eq w :
  getTotalKeys w = (Returns (length (keys (manager w))), w).
Proof. done. Qed.

Lemma hasAvailableKey_eq w :
  hasAvailableKey w = (Returns (existsb (available (clock w)) (keys (manager w))), w).
Proof. done. Qed.

(** The branch of the [catch] block after the call that marks the pool, as it
    is written; [rate_limit_failure_throws_TypeError] shows that a run which
    got a credential never comes to it. *)
Lemma rotate_or_wait_rotates s attempt maxRetries w j k :
  (1 < length (keys (manager w)))%nat ->
  existsb (available (clock w)) (keys (manager w)) = true ->
  rotateToNextKey w = (Returns (key k), rotated j w) ->
  rotate_or_wait s attempt maxRetries w =
  (Returns true,
   set_clock (clock w + 500)
     (with_line (LogRetryingRotated (attempt + 1) (maxRetries + 1)) (rotated j w))).
Proof.
  intros Htotal Husable Hrot.
  unfold rotate_or_wait.
  rewrite (bind_returns _ _ _ _ _ (getTotalKeys_eq w)).
  apply Nat.ltb_lt in Htotal. rewrite Htotal.
  rewrite (bind_returns _ _ _ _ _ (hasAvailableKey_eq w)), Husable.
  rewrite (bind_returns _ _ _ _ _ Hrot). done.
Qed.

Lemma rotate_or_wait_no_rotation s attempt maxRetries w :
  (length (keys (manager w)) <= 1)%nat \/
  existsb (available (clock w)) (keys (manager w)) = false ->
  rotate_or_wait s attempt maxRetries w =
  if attempt <? maxRetries
  then (Returns true,
        match times_1000 (Math_min s 10) with
        | Int ms => set_clock (clock w + Z.max 0 ms) (with_line (LogWaiting (Math_min s 10)) w)
        | NaN => with_line (LogWaiting (Math_min s 10)) w
        end)
  else (Returns false, w).
Proof.
  intros Hno.
  assert ((if (1 <? length (keys (manager w)))%nat then hasAvailableKey else ret false) w
          = (Returns false, w)) as Hcond.
  { destruct (1 <? length (keys (manager w)))%nat eqn:E; [| done].
    apply Nat.ltb_lt in E. destruct Hno as [? | Hno]; [lia |].
    by rewrite hasAvailableKey_eq, Hno. }
  unfold rotate_or_wait.
  rewrite (bind_returns _ _ _ _ _ (getTotalKeys_eq w)).
  rewrite (bind_returns _ _ _ _ _ Hcond).
  destruct (attempt <? maxRetries); [| done].
  unfold bind, console_line, modify, sleep. destruct (times_1000 _); done.
Qed.

(** *** The classifier *)

Lemma is_number_false n x : x <> Some (JNumber n) -> is_number n x = false.
Proof.
  intros Hx. destruct x as [[]|]; simpl; try done.
  apply Z.eqb_neq. congruence.
Qed.

(** Only a failure whose structured code is 429 can be reported as a rate
    limit. *)
Lemma parseRateLimitError_other_code error :
  error_code error <> Some (JNumber 429) ->
  isRateLimit (parseRateLimitError error) = false /\
  retryAfterSeconds (parseRateLimitError error) = Int 0.
Proof.
  intros Hcode. destruct error as [name message | text0]; [| done].
  simpl in *. destruct (JSON_parse message) as [errorJson|]; [| done].
  apply is_number_false in Hcode.
  destruct errorJson; simpl in *; by rewrite ?Hcode.
Qed.

End executor.


(** ** What a run leaves alone *)

Section frames.

Import ApiKeyManager.
Context `{host : Host}.
Variable props : Props.
Variable text : string.

Variable R : World -> World -> Prop.
Hypothesis R_refl : forall w, R w w.
Hypothesis R_trans : forall w1 w2 w3, R w1 w2 -> R w2 w3 -> R w1 w3.
Hypothesis R_line : forall l w, R w (with_line l w).
Hypothesis R_clock : forall t w, R w (set_clock t w).
Hypothesis R_currentIndex : forall i w, R w (with_currentIndex i w).
Hypothesis R_request :
  forall currentKey w,
    R w (set_requests (requests w ++ [request_for props text currentKey]) w).

Lemma keeps_ret {A : Type} (a : A) : keeps R (ret a).
Proof. intros w. apply R_refl. Qed.

Lemma keeps_throw {A : Type} (e : Thrown) : keeps R (@throw A e).
Proof. intros w. apply R_refl. Qed.

Lemma keeps_gets {A : Type} (f : World -> A) : keeps R (gets f).
Proof. intros w. apply R_refl. Qed.

Lemma keeps_modify (f : World -> World) :
  (forall w, R w (f w)) -> keeps R (modify f).
Proof. intros H w. apply H. Qed.

Lemma keeps_bind {A B : Type} (c : JS A) (k : A -> JS B) :
  keeps R c -> (forall a, keeps R (k a)) -> keeps R (bind c k).
Proof.
  intros Hc Hk w. unfold bind. specialize (Hc w).
  destruct (c w) as [[a | e] w1]; simpl in *; [| done].
  eapply R_trans; [exact Hc | apply Hk].
Qed.

Lemma keeps_try_catch {A : Type} (body : JS A) (handler : Thrown -> JS A) :
  keeps R body -> (forall e, keeps R (handler e)) -> keeps R (try_catch body handler).
Proof.
  intros Hb Hh w. unfold try_catch. specialize (Hb w).
  destruct (body w) as [[a | e] w1]; simpl in *; [done |].
  eapply R_trans; [exact Hb | apply Hh].
Qed.

Lemma keeps_try_finally {A : Type} (body : JS A) (cleanup : JS unit) :
  keeps R body -> keeps R cleanup -> keeps R (try_finally body cleanup).
Proof.
  intros Hb Hc w. unfold try_finally. specialize (Hb w).
  destruct (body w) as [r w1]. specialize (Hc w1).
  destruct (cleanup w1) as [[[] | e] w2]; simpl in *; eapply R_trans; eauto.
Qed.

Lemma keeps_if {A : Type} (b : bool) (c1 c2 : JS A) :
  keeps R c1 -> keeps R c2 -> keeps R (if b then c1 else c2).
Proof. by destruct b. Qed.

Lemma keeps_console_line l : keeps R (console_line l).
Proof. apply keeps_modify, R_line. Qed.

Lemma keeps_sleep ms : keeps R (sleep ms).
Proof. destruct ms; [apply keeps_modify; intros w; apply R_clock | apply keeps_ret]. Qed.

Lemma keeps_set_this_currentIndex i : keeps R (set_this_currentIndex i).
Proof. apply keeps_modify, R_currentIndex. Qed.

Lemma keeps_getCurrentKey : keeps R getCurrentKey.
Proof.
  intros w. rewrite getCurrentKey_eq.
  destruct (Array_find _ _) as [[i k]|]; [apply R_currentIndex |].
  destruct (Array_reduce _ _) as [[i k]|]; [apply R_currentIndex | apply R_refl].
Qed.

Lemma keeps_markRateLimited_number n : keeps R (markRateLimited_number n).
Proof.
  intros w. unfold markRateLimited_number, bind, this_keys, gets. simpl.
  destruct (keys (manager w)); [apply R_line | apply R_refl].
Qed.

Lemma keeps_getAvailableKeyCount : keeps R getAvailableKeyCount.
Proof. intros w. apply R_refl. Qed.

Lemma keeps_rotate_loop remaining i start now :
  keeps R (rotate_loop remaining i start now).
Proof.
  revert i. induction remaining as [|remaining IH]; intros i; simpl.
  - apply keeps_bind; [apply keeps_gets |]. intros ks.
    apply keeps_bind; [apply keeps_gets |]. intros current.
    destruct (ks !! current); [apply keeps_ret | apply keeps_throw].
  - apply keeps_bind; [apply keeps_gets |]. intros ks.
    destruct (ks !! _) as [k|]; [| apply keeps_throw].
    apply keeps_if; [| apply IH].
    apply keeps_bind; [apply keeps_set_this_currentIndex |]. intros _.
    apply keeps_bind; [apply keeps_getAvailableKeyCount |]. intros count.
    apply keeps_bind; [apply keeps_console_line |]. intros _. apply keeps_ret.
Qed.

Lemma keeps_rotateToNextKey : keeps R rotateToNextKey.
Proof.
  unfold rotateToNextKey.
  apply keeps_bind; [apply keeps_gets |]. intros now.
  apply keeps_bind; [apply keeps_gets |]. intros start.
  apply keeps_bind; [apply keeps_gets |]. intros ks. apply keeps_rotate_loop.
Qed.

Lemma keeps_rotate_or_wait s attempt maxRetries :
  keeps R (rotate_or_wait s attempt maxRetries).
Proof.
  unfold rotate_or_wait.
  apply keeps_bind; [intros w; apply R_refl |]. intros total.
  apply keeps_bind.
  { apply keeps_if; [intros w; apply R_refl | apply keeps_ret]. }
  intros rotating. apply keeps_if.
  - apply keeps_bind; [apply keeps_rotateToNextKey |]. intros _.
    apply keeps_bind; [apply keeps_console_line |]. intros _.
    apply keeps_bind; [apply keeps_sleep |]. intros _. apply keeps_ret.
  - apply keeps_if; [| apply keeps_ret].
    apply keeps_bind; [apply keeps_console_line |]. intros _.
    apply keeps_bind; [apply keeps_sleep |]. intros _. apply keeps_ret.
Qed.

Lemma keeps_on_failure error attempt maxRetries :
  keeps R (on_failure error attempt maxRetries).
Proof.
  unfold on_failure. apply keeps_if; [| apply keeps_ret].
  apply keeps_bind; [apply keeps_markRateLimited_number |]. intros _.
  apply keeps_rotate_or_wait.
Qed.

Lemma keeps_generateAudioFromText currentKey :
  keeps R (generateAudioFromText props text currentKey).
Proof. intros w. apply R_request. Qed.

Lemma keeps_attempts remaining attempt maxRetries :
  keeps R (attempts props remaining text attempt maxRetries).
Proof.
  revert attempt. induction remaining as [|remaining IH]; intros attempt; simpl.
  - apply keeps_throw.
  - apply keeps_try_catch.
    + apply keeps_bind; [apply keeps_getCurrentKey |]. intros currentKey.
      apply keeps_generateAudioFromText.
    + intros error. apply keeps_bind; [apply keeps_on_failure |]. intros again.
      apply keeps_if; [apply IH | apply keeps_throw].
Qed.

Lemma keeps_generateSingleAudio maxRetries :
  keeps R (generateSingleAudio props text maxRetries).
Proof. apply keeps_attempts. Qed.

End frames.

(** ** The blocked flag *)

Section blocked.

Import ApiKeyManager.
Context `{host : Host}.
Variable props : Props.

Lemma blocked_kept_refl w : blocked_kept w w.
Proof. intros i k Hi Hb. eauto. Qed.

Lemma blocked_kept_trans w1 w2 w3 :
  blocked_kept w1 w2 -> blocked_kept w2 w3 -> blocked_kept w1 w3.
Proof.
  intros H12 H23 i k Hi Hb.
  destruct (H12 i k Hi Hb) as (k2 & Hi2 & Hb2 & Hk2).
  destruct (H23 i k2 Hi2 Hb2) as (k3 & Hi3 & Hb3 & Hk3).
  exists k3. repeat split; auto. congruence.
Qed.

Lemma same_keys_blocked_kept w w' : same_keys w w' -> blocked_kept w w'.
Proof. unfold same_keys. intros H i k Hi Hb. rewrite H. eauto. Qed.

Lemma blocked_kept_alter f i w :
  (forall k, isBlocked k = true -> isBlocked (f k) = true /\ key (f k) = key k) ->
  blocked_kept w (with_keys (alter f i (keys (manager w))) w).
Proof.
  intros Hf j k Hj Hb. simpl. destruct (decide (i = j)) as [-> | Hne].
  - rewrite list_lookup_alter_eq, Hj. simpl. exists (f k).
    destruct (Hf k Hb). auto.
  - rewrite list_lookup_alter_ne by done. eauto.
Qed.

Lemma blocked_kept_markRateLimited keyString s w :
  blocked_kept w (snd (markRateLimited keyString s w)).
Proof.
  rewrite markRateLimited_eq. destruct (Array_findIndex _ _); simpl.
  - eapply blocked_kept_trans; [apply (blocked_kept_alter (rate_limit (clock w) s)) |].
    + by intros k Hb.
    + by apply same_keys_blocked_kept.
  - by apply same_keys_blocked_kept.
Qed.

Lemma blocked_kept_markKeyInvalid keyIndex w :
  blocked_kept w (snd (markKeyInvalid keyIndex w)).
Proof.
  unfold markKeyInvalid, bind, this_currentIndex, this_keys, gets. simpl.
  destruct (_ && _); simpl; [| apply blocked_kept_refl].
  eapply blocked_kept_trans; [apply (blocked_kept_alter block) |].
  - by intros k Hb.
  - by apply same_keys_blocked_kept.
Qed.

Lemma blocked_kept_resetErrorCounts w :
  blocked_kept w (snd (resetErrorCounts w)).
Proof.
  intros i k Hi Hb. simpl. rewrite list_lookup_fmap, Hi. simpl. eauto.
Qed.

Lemma same_keys_keeps_ignore {A : Type} (c : JS A) :
  keeps same_keys c -> keeps blocked_kept (ignore c).
Proof.
  intros Hc w. apply same_keys_blocked_kept. unfold ignore, bind. specialize (Hc w).
  destruct (c w) as [[a | e] w1]; done.
Qed.

Lemma same_keys_rotateToNextKey : keeps same_keys rotateToNextKey.
Proof.
  apply (keeps_rotateToNextKey same_keys); try done.
  unfold same_keys. intros w1 w2 w3 H12 H23. congruence.
Qed.

Lemma same_keys_getCurrentKey : keeps same_keys getCurrentKey.
Proof. apply (keeps_getCurrentKey same_keys); done. Qed.

Lemma blocked_kept_perform c w : blocked_kept w (snd (perform c w)).
Proof.
  destruct c; unfold perform.
  - apply same_keys_keeps_ignore, same_keys_getCurrentKey.
  - apply blocked_kept_markRateLimited.
  - apply same_keys_blocked_kept. by apply (keeps_markRateLimited_number same_keys).
  - apply same_keys_keeps_ignore, same_keys_rotateToNextKey.
  - apply same_keys_keeps_ignore. by intros w0.
  - apply same_keys_keeps_ignore. intros w0.
    rewrite getSecondsUntilNextAvailable_eq. by destruct (Array_reduce _ _).
  - apply same_keys_keeps_ignore. by intros w0.
  - apply same_keys_keeps_ignore. by intros w0.
  - apply blocked_kept_markKeyInvalid.
  - apply blocked_kept_resetErrorCounts.
  - by apply same_keys_blocked_kept.
Qed.

Lemma blocked_kept_perform_all calls w : blocked_kept w (perform_all calls w).
Proof.
  revert w. induction calls as [|[time c] rest IH]; intros w; simpl.
  - apply blocked_kept_refl.
  - eapply blocked_kept_trans; [| apply IH].
    eapply blocked_kept_trans; [| apply blocked_kept_perform].
    by apply same_keys_blocked_kept.
Qed.

(** *** The current index *)

Lemma snd_ignore {A : Type} (c : JS A) w : snd (ignore c w) = snd (c w).
Proof. unfold ignore, bind. by destruct (c w) as [[a | e] w1]. Qed.

Lemma current_in_range_getCurrentKey w :
  current_in_range w -> current_in_range (snd (getCurrentKey w)).
Proof.
  intros Hw. destruct (getCurrentKey w) as [[secret | e] w1] eqn:Hrun.
  - apply getCurrentKey_returns in Hrun as (i & k & Hi & _ & ->).
    unfold current_in_range. simpl. by apply lookup_lt_Some in Hi.
  - rewrite getCurrentKey_eq in Hrun.
    destruct (Array_find _ _) as [[i k]|]; [discriminate |].
    destruct (Array_reduce _ _) as [[i k]|]; [discriminate |].
    by injection Hrun as _ <-.
Qed.

Lemma current_in_range_rotateToNextKey w :
  current_in_range w -> current_in_range (snd (rotateToNextKey w)).
Proof.
  intros Hw. rewrite rotateToNextKey_eq.
  destruct (rotate_loop_cases (length (keys (manager w))) 1
              (currentIndex (manager w)) w)
    as [(d & k & _ & Hk & _ & ->) | (_ & ->)].
  - right. intros E. unfold current_in_range in Hw. rewrite E in Hw. simpl in Hw. lia.
  - unfold current_in_range. simpl. by apply lookup_lt_Some in Hk.
  - unfold rotate_fallback. by destruct (_ !! _).
Qed.

Lemma current_in_range_perform c w :
  current_in_range w -> current_in_range (snd (perform c w)).
Proof.
  intros Hw. destruct c; unfold perform; rewrite ?snd_ignore.
  - by apply current_in_range_getCurrentKey.
  - rewrite markRateLimited_eq. destruct (Array_findIndex _ _); [| done].
    unfold current_in_range. simpl. by rewrite length_alter.
  - unfold markRateLimited_number, bind, this_keys, gets. simpl.
    by destruct (keys (manager w)).
  - by apply current_in_range_rotateToNextKey.
  - done.
  - rewrite getSecondsUntilNextAvailable_eq. by destruct (Array_reduce _ _).
  - done.
  - done.
  - unfold markKeyInvalid, bind, this_currentIndex, this_keys, gets. simpl.
    destruct (_ && _); [| done].
    unfold current_in_range. simpl. by rewrite length_alter.
  - unfold current_in_range. simpl. by rewrite length_map.
  - done.
Qed.

(** In a pool built from at least one key the current index names a
    credential, whatever calls have been made and when. *)
Lemma current_in_range_perform_all apiKeys calls w :
  apiKeys <> [] ->
  manager w = constructor apiKeys ->
  current_in_range (perform_all calls w).
Proof.
  intros Hne Hw.
  assert (current_in_range w) as Hin.
  { unfold current_in_range. rewrite Hw. simpl. rewrite length_map.
    destruct apiKeys; [done | simpl; lia]. }
  clear Hw. revert w Hin. induction calls as [|[time c] rest IH]; intros w Hin; simpl.
  - done.
  - apply IH. by apply current_in_range_perform.
Qed.

(** C6. [rotateToNextKey] looks at the positions after the current one, in
    cyclic order and for one full cycle, and returns the secret of the first
    credential there that is not blocked and whose [availableAt] is not after
    now, making it the current one; when the cycle has none and the current
    index names a credential, it returns that credential's secret and changes
    nothing. With such an index it never throws, and the index is such in
    every pool built from at least one key, whatever calls were made before.
    Over [A blocked; B; C] with B and C usable: from 0 it yields B, from 1 it
    yields C, from 2 it wraps past A to B. *)
Theorem rotateToNextKey_cyclic :
  (forall w i k,
     let n := length (keys (manager w)) in
     let start := currentIndex (manager w) in
     (1 <= i <= n)%nat ->
     keys (manager w) !! ((start + i) mod n)%nat = Some k ->
     available (clock w) k = true ->
     (forall i' k', (1 <= i' < i)%nat ->
        keys (manager w) !! ((start + i') mod n)%nat = Some k' ->
        available (clock w) k' = false) ->
     exists w',
       rotateToNextKey w = (Returns (key k), w') /\
       manager w' = {| keys := keys (manager w);
                       currentIndex := ((start + i) mod n)%nat |}) /\
  (forall w k,
     (forall k', k' ∈ keys (manager w) -> available (clock w) k' = false) ->
     keys (manager w) !! currentIndex (manager w) = Some k ->
     rotateToNextKey w = (Returns (key k), w)) /\
  (forall w,
     (currentIndex (manager w) < length (keys (manager w)))%nat ->
     exists secret w', rotateToNextKey w = (Returns secret, w')) /\
  (forall apiKeys calls w,
     apiKeys <> [] ->
     manager w = constructor apiKeys ->
     exists secret w',
       rotateToNextKey (perform_all calls w) = (Returns secret, w')) /\
  (forall w A B C,
     keys (manager w) = [A; B; C] ->
     isBlocked A = true ->
     available (clock w) B = true ->
     available (clock w) C = true ->
     (currentIndex (manager w) = 0%nat ->
      exists w', rotateToNextKey w = (Returns (key B), w') /\
                 currentIndex (manager w') = 1%nat) /\
     (currentIndex (manager w) = 1%nat ->
      exists w', rotateToNextKey w = (Returns (key C), w') /\
                 currentIndex (manager w') = 2%nat) /\
     (currentIndex (manager w) = 2%nat ->
      exists w', rotateToNextKey w = (Returns (key B), w') /\
                 currentIndex (manager w') = 1%nat)).
Proof.
  split; [| split; [| split; [| split]]].
  - intros w i k n start Hi Hk Hav Hfirst.
    rewrite (rotateToNextKey_first w i k) by done. eauto.
  - exact rotateToNextKey_none.
  - exact rotateToNextKey_returns.
  - intros apiKeys calls w Hne Hw. apply rotateToNextKey_returns.
    by apply (current_in_range_perform_all apiKeys).
  - intros w A B C Hks HA HB HC.
    assert (available (clock w) A = false) as HA'.
    { unfold available. by rewrite HA. }
    split; [| split]; intros Hcur.
    + rewrite (rotateToNextKey_first w 1 B); rewrite ?Hks, ?Hcur; simpl; eauto; try lia.
    + rewrite (rotateToNextKey_first w 1 C); rewrite ?Hks, ?Hcur; simpl; eauto; try lia.
    + rewrite (rotateToNextKey_first w 2 B); rewrite ?Hks, ?Hcur; simpl; eauto; try lia.
      intros i' k' Hi'. assert (i' = 1%nat) as -> by lia. simpl. congruence.
Qed.

Lemma same_keys_generateSingleAudio text maxRetries :
  keeps same_keys (generateSingleAudio props text maxRetries).
Proof.
  apply (keeps_generateSingleAudio props text same_keys); try done.
  unfold same_keys. intros w1 w2 w3 H12 H23. congruence.
Qed.

Lemma isBlocked_alter f i (l : list KeyStatus) :
  (forall k, isBlocked (f k) = isBlocked k) ->
  (isBlocked <$> alter f i l) = (isBlocked <$> l).
Proof.
  intros Hf. apply list_eq. intros j. rewrite !list_lookup_fmap.
  destruct (decide (i = j)) as [-> | Hne].
  - rewrite list_lookup_alter_eq. destruct (l !! j); simpl; by rewrite ?Hf.
  - by rewrite list_lookup_alter_ne.
Qed.

(** Of the calls of the pool only [markKeyInvalid] changes a blocked flag. *)
Lemma isBlocked_perform c w :
  (forall keyIndex, c <> CallMarkKeyInvalid keyIndex) ->
  (isBlocked <$> keys (manager (snd (perform c w)))) = (isBlocked <$> keys (manager w)).
Proof.
  intros Hc. destruct c; unfold perform; rewrite ?snd_ignore.
  - by rewrite same_keys_getCurrentKey.
  - rewrite markRateLimited_eq. destruct (Array_findIndex _ _); [| done].
    cbn. by apply isBlocked_alter.
  - by rewrite (keeps_markRateLimited_number same_keys).
  - by rewrite same_keys_rotateToNextKey.
  - done.
  - rewrite getSecondsUntilNextAvailable_eq. by destruct (Array_reduce _ _).
  - done.
  - done.
  - by destruct (Hc keyIndex).
  - cbn. change (map ?f ?l) with (f <$> l). by rewrite <- list_fmap_compose.
  - done.
Qed.

(** C3, as the code has it. A failure whose structured error code is not 429
    (as that of every authentication or authorization rejection), or that
    has no such code, is not reported as a rate limit by the classifier,
    which has no class for invalid credentials; the executor throws it on
    that attempt, makes no further request and leaves every credential as it
    was, not blocked if it was not. Of the calls of the pool only
    [markKeyInvalid] changes a blocked flag, and no sequence of calls of the
    pool's methods unsets one. *)
Theorem auth_failure_thrown_nothing_blocked :
  (forall (text : string) (maxRetries : Z) (w w1 : World) (currentKey : string)
          (error : Thrown),
     getCurrentKey w = (Returns currentKey, w1) ->
     remote (length (requests w)) (request_for props text currentKey) = Throws error ->
     error_code error <> Some (JNumber 429) ->
     isRateLimit (parseRateLimitError error) = false /\
     forall remaining attempt,
     exists w',
       attempts props (S remaining) text attempt maxRetries w = (Throws error, w') /\
       requests w' = (requests w ++ [request_for props text currentKey])%list /\
       keys (manager w') = keys (manager w)) /\
  (forall (c : PoolCall) (w : World),
     (forall keyIndex, c <> CallMarkKeyInvalid keyIndex) ->
     (isBlocked <$> keys (manager (snd (perform c w)))) =
     (isBlocked <$> keys (manager w))) /\
  (forall (calls : list (Z * PoolCall)) (w : World),
     blocked_kept w (perform_all calls w)).
Proof.
  split; [| split].
  - intros text maxRetries w w1 currentKey error Hkey Hremote Hcode.
    destruct (parseRateLimitError_other_code error Hcode) as (Hother & _).
    split; [done |]. intros remaining attempt.
    rewrite (attempt_throws_other props remaining text attempt maxRetries w w1
               currentKey error Hkey Hremote Hother).
    eexists. split; [done |]. split; [done |].
    apply getCurrentKey_returns in Hkey as (i & k & _ & _ & ->). done.
  - exact isBlocked_perform.
  - exact blocked_kept_perform_all.
Qed.

End blocked.

(** ** The batch *)

Section arrays_of_cells.

Implicit Types (a : list Cell) (v : Cell) (d : AudioData).

Lemma length_spread a : length (spread a) = length a.
Proof. apply length_map. Qed.

Lemma spread_lookup a j :
  spread a !! j = (fun c => match c with Hole => Undefined | _ => c end) <$> a !! j.
Proof. unfold spread. change (map ?f a) with (f <$> a). apply list_lookup_fmap. Qed.

Lemma Array_get_spread j a : Array_get j (spread a) = Array_get j a.
Proof.
  unfold Array_get. rewrite spread_lookup. by destruct (a !! j) as [[]|].
Qed.

Lemma Array_set_in_range i v a :
  (i < length a)%nat -> Array_set i v a = <[i := v]> (spread a).
Proof.
  unfold Array_set. intros H. rewrite length_spread.
  apply Nat.ltb_lt in H. by rewrite H.
Qed.

Lemma length_Array_set i v a :
  (i < length a)%nat -> length (Array_set i v a) = length a.
Proof.
  intros H. rewrite Array_set_in_range by done.
  by rewrite length_insert, length_spread.
Qed.

Lemma Array_get_set_eq i d a : Array_get i (Array_set i (Clip d) a) = Clip d.
Proof.
  unfold Array_get, Array_set. rewrite length_spread.
  destruct (i <? length a)%nat eqn:E.
  - apply Nat.ltb_lt in E. rewrite list_lookup_insert_eq; [done |].
    by rewrite length_spread.
  - apply Nat.ltb_ge in E. rewrite lookup_app_r by (by rewrite length_spread).
    rewrite lookup_app_r by (rewrite length_replicate, length_spread; lia).
    rewrite length_replicate, length_spread.
    by replace (i - length a - (i - length a))%nat with O by lia.
Qed.

Lemma Array_get_set_ne i j v a :
  j <> i -> Array_get j (Array_set i v a) = Array_get j a.
Proof.
  intros Hne. rewrite <- (Array_get_spread j a).
  unfold Array_get, Array_set. rewrite length_spread.
  destruct (i <? length a)%nat eqn:E.
  - by rewrite list_lookup_insert_ne.
  - apply Nat.ltb_ge in E.
    destruct (decide (j < length a)%nat) as [Hlt | Hge].
    + by rewrite lookup_app_l by (by rewrite length_spread).
    + rewrite (lookup_ge_None_2 (spread a) j) by (rewrite length_spread; lia).
      rewrite lookup_app_r by (rewrite length_spread; lia). rewrite length_spread.
      destruct (decide (j - length a < i - length a)%nat) as [Hlt | Hge'].
      * rewrite lookup_app_l by (by rewrite length_replicate).
        by rewrite lookup_replicate_2.
      * rewrite lookup_app_r by (rewrite length_replicate; lia).
        rewrite length_replicate. rewrite lookup_ge_None_2; [done |]. simpl. lia.
Qed.

(** What a read tells about the element: [null] and an object are read only
    from an element that is [null] or that object. *)
Lemma Array_get_Null i a : Array_get i a = Null -> a !! i = Some Null.
Proof. unfold Array_get. by destruct (a !! i) as [[]|]. Qed.

Lemma Array_get_Clip i d a : Array_get i a = Clip d -> a !! i = Some (Clip d).
Proof. unfold Array_get. destruct (a !! i) as [[]|]; try done. by intros [= ->]. Qed.

Lemma Array_get_lookup i a c : a !! i = Some c -> c <> Hole -> Array_get i a = c.
Proof. unfold Array_get. intros -> Hc. by destruct c. Qed.

End arrays_of_cells.

Section batch.

Import ApiKeyManager.
Context `{host : Host}.
Variable props : Props.

Lemma executor_frame_same text w w' :
  audioData w' = audioData w ->
  isLoadingAudio w' = isLoadingAudio w ->
  requests w' = requests w ->
  executor_frame text w w'.
Proof.
  intros Ha Hl Hr. repeat split; auto.
  exists []. split; [by rewrite app_nil_r | constructor].
Qed.

Lemma executor_frame_refl text w : executor_frame text w w.
Proof. by apply executor_frame_same. Qed.

Lemma executor_frame_trans text w1 w2 w3 :
  executor_frame text w1 w2 -> executor_frame text w2 w3 -> executor_frame text w1 w3.
Proof.
  intros (Ha & Hl & new & Hr & Hn) (Ha' & Hl' & new' & Hr' & Hn').
  split; [congruence |]. split; [congruence |].
  exists (new ++ new')%list. split.
  - rewrite Hr', Hr. by rewrite <- app_assoc.
  - by apply Forall_app.
Qed.

Lemma executor_frame_generateSingleAudio text maxRetries :
  keeps (executor_frame text) (generateSingleAudio props text maxRetries).
Proof.
  apply (keeps_generateSingleAudio props text (executor_frame text)).
  - apply executor_frame_refl.
  - apply executor_frame_trans.
  - intros l w. by apply executor_frame_same.
  - intros t w. by apply executor_frame_same.
  - intros i w. by apply executor_frame_same.
  - intros currentKey w. repeat split.
    exists [request_for props text currentKey]. split; [done |].
    by constructor.
Qed.

Lemma settled_succeeded audioUrl audioBlob :
  settled (Clip (succeeded_clip audioUrl audioBlob)).
Proof. by left. Qed.

Lemma settled_failed now clipError : settled (Clip (failed_clip now clipError)).
Proof. by right. Qed.

Lemma settled_state_after run : settled (state_after run).
Proof. destruct run as [[audioBlob | clipError] w1]; [by left | by right]. Qed.

Lemma Array_get_set_state_after i run a :
  Array_get i (Array_set i (state_after run) a) = state_after run.
Proof. destruct run as [[audioBlob | clipError] w1]; apply Array_get_set_eq. Qed.

(** One clip of the batch: the iteration runs the executor once, ends
    normally whatever the run did, and stores the state after the run in
    cell [i]. *)
Lemma generate_clip_outcome i len entry w :
  exists w',
    generate_clip props i len entry w = (Returns tt, w') /\
    audioData w' =
      Array_set i (state_after (generateSingleAudio props (text entry) 2 w)) (audioData w) /\
    isLoadingAudio w' = isLoadingAudio w /\
    requests w' = requests (snd (generateSingleAudio props (text entry) 2 w)).
Proof.
  unfold generate_clip, try_catch.
  pose proof (executor_frame_generateSingleAudio (text entry) 2 w) as (Ha & Hl & _).
  unfold bind at 1.
  destruct (generateSingleAudio props (text entry) 2 w) as [[audioBlob | clipError] w1];
    cbn [fst snd] in Ha, Hl.
  - unfold bind, setAudioData, modify, sleep, ret. cbv beta iota.
    destruct (Z.of_nat i <? Z.of_nat len - 1);
      (eexists; split; [reflexivity |]); cbn; rewrite Ha; done.
  - unfold bind, console_line, Date_now, gets, setAudioData, modify. cbv beta iota.
    eexists. split; [reflexivity |]. cbn. rewrite Ha. done.
Qed.

Lemma generate_from_cons i len entry rest :
  generate_from props i len (entry :: rest) =
  ((if trim_truthy (text entry) then generate_clip props i len entry else ret tt) ;;
   generate_from props (S i) len rest)%js.
Proof. done. Qed.

(** One iteration of the loop of the batch. *)
Lemma generate_step_spec i len entry w :
  exists w',
    (if trim_truthy (text entry) then generate_clip props i len entry else ret tt) w
    = (Returns tt, w') /\
    isLoadingAudio w' = isLoadingAudio w /\
    (exists new, requests w' = (requests w ++ new)%list) /\
    ((i < length (audioData w))%nat -> length (audioData w') = length (audioData w)) /\
    (forall j, j <> i -> Array_get j (audioData w') = Array_get j (audioData w)) /\
    (trim_truthy (text entry) = false -> w' = w).
Proof.
  destruct (trim_truthy (text entry)).
  - destruct (generate_clip_outcome i len entry w) as (w' & Hrun & Ha & Hl & Hr).
    exists w'. split; [done |]. split; [done |].
    destruct (executor_frame_generateSingleAudio (text entry) 2 w) as (_ & _ & new & Hnew & _).
    split; [exists new; congruence |]. split; [| split; [| done]].
    + intros Hi. rewrite Ha. by apply length_Array_set.
    + intros j Hj. rewrite Ha. by apply Array_get_set_ne.
  - exists w. split_and!; try done. exists []. by rewrite app_nil_r.
Qed.

Lemma generate_from_returns entries i len w :
  exists w', generate_from props i len entries w = (Returns tt, w').
Proof.
  revert i w. induction entries as [|entry rest IH]; intros i w; [by exists w |].
  rewrite generate_from_cons.
  destruct (generate_step_spec i len entry w) as (w1 & Hstep & _).
  rewrite (bind_returns _ _ _ _ _ Hstep). apply IH.
Qed.

(** The loop over a list in two parts. *)
Lemma generate_from_app l1 l2 i len w :
  generate_from props i len (l1 ++ l2) w =
  generate_from props (i + length l1) len l2 (snd (generate_from props i len l1 w)).
Proof.
  revert i w. induction l1 as [|entry l1 IH]; intros i w.
  - change ([] ++ l2)%list with l2. change (length []) with O.
    by rewrite Nat.add_0_r.
  - change ((entry :: l1) ++ l2)%list with (entry :: (l1 ++ l2))%list.
    rewrite !generate_from_cons.
    destruct (generate_step_spec i len entry w) as (w1 & Hstep & _).
    rewrite !(bind_returns _ _ _ _ _ Hstep). rewrite IH.
    by replace (i + length (entry :: l1))%nat with (S i + length l1)%nat
      by (cbn [length]; lia).
Qed.

(** The loop as it reaches item [i]: after the items before it. *)
Lemma generate_from_at entries i entry len w :
  entries !! i = Some entry ->
  generate_from props 0 len entries w =
  generate_from props i len (entry :: drop (S i) entries)
    (snd (generate_from props 0 len (take i entries) w)).
Proof.
  intros Hi. rewrite <- (take_drop_middle entries i entry Hi) at 1.
  rewrite generate_from_app. f_equal.
  rewrite length_take. apply lookup_lt_Some in Hi. lia.
Qed.

(** A cell reads the same after the loop when no item with text sits at its
    index. *)
Lemma generate_from_untouched entries i len w j :
  (forall d entry, entries !! d = Some entry -> (i + d)%nat = j ->
                   trim_truthy (text entry) = false) ->
  Array_get j (audioData (snd (generate_from props i len entries w))) =
  Array_get j (audioData w).
Proof.
  revert i w. induction entries as [|entry rest IH]; intros i w Hj; [done |].
  rewrite generate_from_cons.
  destruct (generate_step_spec i len entry w) as (w1 & Hstep & _ & _ & _ & Hother & Hblank).
  rewrite (bind_returns _ _ _ _ _ Hstep).
  rewrite IH.
  - destruct (decide (j = i)) as [-> | Hne]; [| by apply Hother].
    rewrite Hblank; [done |]. apply (Hj O entry); [done | lia].
  - intros d e Hd Hidx. apply (Hj (S d) e); [done | lia].
Qed.

Lemma generate_from_length entries i len w :
  (i + length entries <= length (audioData w))%nat ->
  length (audioData (snd (generate_from props i len entries w))) = length (audioData w).
Proof.
  revert i w. induction entries as [|entry rest IH]; intros i w Hlen; [done |].
  cbn [length] in Hlen. rewrite generate_from_cons.
  destruct (generate_step_spec i len entry w) as (w1 & Hstep & _ & _ & Hl & _).
  rewrite (bind_returns _ _ _ _ _ Hstep).
  rewrite IH; [apply Hl; lia |]. rewrite Hl; lia.
Qed.

Lemma generate_from_requests_extend entries i len w :
  exists post,
    requests (snd (generate_from props i len entries w)) = (requests w ++ post)%list.
Proof.
  revert i w. induction entries as [|entry rest IH]; intros i w.
  - exists []. by rewrite app_nil_r.
  - rewrite generate_from_cons.
    destruct (generate_step_spec i len entry w) as (w1 & Hstep & _ & (new & Hnew) & _).
    rewrite (bind_returns _ _ _ _ _ Hstep).
    destruct (IH (S i) w1) as (post & Hpost).
    exists (new ++ post)%list. rewrite Hpost, Hnew. by rewrite <- app_assoc.
Qed.

Lemma logStatus_eq w :
  exists l, logStatus w = (Returns tt, with_line l w).
Proof.
  eexists. unfold logStatus, getAvailableKeyCount, getTotalKeys, bind, Date_now,
    this_keys, this_currentIndex, gets, ret, console_line, modify.
  reflexivity.
Qed.

(** The batch: every item with text gets the state after the executor's run
    for it, a run that starts in the world that the items before it have
    left and whose requests stay on record; an item without text keeps the
    [null] of the initial array. *)
Lemma handleGenerateAllAudio_items entries w :
  script props = Some entries ->
  let w0 :=
    set_audioData
      (map (fun entry => if trim_truthy (text entry) then Clip loading_clip else Null)
           entries)
      (set_isLoadingAudio true w) in
  exists w',
    handleGenerateAllAudio props w = (Returns tt, w') /\
    isLoadingAudio w' = false /\
    length (audioData w') = length entries /\
    forall i entry, entries !! i = Some entry ->
      if trim_truthy (text entry)
      then
        let before := snd (generate_from props 0 (length entries) (take i entries) w0) in
        let run := generateSingleAudio props (text entry) 2 before in
        Array_get i (audioData w') = state_after run /\
        exists post, requests w' = (requests (snd run) ++ post)%list
      else audioData w' !! i = Some Null.
Proof.
  intros Hscript w0. unfold handleGenerateAllAudio. rewrite Hscript.
  assert (length (audioData w0) = length entries) as Hlen0.
  { cbn. apply length_map. }
  destruct (generate_from_returns entries 0 (length entries) w0) as (w1 & Hrun).
  assert (w1 = snd (generate_from props 0 (length entries) entries w0)) as Hw1
    by (by rewrite Hrun).
  destruct (logStatus_eq (set_isLoadingAudio false w1)) as (l & Hlog).
  exists (with_line l (set_isLoadingAudio false w1)).
  split; [| split; [done | split]].
  - rewrite (bind_returns _ _ w tt (set_isLoadingAudio true w)) by done.
    rewrite (bind_returns _ _ _ tt w0) by done.
    unfold try_finally. rewrite Hrun.
    rewrite (bind_returns _ _ w1 tt (set_isLoadingAudio false w1)) by done.
    by rewrite Hlog.
  - cbn. rewrite Hw1, generate_from_length; [done | lia].
  - intros i entry Hi. cbn [audioData requests with_line set_console set_isLoadingAudio].
    destruct (trim_truthy (text entry)) eqn:Htrim.
    + cbv zeta.
      set (before := snd (generate_from props 0 (length entries) (take i entries) w0)).
      rewrite (generate_from_at entries i entry (length entries) w0 Hi) in Hw1.
      fold before in Hw1. rewrite generate_from_cons, Htrim in Hw1.
      destruct (generate_clip_outcome i (length entries) entry before)
        as (wi & Hclip & Ha & _ & Hr).
      rewrite (bind_returns _ _ _ _ _ Hclip) in Hw1. split.
      * rewrite Hw1, generate_from_untouched by (intros; lia).
        rewrite Ha. apply Array_get_set_state_after.
      * destruct (generate_from_requests_extend (drop (S i) entries) (S i)
                    (length entries) wi) as (post & Hpost).
        exists post. rewrite Hw1, Hpost. by rewrite Hr.
    + apply Array_get_Null. rewrite Hw1, generate_from_untouched.
      * unfold Array_get. cbn [audioData w0 set_audioData].
        change (map ?f entries) with (f <$> entries).
        rewrite list_lookup_fmap, Hi. cbn. by rewrite Htrim.
      * intros d e Hd Hidx. cbn in Hidx. subst d. congruence.
Qed.

Lemma handleGenerateAllAudio_spec entries w :
  script props = Some entries ->
  exists w',
    handleGenerateAllAudio props w = (Returns tt, w') /\
    isLoadingAudio w' = false /\
    length (audioData w') = length entries /\
    forall i entry, entries !! i = Some entry ->
      if trim_truthy (text entry)
      then settled (Array_get i (audioData w'))
      else audioData w' !! i = Some Null.
Proof.
  intros Hscript.
  destruct (handleGenerateAllAudio_items entries w Hscript) as (w' & Hrun & Hl & Hlen & Hitems).
  exists w'. split; [done |]. split; [done |]. split; [done |].
  intros i entry Hi. specialize (Hitems i entry Hi).
  destruct (trim_truthy (text entry)); [| done].
  destruct Hitems as (-> & _). apply settled_state_after.
Qed.

(** The retry of one clip, where there is one to retry: one run of the
    executor, whose state goes to cell [index]. *)
Lemma retryAudioClip_run index w entries entry :
  script props = Some entries -> entries !! index = Some entry ->
  trim_truthy (text entry) = true ->
  let w0 := set_audioData (Array_set index (Clip loading_clip) (audioData w)) w in
  let run := generateSingleAudio props (text entry) 2 w0 in
  exists w',
    retryAudioClip props index w = (Returns tt, w') /\
    audioData w' = Array_set index (state_after run) (audioData w0) /\
    requests w' = requests (snd run) /\
    isLoadingAudio w' = isLoadingAudio w.
Proof.
  intros Hscript Hentry Htrim w0 run. unfold retryAudioClip.
  rewrite Hscript, Hentry, Htrim.
  unfold bind at 1, setAudioData at 1, modify at 1. fold w0.
  unfold try_catch, bind at 1.
  pose proof (executor_frame_generateSingleAudio (text entry) 2 w0) as (Ha & Hl & _).
  unfold run.
  destruct (generateSingleAudio props (text entry) 2 w0) as [[audioBlob | clipError] w1];
    cbn [fst snd] in Ha, Hl.
  - eexists. split; [reflexivity |]. cbn. rewrite Ha. done.
  - unfold bind, console_line, Date_now, gets, setAudioData, modify. cbv beta iota.
    eexists. split; [reflexivity |]. cbn. rewrite Ha. done.
Qed.

Lemma retryAudioClip_spec index w :
  exists w',
    retryAudioClip props index w = (Returns tt, w') /\
    forall j, j <> index -> Array_get j (audioData w') = Array_get j (audioData w).
Proof.
  destruct (script props) as [entries|] eqn:Hscript;
    [| exists w; unfold retryAudioClip; by rewrite Hscript].
  destruct (entries !! index) as [entry|] eqn:Hentry;
    [| exists w; unfold retryAudioClip; by rewrite Hscript, Hentry].
  destruct (trim_truthy (text entry)) eqn:Htrim;
    [| exists w; unfold retryAudioClip; by rewrite Hscript, Hentry, Htrim].
  destruct (retryAudioClip_run index w entries entry Hscript Hentry Htrim)
    as (w' & Hrun & Ha & _).
  exists w'. split; [done |]. intros j Hj. rewrite Ha. cbn [audioData set_audioData].
  by rewrite !Array_get_set_ne.
Qed.

(** C5. Every iteration of the batch runs the executor for its item and ends
    normally whatever the run did: it stores the state after the run,
    succeeded with the blob returned or failed with the error thrown, in the
    cell of its own item and in no other, and the requests of the run stay
    on record. So in a batch every item whose text is not blank gets the
    state after the executor's run for it, a run that starts in the world
    left by the items before it whether they failed or not; every blank item
    keeps the cell [null], no state. [retryAudioClip(index)] on an item whose
    text is not blank runs the executor once, for that item: the cell of the
    item gets the state after that run, the requests made are those of the
    run, all with the item's text, and every other cell reads as before; in
    every other case (no script, no item at [index], a blank text) it
    changes nothing. On a script of three lines and a blank one, with a
    service that fails on the second line: the batch requests the three
    lines in order and leaves the first and third succeeded, the second
    failed and the blank one with no state; the retry of the second line
    with a service that now resolves makes one more request, for that line,
    leaves it succeeded and the other cells as they were. *)
Theorem batch_items_are_independent :
  (forall (i len : nat) (entry : ScriptEntry) (w : World),
     let run := generateSingleAudio props (text entry) 2 w in
     exists w',
       generate_clip props i len entry w = (Returns tt, w') /\
       Array_get i (audioData w') = state_after run /\
       settled (Array_get i (audioData w')) /\
       requests w' = requests (snd run) /\
       forall j, j <> i -> Array_get j (audioData w') = Array_get j (audioData w)) /\
  (forall (entries : list ScriptEntry) (w : World),
     script props = Some entries ->
     let w0 :=
       set_audioData
         (map (fun entry => if trim_truthy (text entry) then Clip loading_clip else Null)
              entries)
         (set_isLoadingAudio true w) in
     exists w',
       handleGenerateAllAudio props w = (Returns tt, w') /\
       length (audioData w') = length entries /\
       forall i entry, entries !! i = Some entry ->
         if trim_truthy (text entry)
         then
           let before :=
             snd (generate_from props 0 (length entries) (take i entries) w0) in
           let run := generateSingleAudio props (text entry) 2 before in
           Array_get i (audioData w') = state_after run /\
           settled (Array_get i (audioData w')) /\
           exists post, requests w' = (requests (snd run) ++ post)%list
         else audioData w' !! i = Some Null) /\
  (forall (index : nat) (w : World),
     exists w',
       retryAudioClip props index w = (Returns tt, w') /\
       (forall j, j <> index ->
                  Array_get j (audioData w') = Array_get j (audioData w)) /\
       (forall entries entry,
          script props = Some entries -> entries !! index = Some entry ->
          trim_truthy (text entry) = true ->
          let run :=
            generateSingleAudio props (text entry) 2
              (set_audioData (Array_set index (Clip loading_clip) (audioData w)) w) in
          Array_get index (audioData w') = state_after run /\
          settled (Array_get index (audioData w')) /\
          requests w' = requests (snd run) /\
          exists new, requests w' = (requests w ++ new)%list /\
                      Forall (fun q => req_text q = text entry) new) /\
       ((forall entries entry,
           script props = Some entries -> entries !! index = Some entry ->
           trim_truthy (text entry) = false) ->
        w' = w)) /\
  (let w := Samples.fresh ["key-1"; "key-2"] Samples.noon in
   let w1 :=
     snd (@handleGenerateAllAudio Samples.fails_on_second_line Samples.three_lines w) in
   let w2 :=
     snd (@retryAudioClip Samples.always_resolves Samples.three_lines 1 w1) in
   (item_state <$> audioData w1) = [Succeeded; Failed; Succeeded; NoState] /\
   (req_text <$> requests w1) = ["first line"; "second line"; "third line"] /\
   (item_state <$> audioData w2) = [Succeeded; Succeeded; Succeeded; NoState] /\
   Array_get 0 (audioData w2) = Array_get 0 (audioData w1) /\
   Array_get 2 (audioData w2) = Array_get 2 (audioData w1) /\
   Array_get 3 (audioData w2) = Array_get 3 (audioData w1) /\
   (req_text <$> requests w2) =
     ["first line"; "second line"; "third line"; "second line"]).
Proof.
  split; [| split; [| split]]; [| | | vm_compute; repeat split].
  - intros i len entry w run.
    destruct (generate_clip_outcome i len entry w) as (w' & Hrun & Ha & _ & Hr).
    exists w'. rewrite Ha, Array_get_set_state_after. split; [done |].
    split; [done |]. split; [apply settled_state_after |]. split; [done |].
    intros j Hj. by apply Array_get_set_ne.
  - intros entries w Hscript w0.
    destruct (handleGenerateAllAudio_items entries w Hscript)
      as (w' & Hrun & _ & Hlen & Hitems).
    exists w'. split; [done |]. split; [done |].
    intros i entry Hi. specialize (Hitems i entry Hi).
    destruct (trim_truthy (text entry)); [| done].
    cbv zeta in *. destruct Hitems as (Hcell & Hpost).
    split; [done |]. split; [| done]. rewrite Hcell. apply settled_state_after.
  - intros index w.
    destruct (retryAudioClip_spec index w) as (w' & Hrun & Hothers).
    exists w'. split; [done |]. split; [done |]. split.
    + intros entries entry Hscript Hentry Htrim run.
      destruct (retryAudioClip_run index w entries entry Hscript Hentry Htrim)
        as (w2 & Hrun2 & Ha & Hr & _).
      assert (w2 = w') as -> by congruence.
      rewrite Ha, Array_get_set_state_after. split; [done |].
      split; [apply settled_state_after |]. split; [done |].
      destruct (executor_frame_generateSingleAudio (text entry) 2
                  (set_audioData (Array_set index (Clip loading_clip) (audioData w)) w))
        as (_ & _ & new & Hnew & Hall).
      exists new. split; [| done]. rewrite Hr. exact Hnew.
    + intros Hblank. unfold retryAudioClip in Hrun.
      destruct (script props) as [entries|] eqn:Hscript; [| by injection Hrun as <-].
      destruct (entries !! index) as [entry|] eqn:Hentry; [| by injection Hrun as <-].
      rewrite (Hblank entries entry eq_refl Hentry) in Hrun. by injection Hrun as <-.
Qed.

End batch.

(** ** The properties on sample runs *)

Section samples.

Import ApiKeyManager Samples.

(** C2. With [maxRetries = 2], one credential and a service that answers
    every request with a rate limit of 1 second, the executor makes one
    request, not three: the call that should mark the credential throws a
    [TypeError], which ends the executor; the credential is left unmarked. *)
Theorem retry_budget_cut_short :
  let w := fresh ["key-1"] noon in
  exists w',
    @generateSingleAudio (always_rate_limited "1s") three_lines "first line" 2 w =
    (Throws (TypeError "keyString.substring is not a function"), w') /\
    length (requests w') = 1%nat /\
    manager w' = manager w /\
    clock w' = clock w.
Proof. eexists. split; [vm_compute; reflexivity | done]. Qed.

(** C1. The code does not do this. On a rate-limit failure the [catch] block
    calls [markRateLimited] with the number of seconds alone, in the place of
    the key; the call throws a [TypeError] before anything is marked, and the
    [TypeError] ends the executor. So whatever the pool, the service, the
    budget and the retry interval: after a rate-limit failure of the
    credential that [getCurrentKey] handed out, the executor has marked no
    credential, has not rotated, has not slept and does not retry; it throws
    the [TypeError] after that one request. With two credentials, both
    usable, and a service that answers with a rate limit of 5 seconds: one
    request, with the first key; the first credential is not in cooldown and
    the second is never tried. *)
Theorem rate_limit_failure_marks_nothing :
  (forall (host : Host) (props : Props) (text : string) (maxRetries : Z)
          (w w1 : World) (currentKey : string) (error : Thrown),
     0 <= maxRetries ->
     getCurrentKey w = (Returns currentKey, w1) ->
     @remote host (length (requests w)) (request_for props text currentKey)
       = Throws error ->
     isRateLimit (@parseRateLimitError host error) = true ->
     exists w',
       @generateSingleAudio host props text maxRetries w =
         (Throws (TypeError "keyString.substring is not a function"), w') /\
       keys (manager w') = keys (manager w) /\
       currentIndex (manager w') = currentIndex (manager w1) /\
       clock w' = clock w /\
       console w' = console w /\
       requests w' = (requests w ++ [request_for props text currentKey])%list) /\
  (let w := fresh ["key-1"; "key-2"] noon in
   exists w',
     @generateSingleAudio (always_rate_limited "5s") three_lines "first line" 2 w =
       (Throws (TypeError "keyString.substring is not a function"), w') /\
     requests w' = [request_for three_lines "first line" "key-1"] /\
     keys (manager w') = keys (manager w) /\
     (availableAt <$> keys (manager w')) = [0; 0] /\
     (errorCount <$> keys (manager w')) = [0; 0] /\
     currentIndex (manager w') = 0%nat /\
     clock w' = noon).
Proof.
  split.
  - intros host props text maxRetries w w1 currentKey error Hmax Hkey Hremote Hlimit.
    rewrite generateSingleAudio_eq by done.
    rewrite (@rate_limit_failure_throws_TypeError host props _ _ _ _ _ _ _ _
               Hkey Hremote Hlimit).
    eexists. split; [done |].
    apply getCurrentKey_returns in Hkey as (i & k & _ & _ & ->). done.
  - eexists. split; [vm_compute; reflexivity | done].
Qed.

(** Against C3 as stated: a service that rejects the credential with a 403
    ends the executor after one request, with that failure, and both
    credentials are as usable as before. *)
Lemma auth_failure_blocks_nothing :
  let w := fresh ["key-1"; "key-2"] noon in
  exists w',
    @generateSingleAudio always_denied three_lines "first line" 2 w =
    (Throws (ApiError permission_denied), w') /\
    @parseRateLimitError always_denied (ApiError permission_denied) =
    {| isRateLimit := false; retryAfterSeconds := Int 0;
       errorMsg := JString "Permission denied" |} /\
    length (requests w') = 1%nat /\
    keys (manager w') = keys (manager w) /\
    isBlocked <$> keys (manager w') = [false; false].
Proof. eexists. split; [vm_compute; reflexivity | done]. Qed.


Lemma getCurrentKey_selectAvailable_witness :
  getCurrentKey cooling_then_two_usable =
    (Returns "key-2", with_currentIndex 1 cooling_then_two_usable) /\
  (exists i k,
     keys (manager blocked_and_cooling) !! i = Some k /\ isBlocked k = false /\
     (forall k', k' ∈ keys (manager blocked_and_cooling) -> isBlocked k' = false ->
                 availableAt k <= availableAt k') /\
     getCurrentKey blocked_and_cooling =
       (Returns (key k), with_currentIndex i blocked_and_cooling)) /\
  (exists e w', getCurrentKey all_blocked = (Throws e, w')) /\
  (let w := fresh ["key-1"; "key-2"; "key-3"] noon in
   let w1 := set_clock (noon + 29999) (snd (markRateLimited "key-1" 30 w)) in
   exists i k,
     (i = 1 \/ i = 2)%nat /\
     keys (manager w) !! i = Some k /\
     getCurrentKey w1 = (Returns (key k), with_currentIndex i w1)).
Proof.
  destruct getCurrentKey_selectAvailable as (Hfirst & Hsoonest & Hthrows & Hmark).
  split; [| split; [| split]].
  - apply (Hfirst cooling_then_two_usable 1%nat (credential "key-2" 0 false)).
    + reflexivity.
    + reflexivity.
    + intros j k' Hj Hlt. assert (j = 0%nat) as -> by lia.
      injection Hj as <-. reflexivity.
  - apply (Hsoonest blocked_and_cooling).
    + intros k Hk. simpl in Hk. each_member Hk; reflexivity.
    + exists (credential "key-2" (noon + 9000) false). split; [| reflexivity].
      simpl. apply list_elem_of_further, list_elem_of_here.
  - apply (Hthrows all_blocked). right.
    intros k Hk. simpl in Hk. each_member Hk; reflexivity.
  - apply (Hmark (fresh ["key-1"; "key-2"; "key-3"] noon)
             (credential "key-1" 0 false) (credential "key-2" 0 false)
             (credential "key-3" 0 false) 30 (noon + 29999)).
    + reflexivity.
    + left. reflexivity.
    + unfold noon. simpl. lia.
Defined.



Lemma rotateToNextKey_cyclic_witness :
  (exists w',
     rotateToNextKey (A_blocked_B_C 2) = (Returns "B", w') /\
     manager w' = {| keys := keys (manager (A_blocked_B_C 2)); currentIndex := 1 |}) /\
  rotateToNextKey only_cooling = (Returns "key-2", only_cooling) /\
  (exists secret w', rotateToNextKey only_cooling = (Returns secret, w')) /\
  (exists secret w',
     rotateToNextKey
       (perform_all [(noon, CallMarkRateLimited "key-1" 30); (noon + 500, CallGetCurrentKey);
                     (noon + 900, CallMarkKeyInvalid None)]
                    (fresh ["key-1"; "key-2"] noon)) = (Returns secret, w')) /\
  (exists w', rotateToNextKey (A_blocked_B_C 0) = (Returns "B", w') /\
              currentIndex (manager w') = 1%nat) /\
  (exists w', rotateToNextKey (A_blocked_B_C 1) = (Returns "C", w') /\
              currentIndex (manager w') = 2%nat) /\
  (exists w', rotateToNextKey (A_blocked_B_C 2) = (Returns "B", w') /\
              currentIndex (manager w') = 1%nat).
Proof.
  destruct rotateToNextKey_cyclic as (Hfirst & Hnone & Hreturns & Hbuilt & Habc).
  split; [| split; [| split; [| split; [| split; [| split]]]]].
  - apply (Hfirst (A_blocked_B_C 2) 2%nat (credential "B" 0 false)).
    + simpl. lia.
    + reflexivity.
    + reflexivity.
    + intros i' k' Hi' Hk'. assert (i' = 1%nat) as -> by lia.
      simpl in Hk'. injection Hk' as <-. reflexivity.
  - apply (Hnone only_cooling (credential "key-2" (noon + 3000) false)).
    + intros k Hk. simpl in Hk. each_member Hk; reflexivity.
    + reflexivity.
  - apply (Hreturns only_cooling). simpl. lia.
  - apply (Hbuilt ["key-1"; "key-2"]); [discriminate | reflexivity].
  - destruct (Habc (A_blocked_B_C 0) (credential "A" 0 true) (credential "B" 0 false)
                (credential "C" 0 false) eq_refl eq_refl eq_refl eq_refl) as (H & _ & _).
    apply H. reflexivity.
  - destruct (Habc (A_blocked_B_C 1) (credential "A" 0 true) (credential "B" 0 false)
                (credential "C" 0 false) eq_refl eq_refl eq_refl eq_refl) as (_ & H & _).
    apply H. reflexivity.
  - destruct (Habc (A_blocked_B_C 2) (credential "A" 0 true) (credential "B" 0 false)
                (credential "C" 0 false) eq_refl eq_refl eq_refl eq_refl) as (_ & _ & H).
    apply H. reflexivity.
Defined.


Lemma other_failure_not_retried_witness :
  let w := fresh ["key-1"; "key-2"] noon in
  let req := request_for three_lines "second line" "key-1" in
  (forall remaining attempt,
     @attempts fails_on_second_line three_lines (S remaining) "second line" attempt 2 w =
     (Throws service_error, set_requests (requests w ++ [req]) (with_currentIndex 0 w))) /\
  (0 <= 2 ->
   exists w',
     @generateSingleAudio fails_on_second_line three_lines "second line" 2 w =
     (Throws service_error, w') /\
     requests w' = (requests w ++ [req])%list).
Proof.
  apply (@other_failure_not_retried fails_on_second_line three_lines "second line" 2
           (fresh ["key-1"; "key-2"] noon)
           (with_currentIndex 0 (fresh ["key-1"; "key-2"] noon))
           "key-1" service_error).
  - reflexivity.
  - reflexivity.
  - reflexivity.
Defined.

(** The batch against a service that fails on the second line, then a retry
    of that line against a service that works. *)
Lemma batch_items_are_independent_witness :
  let w := fresh ["key-1"; "key-2"] noon in
  let w0 :=
    set_audioData
      (map (fun entry => if trim_truthy (text entry) then Clip loading_clip else Null)
           lines)
      (set_isLoadingAudio true w) in
  (exists w',
     @handleGenerateAllAudio fails_on_second_line three_lines w = (Returns tt, w') /\
     length (audioData w') = length lines /\
     forall i entry, lines !! i = Some entry ->
       if trim_truthy (text entry)
       then
         let before :=
           snd (@generate_from fails_on_second_line three_lines 0 (length lines)
                  (take i lines) w0) in
         let run :=
           @generateSingleAudio fails_on_second_line three_lines (text entry) 2 before in
         Array_get i (audioData w') = @state_after fails_on_second_line run /\
         settled (Array_get i (audioData w')) /\
         exists post, requests w' = (requests (snd run) ++ post)%list
       else audioData w' !! i = Some Null) /\
  (let w1 := snd (@handleGenerateAllAudio fails_on_second_line three_lines w) in
   let run :=
     @generateSingleAudio always_resolves three_lines "second line" 2
       (set_audioData (Array_set 1 (Clip loading_clip) (audioData w1)) w1) in
   exists w',
     @retryAudioClip always_resolves three_lines 1 w1 = (Returns tt, w') /\
     (forall j, j <> 1%nat ->
                Array_get j (audioData w') = Array_get j (audioData w1)) /\
     Array_get 1 (audioData w') = @state_after always_resolves run /\
     settled (Array_get 1 (audioData w')) /\
     requests w' = requests (snd run) /\
     exists new, requests w' = (requests w1 ++ new)%list /\
                 Forall (fun q => req_text q = "second line") new).
Proof.
  intros w w0.
  destruct (@batch_items_are_independent fails_on_second_line three_lines)
    as (_ & Hbatch & _).
  destruct (@batch_items_are_independent always_resolves three_lines)
    as (_ & _ & Hretry & _).
  split.
  - apply (Hbatch lines w). reflexivity.
  - intros w1 run. destruct (Hretry 1%nat w1) as (w' & Hrun & Hothers & Hitem & _).
    exists w'. split; [exact Hrun |]. split; [exact Hothers |].
    apply (Hitem lines {| timestamp := "00:05-00:10"; text := "second line" |});
      reflexivity.
Defined.

Lemma auth_failure_thrown_nothing_blocked_witness :
  let w := fresh ["key-1"; "key-2"] noon in
  let error := ApiError permission_denied in
  @isRateLimit (@parseRateLimitError always_denied error) = false /\
  forall remaining attempt,
  exists w',
    @attempts always_denied three_lines (S remaining) "first line" attempt 2 w =
      (Throws error, w') /\
    requests w' = (requests w ++ [request_for three_lines "first line" "key-1"])%list /\
    keys (manager w') = keys (manager w).
Proof.
  intros w error.
  destruct (@auth_failure_thrown_nothing_blocked always_denied three_lines)
    as (Hauth & _ & _).
  apply (Hauth "first line" 2 w (with_currentIndex 0 w) "key-1" error).
  - reflexivity.
  - reflexivity.
  - vm_compute. discriminate.
Defined.

End samples.

(** * More of the code *)

(** ** The pool: selection and counts *)

Section pool_selection.

Import ApiKeyManager.

Lemma available_not_blocked now k : available now k = true -> isBlocked k = false.
Proof. unfold available. intros H. apply andb_true_iff in H as (H & _). by destruct (isBlocked k). Qed.

Lemma not_available_cooling now k :
  available now k = false -> isBlocked k = false -> cooling now k = true.
Proof.
  unfold available, cooling. intros Hav Hb. rewrite Hb in *. simpl in *.
  apply Z.leb_gt in Hav. by apply Z.ltb_lt.
Qed.

Lemma getCurrentKey_selection w secret w' :
  getCurrentKey w = (Returns secret, w') ->
  exists i k,
    w' = with_currentIndex i w /\
    keys (manager w) !! i = Some k /\ key k = secret /\ isBlocked k = false /\
    (existsb (available (clock w)) (keys (manager w)) = true ->
     available (clock w) k = true) /\
    (existsb (available (clock w)) (keys (manager w)) = false ->
     cooling (clock w) k = true).
Proof.
  rewrite getCurrentKey_eq.
  destruct (Array_find _ _) as [[i k]|] eqn:Hf.
  - intros [= <- <-]. apply Array_find_Some in Hf as (Hi & Hav & _).
    exists i, k. repeat split; auto.
    + by apply (available_not_blocked (clock w)).
    + intros Hno. rewrite <- not_true_iff_false in Hno. destruct Hno.
      apply existsb_exists. exists k. split; [| done].
      apply list_elem_of_In. by eapply list_elem_of_lookup_2.
  - destruct (Array_reduce _ _) as [[i k]|] eqn:Hred; [| discriminate].
    intros [= <- <-]. apply Array_reduce_sooner in Hred as (Hin & _).
    apply elem_of_List_filter in Hin as (Hin & Hb). simpl in Hb.
    apply indexed_lookup in Hin. apply negb_true_iff in Hb.
    pose proof (proj1 (Array_find_None _ _) Hf k (list_elem_of_lookup_2 _ _ _ Hin)) as Hnot.
    exists i, k. repeat split; auto.
    + intros Hex. apply Array_find_existsb in Hex as (? & ? & Hex). congruence.
    + intros _. by apply not_available_cooling.
Qed.

(** X1. A pool built from a list of keys that is not empty holds them in the
    configured order, each usable at any time from 0 on, not blocked and with
    no error counted, and its first selection is the first key. *)
Theorem built_pool_hands_out_first_key :
  forall (first : string) (others : list string) (w : World),
    manager w = constructor (first :: others) ->
    0 <= clock w ->
    (key <$> keys (manager w)) = first :: others /\
    Forall (fun k => available (clock w) k = true /\ isBlocked k = false /\
                     errorCount k = 0) (keys (manager w)) /\
    getCurrentKey w = (Returns first, with_currentIndex 0 w).
Proof.
  intros first others w Hw Hclock. rewrite getCurrentKey_eq, Hw. simpl.
  assert ((0 <=? clock w) = true) as Hle by (by apply Z.leb_le).
  split; [| split].
  - f_equal. change (map ?f ?l) with (f <$> l).
    rewrite <- list_fmap_compose. by rewrite list_fmap_id.
  - constructor.
    + unfold available. simpl. by rewrite Hle.
    + apply Forall_forall. intros k Hk.
      apply list_elem_of_In, in_map_iff in Hk as (a & <- & _).
      unfold available. simpl. by rewrite Hle.
  - unfold available at 1. simpl. rewrite Hle. simpl.
    unfold with_currentIndex. by rewrite Hw.
Qed.

(** X2. What [getCurrentKey] returns is the secret of a credential of the
    pool that is not blocked, and that credential becomes the current one;
    it is usable now whenever some credential is, and in cooldown
    otherwise. *)
Theorem getCurrentKey_never_hands_out_blocked :
  forall (w w' : World) (secret : string),
    getCurrentKey w = (Returns secret, w') ->
    exists k,
      keys (manager w') = keys (manager w) /\
      keys (manager w') !! currentIndex (manager w') = Some k /\
      key k = secret /\ isBlocked k = false /\
      (existsb (available (clock w)) (keys (manager w)) = true ->
       available (clock w) k = true) /\
      (existsb (available (clock w)) (keys (manager w)) = false ->
       cooling (clock w) k = true).
Proof.
  intros w w' secret Hrun.
  apply getCurrentKey_selection in Hrun as (i & k & -> & Hi & Hk & Hb & Hav & Hcool).
  exists k. simpl. repeat split; auto.
Qed.

Lemma three_way_count now ks :
  (length (List.filter (available now) ks) + length (List.filter isBlocked ks) +
   length (List.filter (cooling now) ks) = length ks)%nat.
Proof.
  induction ks as [|k ks IH]; simpl; [done |].
  unfold available at 1, cooling at 1.
  destruct (isBlocked k); simpl; [lia |].
  destruct (availableAt k <=? now) eqn:E1, (now <? availableAt k) eqn:E2; simpl; lia.
Qed.

Lemma existsb_filter_length {A : Type} (p : A -> bool) (l : list A) :
  existsb p l = (0 <? length (List.filter p l))%nat.
Proof. induction l as [|a l IH]; simpl; [done |]. by destruct (p a). Qed.

(** X3. Every credential is in exactly one of three groups: usable now,
    blocked, or in cooldown. So the count of usable credentials is at most
    the total, [hasAvailableKey] says whether that count is positive, and
    the number that [logStatus] prints as rate-limited, total minus usable
    minus blocked, is the number of credentials in cooldown. *)
Theorem pool_counts_partition :
  forall w : World,
    let ks := keys (manager w) in
    let usable := length (List.filter (available (clock w)) ks) in
    let blocked := length (List.filter isBlocked ks) in
    getAvailableKeyCount w = (Returns usable, w) /\
    getTotalKeys w = (Returns (length ks), w) /\
    hasAvailableKey w = (Returns (0 <? usable)%nat, w) /\
    logStatus w =
      (Returns tt,
       with_line (LogStatus (length ks) usable blocked (currentIndex (manager w) + 1)) w) /\
    (usable + blocked <= length ks)%nat /\
    (length ks - usable - blocked)%nat = length (List.filter (cooling (clock w)) ks).
Proof.
  intros w ks usable blocked.
  pose proof (three_way_count (clock w) ks) as Hsum. fold usable blocked in Hsum.
  split; [done |]. split; [done |]. split.
  - rewrite hasAvailableKey_eq. by rewrite existsb_filter_length.
  - split; [done |]. lia.
Qed.

End pool_selection.

(** ** The pool: status reports and waiting time *)

Section pool_reports.

Import ApiKeyManager.


Lemma ceil_seconds_mono a b : a <= b -> ceil_seconds a <= ceil_seconds b.
Proof. pose proof (ceil_seconds_spec a). pose proof (ceil_seconds_spec b). lia. Qed.


Lemma getKeysStatus_eq w :
  getKeysStatus w = (Returns (imap (report_of (clock w)) (keys (manager w))), w).
Proof. done. Qed.



(** The two outcomes of [getSecondsUntilNextAvailable]. *)
Lemma seconds_until_cases w :
  ((forall k, k ∈ keys (manager w) -> cooling (clock w) k = false) /\
   getSecondsUntilNextAvailable w = (Returns 0, w)) \/
  (exists k,
     k ∈ keys (manager w) /\ cooling (clock w) k = true /\
     (forall k', k' ∈ keys (manager w) -> cooling (clock w) k' = true ->
                 availableAt k <= availableAt k') /\
     getSecondsUntilNextAvailable w =
       (Returns (ceil_seconds (availableAt k - clock w)), w)).
Proof.
  rewrite getSecondsUntilNextAvailable_eq.
  destruct (Array_reduce _ _) as [[i k]|] eqn:Hred.
  - right. apply Array_reduce_sooner in Hred as (Hin & Hmin).
    apply elem_of_List_filter in Hin as (Hin & Hc). simpl in Hc.
    apply indexed_lookup in Hin. exists k.
    split; [by eapply list_elem_of_lookup_2 |]. repeat split; auto.
    intros k' Hk' Hc'. apply list_elem_of_lookup in Hk' as (j & Hj).
    apply (Hmin (j, k')). apply elem_of_List_filter. split; [by apply indexed_lookup | done].
  - left. split; [| done]. apply Array_reduce_None in Hred.
    intros k Hk. destruct (cooling (clock w) k) eqn:Hc; [| done].
    apply list_elem_of_lookup in Hk as (j & Hj).
    assert ((j, k) ∈ List.filter (fun k => cooling (clock w) (snd k))
                                 (indexed (keys (manager w)))) as Hin.
    { apply elem_of_List_filter. split; [by apply indexed_lookup | done]. }
    rewrite Hred in Hin. inversion Hin.
Qed.

Lemma cooling_spec now k :
  cooling now k = true <-> isBlocked k = false /\ now < availableAt k.
Proof.
  unfold cooling. rewrite andb_true_iff, negb_true_iff, Z.ltb_lt. done.
Qed.

Lemma cooling_not_available now k :
  cooling now k = true <-> isBlocked k = false /\ available now k = false.
Proof.
  rewrite cooling_spec. unfold available. split.
  - intros (-> & Hlt). split; [done |]. simpl. apply Z.leb_gt. lia.
  - intros (Hb & Hav). rewrite Hb in Hav. simpl in Hav. apply Z.leb_gt in Hav. done.
Qed.

(** X5. [getSecondsUntilNextAvailable] is the least [availableIn] that
    [getKeysStatus] reports for a credential that is neither blocked nor
    available, and 0 when there is no such credential. *)
Theorem seconds_until_next_is_least_reported :
  forall w : World,
  exists r reports,
    getSecondsUntilNextAvailable w = (Returns r, w) /\
    getKeysStatus w = (Returns reports, w) /\
    (forall rep, rep ∈ reports ->
       report_isBlocked rep = false -> report_available rep = false ->
       0 < r <= report_availableIn rep) /\
    ((exists rep, rep ∈ reports /\ report_isBlocked rep = false /\
                  report_available rep = false /\ report_availableIn rep = r) \/
     (r = 0 /\
      forall rep, rep ∈ reports ->
        report_isBlocked rep = true \/ report_available rep = true)).
Proof.
  intros w. rewrite getKeysStatus_eq.
  destruct (seconds_until_cases w) as [(Hnone & ->) | (k & Hk & Hc & Hmin & ->)].
  - exists 0. eexists. split; [done |]. split; [done |]. split.
    + intros rep Hrep Hb Hav.
      apply elem_of_lookup_imap in Hrep as (i & k & -> & Hi). simpl in *.
      apply list_elem_of_lookup_2, Hnone in Hi.
      assert (cooling (clock w) k = true) by (by apply cooling_not_available).
      congruence.
    + right. split; [done |]. intros rep Hrep.
      apply elem_of_lookup_imap in Hrep as (i & k & -> & Hi). simpl.
      apply list_elem_of_lookup_2, Hnone in Hi.
      destruct (isBlocked k) eqn:Hb; [by left | right].
      destruct (available (clock w) k) eqn:Hav; [done |].
      assert (cooling (clock w) k = true) by (by apply cooling_not_available).
      congruence.
  - pose proof (ceil_seconds_spec (availableAt k - clock w)) as Hceil.
    apply cooling_spec in Hc as Hc'. destruct Hc' as (Hb & Hlt).
    eexists. eexists. split; [done |]. split; [done |]. split.
    + intros rep Hrep Hb' Hav'.
      apply elem_of_lookup_imap in Hrep as (i & k' & -> & Hi). simpl in *.
      assert (cooling (clock w) k' = true) as Hc'' by (by apply cooling_not_available).
      apply list_elem_of_lookup_2 in Hi.
      pose proof (Hmin k' Hi Hc'') as Hle.
      pose proof (ceil_seconds_mono (availableAt k - clock w) (availableAt k' - clock w)
                    ltac:(lia)).
      lia.
    + left. apply list_elem_of_lookup in Hk as (i & Hi).
      exists (report_of (clock w) i k). split; [by apply elem_of_lookup_imap_2 |].
      simpl. split; [done |]. split; [by apply cooling_not_available |]. lia.
Qed.


End pool_reports.

(** ** The pool: blocking, rotation and error counts *)

Section pool_blocking.

Import ApiKeyManager.

Lemma markKeyInvalid_in_range w index k :
  keys (manager w) !! index = Some k ->
  markKeyInvalid (Some (Z.of_nat index)) w =
  (Returns tt,
   with_line (WarnMarkedInvalid (Z.of_nat index + 1) (length (keys (manager w))))
     (with_keys (alter block index (keys (manager w))) w)).
Proof.
  intros Hk. apply lookup_lt_Some in Hk.
  unfold markKeyInvalid, bind, this_currentIndex, this_keys, gets. simpl.
  assert ((0 <=? Z.of_nat index) && (Z.of_nat index <? Z.of_nat (length (keys (manager w))))
          = true) as ->.
  { apply andb_true_iff. split; [apply Z.leb_le | apply Z.ltb_lt]; lia. }
  by rewrite Nat2Z.id.
Qed.

Lemma length_keys_perform c w :
  length (keys (manager (snd (perform c w)))) = length (keys (manager w)).
Proof.
  destruct c; unfold perform; rewrite ?snd_ignore.
  - by rewrite same_keys_getCurrentKey.
  - rewrite markRateLimited_eq. destruct (Array_findIndex _ _); [| done].
    simpl. by rewrite length_alter.
  - by rewrite (keeps_markRateLimited_number same_keys).
  - by rewrite same_keys_rotateToNextKey.
  - done.
  - rewrite getSecondsUntilNextAvailable_eq. by destruct (Array_reduce _ _).
  - done.
  - done.
  - unfold markKeyInvalid, bind, this_currentIndex, this_keys, gets. simpl.
    destruct (_ && _); [| done]. simpl. by rewrite length_alter.
  - simpl. by rewrite length_map.
  - done.
Qed.

Lemma length_keys_perform_all calls w :
  length (keys (manager (perform_all calls w))) = length (keys (manager w)).
Proof.
  revert w. induction calls as [|[time c] rest IH]; intros w; simpl; [done |].
  by rewrite IH, length_keys_perform.
Qed.

(** X7. Once [markKeyInvalid] has been called with the position of a
    credential, that credential stays in its place and blocked whatever
    methods of the pool are called afterwards and whenever, and
    [getCurrentKey] never again makes it the current one. *)
Theorem invalid_credential_never_selected_again :
  forall (w : World) (index : nat) (k : KeyStatus) (calls : list (Z * PoolCall))
         (secret : string) (w' : World),
    keys (manager w) !! index = Some k ->
    getCurrentKey (perform_all calls (snd (markKeyInvalid (Some (Z.of_nat index)) w)))
      = (Returns secret, w') ->
    currentIndex (manager w') <> index /\
    exists k', keys (manager w') !! index = Some k' /\
               isBlocked k' = true /\ key k' = key k.
Proof.
  intros w index k calls secret w' Hk Hrun.
  rewrite (markKeyInvalid_in_range w index k Hk) in Hrun. simpl in Hrun.
  set (w0 := with_line _ _) in Hrun.
  assert (keys (manager w0) !! index = Some (block k)) as H0.
  { simpl. by rewrite list_lookup_alter_eq, Hk. }
  destruct (blocked_kept_perform_all calls w0 index (block k) H0 eq_refl)
    as (k' & Hk' & Hb' & Hkey).
  apply getCurrentKey_selection in Hrun as (i & ki & -> & Hi & _ & Hbi & _).
  simpl. split; [| by exists k'].
  intros ->. congruence.
Qed.

(** X8. No method of the pool unblocks a credential: when every credential
    is blocked, then after any calls of the pool's methods at any times
    [getCurrentKey] throws the [TypeError] of [reduce] on an empty array and
    changes nothing, no credential counts as usable, and the waiting time is
    reported as 0. *)
Theorem pool_of_blocked_credentials_stays_dead :
  forall (w : World) (calls : list (Z * PoolCall)),
    Forall (fun k => isBlocked k = true) (keys (manager w)) ->
    let w1 := perform_all calls w in
    getCurrentKey w1 =
      (Throws (TypeError "Reduce of empty array with no initial value"), w1) /\
    hasAvailableKey w1 = (Returns false, w1) /\
    getAvailableKeyCount w1 = (Returns 0%nat, w1) /\
    getSecondsUntilNextAvailable w1 = (Returns 0, w1).
Proof.
  intros w calls Hall w1.
  assert (forall k, k ∈ keys (manager w1) -> isBlocked k = true) as Hblocked.
  { intros k1 Hk1. apply list_elem_of_lookup in Hk1 as (i & Hi).
    assert (i < length (keys (manager w)))%nat as Hlt.
    { apply lookup_lt_Some in Hi. unfold w1 in Hi.
      by rewrite length_keys_perform_all in Hi. }
    destruct (lookup_lt_is_Some_2 _ _ Hlt) as (k & Hk).
    destruct (blocked_kept_perform_all calls w i k Hk) as (k' & Hk' & Hb' & _).
    { rewrite Forall_forall in Hall. apply Hall. by eapply list_elem_of_lookup_2. }
    fold w1 in Hk'. congruence. }
  assert (forall k, k ∈ keys (manager w1) -> available (clock w1) k = false) as Hnone.
  { intros k Hk. unfold available. by rewrite (Hblocked k Hk). }
  assert (List.filter (available (clock w1)) (keys (manager w1)) = []) as Hfilter.
  { destruct (List.filter _ _) as [|k rest] eqn:Hf; [done |].
    assert (k ∈ List.filter (available (clock w1)) (keys (manager w1))) as Hin.
    { rewrite Hf. apply list_elem_of_here. }
    apply elem_of_List_filter in Hin as (Hin & Hav).
    rewrite (Hnone k Hin) in Hav. discriminate. }
  split; [| split; [| split]].
  - destruct (proj2 (getCurrentKey_throws w1) (or_intror Hblocked)) as (e & w2 & Hthrow).
    rewrite getCurrentKey_eq in *.
    destruct (Array_find _ _) as [[i a]|]; [discriminate |].
    destruct (Array_reduce _ _) as [[i a]|]; [discriminate | done].
  - rewrite hasAvailableKey_eq, existsb_filter_length. by rewrite Hfilter.
  - unfold getAvailableKeyCount, bind, Date_now, this_keys, gets, ret. simpl.
    by rewrite Hfilter.
  - destruct (seconds_until_cases w1) as [(_ & ->) | (k & Hk & Hc & _)]; [done |].
    apply cooling_spec in Hc as (Hb & _). rewrite (Hblocked k Hk) in Hb. discriminate.
Qed.

(** The scan of [rotateToNextKey] with what it has passed over: it stops at
    a usable credential after positions that are not usable, or no position
    it visits is usable. *)
Lemma rotate_loop_scan remaining i start w :
  (remaining = 0%nat \/ keys (manager w) <> []) ->
  (exists d k,
     (d < remaining)%nat /\
     keys (manager w) !! ((start + (i + d)) mod length (keys (manager w)))%nat = Some k /\
     available (clock w) k = true /\
     (forall d' k', (d' < d)%nat ->
        keys (manager w) !! ((start + (i + d')) mod length (keys (manager w)))%nat = Some k' ->
        available (clock w) k' = false) /\
     rotate_loop remaining i start (clock w) w =
     (Returns (key k), rotated ((start + (i + d)) mod length (keys (manager w)))%nat w)) \/
  ((forall d k, (d < remaining)%nat ->
      keys (manager w) !! ((start + (i + d)) mod length (keys (manager w)))%nat = Some k ->
      available (clock w) k = false) /\
   rotate_loop remaining i start (clock w) w = rotate_fallback w).
Proof.
  revert i. induction remaining as [|remaining IH]; intros i Hne.
  - right. split; [intros; lia | apply rotate_loop_O].
  - destruct Hne as [? | Hne]; [lia |].
    destruct (lookup_mod_length (keys (manager w)) (start + i) Hne) as (k & Hk).
    rewrite (rotate_loop_S _ _ _ _ k) by done.
    destruct (available (clock w) k) eqn:Hav.
    + left. exists O, k. rewrite Nat.add_0_r. split_and!; auto; [lia |].
      intros d' k' Hd'. lia.
    + destruct (IH (S i)) as [(d & k' & Hd & Hk' & Hav' & Hbefore & Heq) | (Hnone & Heq)];
        [by right | |].
      * left. exists (S d), k'.
        replace (i + S d)%nat with (S i + d)%nat by lia.
        split_and!; auto; [lia |].
        intros [|d'] k'' Hd' Hk''.
        -- rewrite Nat.add_0_r in Hk''. congruence.
        -- apply (Hbefore d' k''); [lia |].
           by replace (S i + d')%nat with (i + S d')%nat by lia.
      * right. split; [| done]. intros [|d] k' Hd Hk'.
        -- rewrite Nat.add_0_r in Hk'. congruence.
        -- apply (Hnone d k'); [lia |].
           by replace (S i + d)%nat with (i + S d)%nat by lia.
Qed.

(** X9. [rotateToNextKey] keeps the credential that is current only when no
    other credential is usable: if the current index names a credential and
    is the same after the call, then every credential at another position is
    blocked or in cooldown. *)
Theorem rotateToNextKey_stays_only_when_alone :
  forall (w w' : World) (secret : string),
    current_in_range w ->
    rotateToNextKey w = (Returns secret, w') ->
    currentIndex (manager w') = currentIndex (manager w) ->
    forall j k,
      j <> currentIndex (manager w) ->
      keys (manager w) !! j = Some k ->
      available (clock w) k = false.
Proof.
  intros w w' secret Hcur Hrun Hsame j k Hj Hk.
  unfold current_in_range in Hcur.
  set (n := length (keys (manager w))) in *.
  set (start := currentIndex (manager w)) in *.
  assert (j < n)%nat as Hjn by (by apply lookup_lt_Some in Hk).
  destruct (cycle_covers n start j Hjn) as (d & Hd & Hmod).
  rewrite rotateToNextKey_eq in Hrun. fold n start in Hrun.
  destruct (rotate_loop_scan n 1 start w)
    as [(d0 & k0 & Hd0 & Hk0 & Hav0 & Hbefore & Heq) | (Hnone & _)].
  - right. intros E. unfold n in Hcur. rewrite E in Hcur. simpl in Hcur. lia.
  - rewrite Heq in Hrun. injection Hrun as _ <-.
    assert (((start + (1 + d0)) mod n)%nat = start) as Hback by exact Hsame.
    assert (d0 = (n - 1)%nat) as ->.
    { destruct (decide (d0 = n - 1)%nat) as [| Hne]; [done |].
      destruct (decide (start + (1 + d0) < n)%nat).
      - rewrite Nat.mod_small in Hback by lia. lia.
      - replace (start + (1 + d0))%nat
          with ((start + (1 + d0) - n) + 1 * n)%nat in Hback by lia.
        rewrite Nat.Div0.mod_add, Nat.mod_small in Hback by lia. lia. }
    assert (d <> (n - 1)%nat) as Hdn.
    { intros ->. rewrite Hmod in Hback. done. }
    apply (Hbefore d k); [lia |]. fold n. by rewrite Hmod.
  - apply (Hnone d k); [done |]. fold n. by rewrite Hmod.
Qed.

End pool_blocking.

(** ** The pool: error counts are never read *)

Section pool_error_counts.

Import ApiKeyManager.

Variable g : KeyStatus -> KeyStatus.
Hypothesis g_key : forall k, key (g k) = key k.
Hypothesis g_availableAt : forall k, availableAt (g k) = availableAt k.
Hypothesis g_isBlocked : forall k, isBlocked (g k) = isBlocked k.

Lemma available_map now k : available now (g k) = available now k.
Proof. unfold available. by rewrite g_availableAt, g_isBlocked. Qed.

Lemma cooling_map now k : cooling now (g k) = cooling now k.
Proof. unfold cooling. by rewrite g_availableAt, g_isBlocked. Qed.

Lemma Array_find_map now l :
  Array_find (available now) (map g l) =
  (prod_map id g <$> Array_find (available now) l).
Proof.
  induction l as [|k l IH]; simpl; [done |].
  rewrite available_map. destruct (available now k); [done |].
  rewrite IH. by destruct (Array_find (available now) l) as [[i a]|].
Qed.

Lemma indexed_map l : indexed (map g l) = map (prod_map id g) (indexed l).
Proof.
  unfold indexed. change (map g l) with (g <$> l). rewrite imap_fmap.
  change (map (prod_map id g) ?x) with (prod_map id g <$> x). by rewrite fmap_imap.
Qed.

Lemma filter_map_swap (P : nat * KeyStatus -> bool) l :
  (forall x, P (prod_map id g x) = P x) ->
  List.filter P (map (prod_map id g) l) = map (prod_map id g) (List.filter P l).
Proof.
  intros HP. induction l as [|x l IH]; simpl; [done |].
  rewrite HP. destruct (P x); simpl; by rewrite IH.
Qed.

Lemma sooner_map a b :
  sooner (prod_map id g a) (prod_map id g b) = prod_map id g (sooner a b).
Proof.
  unfold sooner. destruct a as [i a], b as [j b]. simpl.
  rewrite !g_availableAt. by destruct (_ <? _).
Qed.

Lemma Array_reduce_sooner_map l :
  Array_reduce sooner (map (prod_map id g) l) =
  (prod_map id g <$> Array_reduce sooner l).
Proof.
  destruct l as [|a l]; simpl; [done |]. f_equal.
  revert a. induction l as [|b l IH]; intros a; simpl; [done |].
  by rewrite sooner_map, IH.
Qed.

Lemma getCurrentKey_map w :
  getCurrentKey (with_keys (map g (keys (manager w))) w) =
  (fst (getCurrentKey w), with_keys (map g (keys (manager w))) (snd (getCurrentKey w))).
Proof.
  rewrite !getCurrentKey_eq. simpl.
  rewrite Array_find_map.
  destruct (Array_find _ (keys (manager w))) as [[i k]|]; simpl.
  - by rewrite g_key.
  - rewrite indexed_map, filter_map_swap, Array_reduce_sooner_map.
    + destruct (Array_reduce _ _) as [[i k]|]; simpl; [by rewrite g_key | done].
    + intros [i k]. simpl. by rewrite g_isBlocked.
Qed.

Lemma getSecondsUntilNextAvailable_map w :
  fst (getSecondsUntilNextAvailable (with_keys (map g (keys (manager w))) w)) =
  fst (getSecondsUntilNextAvailable w).
Proof.
  rewrite !getSecondsUntilNextAvailable_eq. simpl.
  rewrite indexed_map, filter_map_swap, Array_reduce_sooner_map.
  - destruct (Array_reduce _ _) as [[i k]|]; simpl; [by rewrite g_availableAt | done].
  - intros [i k]. simpl. by rewrite cooling_map.
Qed.

Lemma hasAvailableKey_map w :
  fst (hasAvailableKey (with_keys (map g (keys (manager w))) w)) =
  fst (hasAvailableKey w).
Proof.
  rewrite !hasAvailableKey_eq. simpl.
  assert (forall l, existsb (available (clock w)) (map g l) =
                    existsb (available (clock w)) l) as ->; [| done].
  induction l as [|k l IH]; simpl; [done |].
  by rewrite available_map, IH.
Qed.

End pool_error_counts.

Section pool_reset.

Import ApiKeyManager.

(** X10. [resetErrorCounts] sets every error count to 0 and leaves the
    secret, the cooldown and the blocked flag of every credential as they
    were; and nothing that selects credentials reads the error count:
    [getCurrentKey] gives the same result and the same current index after
    the reset as before it, and so do [hasAvailableKey] and
    [getSecondsUntilNextAvailable]. *)
Theorem resetErrorCounts_does_not_change_selection :
  forall w : World,
  exists w',
    resetErrorCounts w = (Returns tt, w') /\
    length (keys (manager w')) = length (keys (manager w)) /\
    (forall i k', keys (manager w') !! i = Some k' ->
       errorCount k' = 0 /\
       exists k, keys (manager w) !! i = Some k /\ key k' = key k /\
                 availableAt k' = availableAt k /\ isBlocked k' = isBlocked k) /\
    fst (getCurrentKey w') = fst (getCurrentKey w) /\
    currentIndex (manager (snd (getCurrentKey w'))) =
      currentIndex (manager (snd (getCurrentKey w))) /\
    fst (hasAvailableKey w') = fst (hasAvailableKey w) /\
    fst (getSecondsUntilNextAvailable w') = fst (getSecondsUntilNextAvailable w).
Proof.
  intros w.
  exists (with_line LogResetErrorCounts (with_keys (map reset_count (keys (manager w))) w)).
  split; [done |]. split; [simpl; by rewrite length_map |]. split.
  - intros i k' Hi. simpl in Hi. change (map ?f ?l) with (f <$> l) in Hi.
    rewrite list_lookup_fmap in Hi.
    destruct (keys (manager w) !! i) as [k|]; [| discriminate].
    injection Hi as <-. split; [done |]. by exists k.
  - set (w0 := with_keys (map reset_count (keys (manager w))) w).
    assert (forall l, getCurrentKey (with_line l w0) =
                      (fst (getCurrentKey w0), with_line l (snd (getCurrentKey w0)))) as Hline.
    { intros l. rewrite !getCurrentKey_eq. simpl.
      destruct (Array_find _ _) as [[i k]|]; [done |].
      by destruct (Array_reduce _ _) as [[i k]|]. }
    split_and!.
    + rewrite Hline. simpl. unfold w0. by rewrite (getCurrentKey_map reset_count).
    + rewrite Hline. simpl. unfold w0. by rewrite (getCurrentKey_map reset_count).
    + transitivity (fst (hasAvailableKey w0)); [by rewrite !hasAvailableKey_eq |].
      by apply (hasAvailableKey_map reset_count).
    + transitivity (fst (getSecondsUntilNextAvailable w0)).
      * rewrite !getSecondsUntilNextAvailable_eq. simpl. by destruct (Array_reduce _ _).
      * by apply (getSecondsUntilNextAvailable_map reset_count).
Qed.

End pool_reset.

(** ** The hook that builds the pool *)

Section hook.

Lemma trimStart_head s :
  trimStart s = "" \/ exists c r, trimStart s = String c r /\ is_whitespace c = false.
Proof.
  induction s as [|c s IH]; simpl; [by left |].
  destruct (is_whitespace c) eqn:Hc; [done |]. right. eauto.
Qed.

Lemma trimEnd_head c s :
  is_whitespace c = false -> exists r, trimEnd (String c s) = String c r.
Proof. intros Hc. simpl. rewrite Hc. destruct (trimEnd s); eauto. Qed.

Lemma trimEnd_idempotent s : trimEnd (trimEnd s) = trimEnd s.
Proof.
  induction s as [|a s IH]; simpl; [done |].
  destruct (trimEnd s) as [|b r] eqn:Hr.
  - destruct (is_whitespace a) eqn:Ha; simpl; [done | by rewrite Ha].
  - change (trimEnd (String a (String b r))) with
      (match trimEnd (String b r) with
       | EmptyString => if is_whitespace a then EmptyString else String a EmptyString
       | rest => String a rest
       end).
    by rewrite IH.
Qed.

Lemma trim_idempotent s : trim (trim s) = trim s.
Proof.
  unfold trim. destruct (trimStart_head s) as [-> | (c & r & -> & Hc)]; [done |].
  destruct (trimEnd_head c r Hc) as (r' & Hr').
  assert (trimStart (trimEnd (String c r)) = trimEnd (String c r)) as ->.
  { rewrite Hr'. simpl. by rewrite Hc. }
  apply trimEnd_idempotent.
Qed.

Lemma includes_trimStart c s : includes c s = false -> includes c (trimStart s) = false.
Proof.
  induction s as [|a s IH]; simpl; [done |]. intros H.
  apply orb_false_iff in H as (Ha & Hs).
  destruct (is_whitespace a); [by apply IH |]. simpl. by rewrite Ha, Hs.
Qed.

Lemma includes_trimEnd c s : includes c s = false -> includes c (trimEnd s) = false.
Proof.
  induction s as [|a s IH]; simpl; [done |]. intros H.
  apply orb_false_iff in H as (Ha & Hs). specialize (IH Hs).
  destruct (trimEnd s) as [|b r].
  - destruct (is_whitespace a); [done |]. simpl. by rewrite Ha.
  - simpl in *. by rewrite Ha, IH.
Qed.

Lemma includes_trim c s : includes c s = false -> includes c (trim s) = false.
Proof. intros H. by apply includes_trimEnd, includes_trimStart. Qed.

Lemma split_on_pieces sep s : Forall (fun p => includes sep p = false) (split_on sep s).
Proof.
  induction s as [|c s IH]; simpl; [by repeat constructor |].
  destruct (Ascii.eqb c sep) eqn:Hc; [by constructor |].
  destruct (split_on sep s) as [|piece pieces].
  - repeat constructor. simpl. by rewrite Hc.
  - inversion IH as [|? ? Hpiece Hpieces]; subst. constructor; [| done].
    simpl. by rewrite Hc, Hpiece.
Qed.

Lemma split_on_whole sep s : includes sep s = false -> split_on sep s = [s].
Proof.
  induction s as [|c s IH]; simpl; [done |]. intros H.
  apply orb_false_iff in H as (Hc & Hs). by rewrite Hc, IH.
Qed.

Lemma split_on_app sep s t :
  includes sep s = false ->
  split_on sep (s ++ String sep t) = s :: split_on sep t.
Proof.
  induction s as [|c s IH]; simpl.
  - intros _. by rewrite Ascii.eqb_refl.
  - intros H. apply orb_false_iff in H as (Hc & Hs). by rewrite Hc, IH.
Qed.

Lemma split_on_concat ks :
  ks <> [] ->
  Forall (fun k => includes "," k = false) ks ->
  split_on "," (String.concat "," ks) = ks.
Proof.
  induction ks as [|k ks IH]; [done |]. intros _ Hall.
  inversion Hall as [|? ? Hk Hks]; subst.
  destruct ks as [|k' ks].
  - by apply split_on_whole.
  - change (String.concat "," (k :: k' :: ks))
      with (k ++ String "," (String.concat "," (k' :: ks))).
    rewrite split_on_app by done. f_equal. by apply IH.
Qed.

Lemma configured_keys_clean API_KEY GEMINI_API_KEY :
  Forall clean_key (configured_keys API_KEY GEMINI_API_KEY).
Proof.
  unfold configured_keys. apply Forall_forall. intros k Hk.
  apply elem_of_List_filter in Hk as (Hk & Hlen).
  apply list_elem_of_In, in_map_iff in Hk as (p & <- & Hp).
  pose proof (split_on_pieces "," (default "" (js_or (js_or API_KEY GEMINI_API_KEY) (Some ""))))
    as Hpieces.
  rewrite Forall_forall in Hpieces. apply list_elem_of_In, Hpieces in Hp.
  split_and!.
  - intros E. rewrite E in Hlen. discriminate.
  - by apply includes_trim.
  - apply trim_idempotent.
Qed.

(** X11. The pool that the hook builds is never empty and starts at its
    first credential. Its keys are the comma-separated pieces of the
    configured string, trimmed, without the empty ones: none is empty, none
    holds a comma or has white space around it. When no piece is left the
    pool holds the empty string as its only key. An [API_KEY] that is not
    the empty string hides [GEMINI_API_KEY], also when no piece of it is
    left. *)
Theorem useApiKeyManager_builds_a_clean_pool :
  forall API_KEY GEMINI_API_KEY : option string,
    let apiKeys := configured_keys API_KEY GEMINI_API_KEY in
    let m := useApiKeyManager API_KEY GEMINI_API_KEY in
    Forall clean_key apiKeys /\
    (key <$> keys m) = (if decide (apiKeys = []) then [""] else apiKeys) /\
    keys m <> [] /\
    currentIndex m = 0%nat /\
    Forall (fun k => availableAt k = 0 /\ isBlocked k = false /\ errorCount k = 0) (keys m) /\
    (forall s other, API_KEY = Some s -> s <> "" ->
       useApiKeyManager API_KEY other = m).
Proof.
  intros API_KEY GEMINI_API_KEY apiKeys m.
  split; [apply configured_keys_clean |].
  assert (forall l, (key <$> keys (ApiKeyManager.constructor l)) = l) as Hkeys.
  { intros l. simpl. change (map ?f ?l) with (f <$> l).
    rewrite <- list_fmap_compose. by rewrite list_fmap_id. }
  assert (forall l, Forall (fun k => availableAt k = 0 /\ isBlocked k = false /\
                                     errorCount k = 0)
                           (keys (ApiKeyManager.constructor l))) as Hfresh.
  { intros l. apply Forall_forall. intros k Hk. simpl in Hk.
    by apply list_elem_of_In, in_map_iff in Hk as (a & <- & _). }
  unfold m, useApiKeyManager. fold apiKeys.
  split_and!.
  - destruct apiKeys as [|a l]; [done |]. rewrite Hkeys. by destruct (decide _).
  - by destruct apiKeys.
  - by destruct apiKeys.
  - destruct apiKeys; apply Hfresh.
  - intros s other -> Hs. unfold apiKeys, configured_keys.
    destruct s as [|c s]; [done |]. done.
Qed.

(** X12. Configuring a list of keys as one string, the keys separated by
    commas, gives a pool with exactly these keys in this order, when the
    list is not empty and every key is not empty, holds no comma and has no
    white space around it. *)
Theorem configured_keys_round_trip :
  forall (ks : list string) (GEMINI_API_KEY : option string),
    ks <> [] ->
    Forall clean_key ks ->
    configured_keys (Some (String.concat "," ks)) GEMINI_API_KEY = ks /\
    (key <$> keys (useApiKeyManager (Some (String.concat "," ks)) GEMINI_API_KEY)) = ks.
Proof.
  intros ks other Hne Hclean.
  assert (configured_keys (Some (String.concat "," ks)) other = ks) as Hks.
  { unfold configured_keys.
    assert (js_or (js_or (Some (String.concat "," ks)) other) (Some "")
            = Some (String.concat "," ks)) as ->.
    { destruct ks as [|k ks]; [done |].
      inversion Hclean as [|? ? (Hk & _) _]; subst.
      destruct k as [|c k]; [done |]. by destruct ks. }
    simpl. rewrite split_on_concat; [| done |].
    - clear Hne. induction Hclean as [|k ks (Hk & _ & Htrim) _ IH]; simpl; [done |].
      rewrite Htrim. destruct k as [|c k]; [done |]. simpl. by rewrite IH.
    - eapply Forall_impl; [done |]. by intros k (_ & H & _). }
  split; [done |]. unfold useApiKeyManager. rewrite Hks.
  destruct ks as [|k ks]; [done |]. simpl. f_equal.
  change (map ?f ?l) with (f <$> l). rewrite <- list_fmap_compose. by rewrite list_fmap_id.
Qed.

End hook.

(** ** The classifier of failures *)

Section classifier.

Context `{host : Host}.

Lemma is_number_true n x : is_number n x = true -> x = Some (JNumber n).
Proof.
  destruct x as [[| | m | | |]|]; simpl; try discriminate.
  intros H. apply Z.eqb_eq in H. by subst.
Qed.

Lemma find_RetryInfo_found details d :
  find_RetryInfo details = Some (Some d) ->
  d ∈ details /\ member "@type" d = Some (JString RetryInfo_type) /\
  exists members, d = JObject members.
Proof.
  induction details as [|x details IH]; simpl; [discriminate |].
  assert (find_RetryInfo details = Some (Some d) ->
          d ∈ x :: details /\ member "@type" d = Some (JString RetryInfo_type) /\
          exists members, d = JObject members) as Hrest.
  { intros H. destruct (IH H) as (Hin & Htype). split; [by apply list_elem_of_further | done]. }
  destruct x as [| b | m | s | items | members]; [discriminate | try done ..].
  destruct (member "@type" (JObject members)) as [[| | | t | |]|] eqn:Htype; try done.
  destruct (String.eqb t RetryInfo_type) eqn:Ht; [| done].
  intros [= <-]. apply String.eqb_eq in Ht as ->.
  split; [apply list_elem_of_here |]. split; [done | eauto].
Qed.

Lemma parse_errorJson_cases errorJson message info :
  parse_errorJson errorJson message = Some info ->
  (isRateLimit info = false /\ retryAfterSeconds info = Int 0) \/
  (isRateLimit info = true /\
   errorMsg info = JString "Rate limit exceeded" /\
   exists details d delay,
     optional_member "code" (member "error" errorJson) = Some (JNumber 429) /\
     optional_member "details" (member "error" errorJson) = Some (JArray details) /\
     d ∈ details /\ member "@type" d = Some (JString RetryInfo_type) /\
     member "retryDelay" d = Some (JString delay) /\ delay <> "" /\
     retryAfterSeconds info = parseInt (replace_first "s" delay)).
Proof.
  intros H.
  assert (errorJson <> JNull) as Hnull by (intros ->; discriminate).
  unfold parse_errorJson in H.
  set (error := member "error" errorJson) in *.
  set (otherwise := Some {| isRateLimit := false; retryAfterSeconds := Int 0;
                            errorMsg := _ |}) in H.
  assert (otherwise = Some info ->
          isRateLimit info = false /\ retryAfterSeconds info = Int 0) as Hother.
  { by intros [= <-]. }
  destruct (is_number 429 (optional_member "code" error)) eqn:Hcode.
  2: { left. apply Hother. by destruct errorJson. }
  apply is_number_true in Hcode.
  assert (match
            match optional_member "details" error with
            | None | Some JNull => Some None
            | Some (JArray details) => find_RetryInfo details
            | Some _ => None
            end
          with
          | None => None
          | Some found =>
              let retryDelay := optional_member "retryDelay" found in
              if truthy retryDelay then
                match retryDelay with
                | Some (JString d) =>
                    Some {| isRateLimit := true;
                            retryAfterSeconds := parseInt (replace_first "s" d);
                            errorMsg := JString "Rate limit exceeded" |}
                | _ => None
                end
              else otherwise
          end = Some info) as Hbody by (by destruct errorJson).
  clear H.
  destruct (optional_member "details" error) as [[| b | m | s | details | members]|]
    eqn:Hdetails; try discriminate; try (left; by apply Hother).
  destruct (find_RetryInfo details) as [[d|]|] eqn:Hfind;
    [| left; by apply Hother | discriminate].
  apply find_RetryInfo_found in Hfind as (Hin & Htype & members & ->).
  cbv zeta in Hbody.
  change (optional_member "retryDelay" (Some (JObject members)))
    with (member "retryDelay" (JObject members)) in Hbody.
  destruct (member "retryDelay" (JObject members)) as [[| b | m | delay | items | ms]|]
    eqn:Hdelay; simpl in Hbody; try discriminate; try (left; by apply Hother).
  - destruct b; [discriminate | left; by apply Hother].
  - destruct (m =? 0); [left; by apply Hother | discriminate].
  - destruct (String.eqb delay "") eqn:Hempty; simpl in Hbody; [left; by apply Hother |].
    injection Hbody as <-. right. split; [done |]. split; [done |].
    exists details, (JObject members), delay. split_and!; try done.
    intros ->. discriminate.
Qed.

(** X13. [parseRateLimitError] reports a rate limit only for an [Error]
    whose message is JSON with [error.code] 429 and, among [error.details],
    an entry of type [RetryInfo] whose [retryDelay] is a string that is not
    empty; the seconds are then what [parseInt] reads in that string with its
    first [s] removed, and the message is "Rate limit exceeded". In every
    other case the seconds are 0. *)
Theorem rate_limit_only_from_429_with_retry_delay :
  forall error : Thrown,
    let info := parseRateLimitError error in
    (isRateLimit info = false -> retryAfterSeconds info = Int 0) /\
    (isRateLimit info = true ->
     errorMsg info = JString "Rate limit exceeded" /\
     exists name message errorJson details d delay,
       error = JsError name message /\
       JSON_parse message = Some errorJson /\
       optional_member "code" (member "error" errorJson) = Some (JNumber 429) /\
       optional_member "details" (member "error" errorJson) = Some (JArray details) /\
       d ∈ details /\ member "@type" d = Some (JString RetryInfo_type) /\
       member "retryDelay" d = Some (JString delay) /\ delay <> "" /\
       retryAfterSeconds info = parseInt (replace_first "s" delay)).
Proof.
  intros error info. subst info.
  destruct error as [name message | text]; simpl; [| split; [done | discriminate]].
  destruct (JSON_parse message) as [errorJson|] eqn:Hparse; simpl;
    [| split; [done | discriminate]].
  destruct (parse_errorJson errorJson message) as [info|] eqn:Hinfo; simpl;
    [| split; [done | discriminate]].
  destruct (parse_errorJson_cases errorJson message info Hinfo)
    as [(Hno & Hzero) | (Hyes & Hmsg & details & d & delay & H)].
  - split; [done |]. congruence.
  - split; [congruence |]. intros _. split; [done |].
    exists name, message, errorJson, details, d, delay. tauto.
Qed.

End classifier.

(** ** The retry delay, from the service's text to a number *)

Section retry_delay.

Context `{host : Host}.

Lemma append_assoc (a b c : string) : (a +:+ b) +:+ c = a +:+ (b +:+ c).
Proof.
  induction a as [|x a IH]; [done |].
  change (String x ((a +:+ b) +:+ c) = String x (a +:+ (b +:+ c))). by rewrite IH.
Qed.

Lemma digit_of_pretty_N_char d :
  (d < 10)%N -> digit_of 10 (pretty_N_char d) = Some (Z.of_N d).
Proof.
  intros Hd.
  assert (d = 0 \/ d = 1 \/ d = 2 \/ d = 3 \/ d = 4 \/ d = 5 \/ d = 6 \/ d = 7 \/
          d = 8 \/ d = 9)%N as H by lia.
  destruct_or!; subst; reflexivity.
Qed.

Lemma pretty_N_char_not_s d : Ascii.eqb (pretty_N_char d) "s" = false.
Proof. unfold pretty_N_char. by repeat case_match. Qed.

Lemma pretty_N_go_app x t : pretty_N_go x t = pretty_N_go x "" +:+ t.
Proof.
  revert t. induction (N.lt_wf_0 x) as [x _ IH]; intros t.
  assert (x = 0 \/ 0 < x)%N as [-> | Hx] by lia; [by rewrite !pretty_N_go_0 |].
  rewrite (pretty_N_go_step x t), (pretty_N_go_step x "") by done.
  rewrite (IH (x `div` 10)%N (N.div_lt x 10 Hx eq_refl) (String _ t)).
  rewrite (IH (x `div` 10)%N (N.div_lt x 10 Hx eq_refl) (String _ "")).
  by rewrite append_assoc.
Qed.

Lemma replace_first_pretty_N_go x t :
  replace_first "s" (pretty_N_go x t) = pretty_N_go x (replace_first "s" t).
Proof.
  revert t. induction (N.lt_wf_0 x) as [x _ IH]; intros t.
  assert (x = 0 \/ 0 < x)%N as [-> | Hx] by lia; [by rewrite !pretty_N_go_0 |].
  rewrite (pretty_N_go_step x t), (pretty_N_go_step x (replace_first "s" t)) by done.
  rewrite (IH (x `div` 10)%N (N.div_lt x 10 Hx eq_refl)). simpl.
  by rewrite pretty_N_char_not_s.
Qed.

Lemma parse_digits_pretty_N_go x s :
  (0 < x)%N ->
  parse_digits 10 (pretty_N_go x s) None = parse_digits 10 s (Some (Z.of_N x)).
Proof.
  revert s. induction (N.lt_wf_0 x) as [x _ IH]; intros s Hx.
  rewrite pretty_N_go_step by done.
  pose proof (N.div_mod x 10 ltac:(done)) as Hdm.
  pose proof (N.mod_lt x 10 ltac:(done)) as Hmod.
  assert (x `div` 10 = 0 \/ 0 < x `div` 10)%N as [H0 | Hpos] by lia.
  - rewrite H0, pretty_N_go_0. simpl. rewrite digit_of_pretty_N_char by done.
    f_equal. f_equal. lia.
  - rewrite (IH (x `div` 10)%N (N.div_lt x 10 Hx eq_refl)) by done. simpl.
    rewrite digit_of_pretty_N_char by done. f_equal. f_equal. lia.
Qed.

Lemma pretty_N_go_head x s :
  (0 < x)%N ->
  exists c r, pretty_N_go x s = String c r /\
              (49 <=? nat_of_ascii c)%nat && (nat_of_ascii c <=? 57)%nat = true.
Proof.
  revert s. induction (N.lt_wf_0 x) as [x _ IH]; intros s Hx.
  rewrite pretty_N_go_step by done.
  pose proof (N.div_mod x 10 ltac:(done)) as Hdm.
  pose proof (N.mod_lt x 10 ltac:(done)) as Hmod.
  assert (x `div` 10 = 0 \/ 0 < x `div` 10)%N as [H0 | Hpos] by lia.
  - rewrite H0, pretty_N_go_0. eexists. eexists. split; [done |].
    assert (x `mod` 10 = 1 \/ x `mod` 10 = 2 \/ x `mod` 10 = 3 \/ x `mod` 10 = 4 \/
            x `mod` 10 = 5 \/ x `mod` 10 = 6 \/ x `mod` 10 = 7 \/ x `mod` 10 = 8 \/
            x `mod` 10 = 9)%N as H by lia.
    destruct_or!; rewrite H; reflexivity.
  - apply IH; [by apply N.div_lt | done].
Qed.

Lemma to_double_safe z : Z.abs z < 9007199254740992 -> to_double z = z.
Proof.
  intros Hz. unfold to_double.
  assert (Z.log2 (Z.abs z) - 52 <= 0) as He.
  { destruct (decide (Z.abs z = 0)) as [-> | Hne]; [done |].
    assert (Z.log2 (Z.abs z) < 53); [| lia].
    apply Z.log2_lt_pow2; lia. }
  apply Z.leb_le in He. by rewrite He.
Qed.

Lemma parseInt_digits c r :
  (49 <=? nat_of_ascii c)%nat && (nat_of_ascii c <=? 57)%nat = true ->
  parseInt (String c r) =
  match parse_digits 10 (String c r) None with
  | Some n => Int (to_double n)
  | None => NaN
  end.
Proof.
  destruct c as [[] [] [] [] [] [] [] []]; intros H; try discriminate H; reflexivity.
Qed.

Lemma parseInt_pretty (n : N) :
  Z.of_N n < 9007199254740992 ->
  parseInt (replace_first "s" (pretty n +:+ "s")) = Int (Z.of_N n).
Proof.
  intros Hsafe.
  unfold pretty, pretty_N. destruct (decide (n = 0)%N) as [-> | Hn]; [reflexivity |].
  assert (0 < n)%N as Hpos by lia.
  rewrite <- pretty_N_go_app, replace_first_pretty_N_go. simpl.
  destruct (pretty_N_go_head n "" Hpos) as (c & r & Heq & Hc).
  rewrite Heq, (parseInt_digits c r Hc), <- Heq.
  rewrite parse_digits_pretty_N_go by done. simpl.
  rewrite to_double_safe; [done | lia].
Qed.

Lemma parse_too_many_requests delay message :
  delay <> "" ->
  parse_errorJson (Samples.too_many_requests delay) message =
  Some {| isRateLimit := true;
          retryAfterSeconds := parseInt (replace_first "s" delay);
          errorMsg := JString "Rate limit exceeded" |}.
Proof. intros Hd. destruct delay as [|c delay]; [done |]. reflexivity. Qed.

(** X14. A 429 answer of the service whose [RetryInfo] gives the delay as a
    whole number [n] of seconds below 2^53, in decimal and followed by [s],
    is classified as a rate limit of [n] seconds. *)
Theorem retry_delay_in_seconds_is_read_back :
  forall (name message : string) (n : N),
    Z.of_N n < 9007199254740992 ->
    JSON_parse message = Some (Samples.too_many_requests (pretty n +:+ "s")) ->
    parseRateLimitError (JsError name message) =
      {| isRateLimit := true; retryAfterSeconds := Int (Z.of_N n);
         errorMsg := JString "Rate limit exceeded" |}.
Proof.
  intros name message n Hsafe Hparse.
  unfold parseRateLimitError. rewrite Hparse, parse_too_many_requests.
  - simpl. by rewrite parseInt_pretty.
  - by destruct (pretty n).
Qed.

End retry_delay.

(** ** The WAV container *)

Section wav.

(** A write at the end of what has been written so far, into a buffer whose
    rest is still zero. *)
Lemma write_next offset bs view done m :
  view = (done ++ replicate (length bs + m) 0)%list ->
  offset = length done ->
  write_at offset bs view = Some ((done ++ bs) ++ replicate m 0)%list.
Proof.
  intros -> ->. unfold write_at.
  assert ((length done + length bs <=? length (done ++ replicate (length bs + m) 0%Z))%nat
          = true) as ->.
  { apply Nat.leb_le. rewrite length_app, length_replicate. lia. }
  rewrite take_app_length, drop_app_add', drop_replicate by done.
  replace (length bs + m - length bs)%nat with m by lia.
  by rewrite <- app_assoc.
Qed.

Lemma write_last offset bs view done :
  view = (done ++ replicate (length bs) 0)%list ->
  offset = length done ->
  write_at offset bs view = Some (done ++ bs)%list.
Proof.
  intros -> ->. rewrite (write_next _ bs _ done 0%nat); [| by rewrite Nat.add_0_r | done].
  simpl. by rewrite app_nil_r.
Qed.

Lemma writeString_next s offset view done m :
  view = (done ++ replicate (String.length s + m) 0)%list ->
  offset = length done ->
  writeString view offset s = Some ((done ++ char_codes s) ++ replicate m 0)%list.
Proof.
  revert offset view done. induction s as [|c s IH]; intros offset view done -> ->.
  - simpl. unfold char_codes. simpl. by rewrite app_nil_r.
  - change (writeString ?v ?o (String c s))
      with (match setUint8 o (Z.of_nat (nat_of_ascii c)) v with
            | Some view' => writeString view' (S o) s
            | None => None
            end).
    unfold setUint8.
    rewrite (write_next _ _ _ done (String.length s + m)) by done.
    rewrite (IH (S (length done)) _ (done ++ [Z.of_nat (nat_of_ascii c) mod 256])%list eq_refl).
    + rewrite Z.mod_small.
      * unfold char_codes. simpl. by rewrite <- (app_assoc done [_]).
      * pose proof (nat_ascii_bounded c). lia.
    + rewrite length_app. simpl. lia.
Qed.

Ltac next_string m :=
  match goal with
  | |- context [writeString (?d ++ ?z)%list ?o ?s] =>
      rewrite (writeString_next s o (d ++ z)%list d m eq_refl eq_refl);
      cbn [mbind option_bind]
  end.

Ltac next_bytes m :=
  match goal with
  | |- context [write_at ?o ?bs (?d ++ ?z)%list] =>
      rewrite (write_next o bs (d ++ z)%list d m eq_refl eq_refl);
      cbn [mbind option_bind]
  end.

(** The writes of [createWavBlob] fill the buffer from left to right, field
    after field. *)
Lemma createWavBlob_eq pcmData sampleRate numChannels bytesPerSample :
  createWavBlob pcmData sampleRate numChannels bytesPerSample =
  Some (char_codes "RIFF" ++
        le_bytes 4 ((36 + Z.of_nat (length pcmData)) mod 4294967296) ++
        char_codes "WAVE" ++ char_codes "fmt " ++
        le_bytes 4 (16 mod 4294967296) ++ le_bytes 2 (1 mod 65536) ++
        le_bytes 2 (numChannels mod 65536) ++
        le_bytes 4 (sampleRate mod 4294967296) ++
        le_bytes 4 (to_double (sampleRate * to_double (numChannels * bytesPerSample)) mod 4294967296) ++
        le_bytes 2 (to_double (numChannels * bytesPerSample) mod 65536) ++
        le_bytes 2 (to_double (bytesPerSample * 8) mod 65536) ++
        char_codes "data" ++
        le_bytes 4 (Z.of_nat (length pcmData) mod 4294967296) ++
        pcmData)%list.
Proof.
  unfold createWavBlob, setUint32, setUint16.
  set (n := length pcmData).
  set (f1 := char_codes "RIFF").
  set (f2 := le_bytes 4 ((36 + Z.of_nat n) mod 4294967296)).
  set (f3 := char_codes "WAVE").
  set (f4 := char_codes "fmt ").
  set (f5 := le_bytes 4 (16 mod 4294967296)).
  set (f6 := le_bytes 2 (1 mod 65536)).
  set (f7 := le_bytes 2 (numChannels mod 65536)).
  set (f8 := le_bytes 4 (sampleRate mod 4294967296)).
  set (f9 := le_bytes 4 (to_double (sampleRate * to_double (numChannels * bytesPerSample)) mod 4294967296)).
  set (f10 := le_bytes 2 (to_double (numChannels * bytesPerSample) mod 65536)).
  set (f11 := le_bytes 2 (to_double (bytesPerSample * 8) mod 65536)).
  set (f12 := char_codes "data").
  set (f13 := le_bytes 4 (Z.of_nat n mod 4294967296)).
  change (replicate (44 + n) 0) with ([] ++ replicate (44 + n) 0)%list.
  next_string (40 + n)%nat. next_bytes (36 + n)%nat. next_string (32 + n)%nat.
  next_string (28 + n)%nat. next_bytes (24 + n)%nat. next_bytes (22 + n)%nat.
  next_bytes (20 + n)%nat. next_bytes (16 + n)%nat. next_bytes (12 + n)%nat.
  next_bytes (10 + n)%nat. next_bytes (8 + n)%nat. next_string (4 + n)%nat.
  next_bytes n.
  match goal with
  | |- write_at ?o ?bs (?d ++ ?z)%list = _ =>
      rewrite (write_last o bs (d ++ z)%list d eq_refl eq_refl)
  end.
  by rewrite <- !app_assoc.
Qed.

Lemma le_value_le_bytes n v :
  0 <= v < 256 ^ Z.of_nat n -> le_value (le_bytes n v) = v.
Proof.
  revert v. induction n as [|n IH]; intros v Hv.
  - simpl in *. lia.
  - change (le_value (le_bytes (S n) v))
      with (v mod 256 + 256 * le_value (le_bytes n (v / 256))).
    rewrite Nat2Z.inj_succ, Z.pow_succ_r in Hv by lia.
    rewrite IH.
    + pose proof (Z.div_mod v 256 ltac:(lia)). lia.
    + split; [apply Z.div_pos; lia | apply Z.div_lt_upper_bound; lia].
Qed.

Lemma Forall_le_bytes n v : Forall (fun b => 0 <= b < 256) (le_bytes n v).
Proof.
  revert v. induction n as [|n IH]; intros v; [constructor |].
  constructor; [apply Z.mod_pos_bound; lia | apply IH].
Qed.

Lemma Forall_char_codes s : Forall (fun b => 0 <= b < 256) (char_codes s).
Proof.
  unfold char_codes. induction s as [|c s IH]; [constructor |]. simpl.
  constructor; [| done]. pose proof (nat_ascii_bounded c). lia.
Qed.

Lemma getUint_field size offset view pre field post :
  view = (pre ++ field ++ post)%list ->
  offset = length pre ->
  length field = size ->
  getUint size offset view = le_value field.
Proof.
  intros -> -> <-. unfold getUint. by rewrite drop_app_length, take_app_length.
Qed.

(** X15. [createWavBlob] never fails, whatever its arguments: its result is
    a header of 44 bytes followed by the PCM data as given. The header holds
    the tags RIFF, WAVE, fmt and data at the offsets 0, 8, 12 and 36, and
    each of its bytes is between 0 and 255. *)
Theorem createWavBlob_layout :
  forall (pcmData : list Z) (sampleRate numChannels bytesPerSample : Z),
  exists header,
    createWavBlob pcmData sampleRate numChannels bytesPerSample
      = Some (header ++ pcmData)%list /\
    length header = 44%nat /\
    take 4 header = char_codes "RIFF" /\
    take 4 (drop 8 header) = char_codes "WAVE" /\
    take 4 (drop 12 header) = char_codes "fmt " /\
    take 4 (drop 36 header) = char_codes "data" /\
    Forall (fun b => 0 <= b < 256) header.
Proof.
  intros pcmData sampleRate numChannels bytesPerSample.
  exists (char_codes "RIFF" ++
          le_bytes 4 ((36 + Z.of_nat (length pcmData)) mod 4294967296) ++
          char_codes "WAVE" ++ char_codes "fmt " ++
          le_bytes 4 (16 mod 4294967296) ++ le_bytes 2 (1 mod 65536) ++
          le_bytes 2 (numChannels mod 65536) ++
          le_bytes 4 (sampleRate mod 4294967296) ++
          le_bytes 4 (to_double (sampleRate * to_double (numChannels * bytesPerSample)) mod 4294967296) ++
          le_bytes 2 (to_double (numChannels * bytesPerSample) mod 65536) ++
          le_bytes 2 (to_double (bytesPerSample * 8) mod 65536) ++
          char_codes "data" ++
          le_bytes 4 (Z.of_nat (length pcmData) mod 4294967296))%list.
  split.
  { rewrite createWavBlob_eq. by rewrite <- !app_assoc. }
  split; [reflexivity |]. split; [reflexivity |]. split; [reflexivity |].
  split; [reflexivity |]. split; [reflexivity |].
  rewrite !Forall_app.
  split_and!; first [apply Forall_char_codes | apply Forall_le_bytes].
Qed.

(** X16. The numbers in the header read back as little-endian unsigned
    integers: the RIFF size is 36 plus the number of PCM bytes, the format
    chunk has size 16 and format 1, then come the channels, the sample rate,
    the byte rate, the block alignment, the bits per sample, and the data
    size, each modulo 2^16 or 2^32 as its field is wide. The block alignment
    is the product of channels and bytes per sample, the byte rate the
    product of the sample rate and the block alignment, the bits 8 times the
    bytes per sample, each product rounded to a double before it is stored;
    below 2^53 the products are exact. When the file is shorter than 2^32
    bytes the RIFF size is the file's length minus 8 and the data size the
    number of bytes after the header. *)
Theorem createWavBlob_header_reads_back :
  forall (pcmData : list Z) (sampleRate numChannels bytesPerSample : Z),
  exists wav,
    createWavBlob pcmData sampleRate numChannels bytesPerSample = Some wav /\
    drop 44 wav = pcmData /\
    getUint 4 4 wav = (36 + Z.of_nat (length pcmData)) mod 4294967296 /\
    getUint 4 16 wav = 16 /\
    getUint 2 20 wav = 1 /\
    getUint 2 22 wav = numChannels mod 65536 /\
    getUint 4 24 wav = sampleRate mod 4294967296 /\
    getUint 4 28 wav =
      to_double (sampleRate * to_double (numChannels * bytesPerSample)) mod 4294967296 /\
    getUint 2 32 wav = to_double (numChannels * bytesPerSample) mod 65536 /\
    getUint 2 34 wav = to_double (bytesPerSample * 8) mod 65536 /\
    getUint 4 40 wav = Z.of_nat (length pcmData) mod 4294967296 /\
    (Z.abs (numChannels * bytesPerSample) < 9007199254740992 ->
     Z.abs (sampleRate * (numChannels * bytesPerSample)) < 9007199254740992 ->
     Z.abs (bytesPerSample * 8) < 9007199254740992 ->
     getUint 4 28 wav = (sampleRate * (numChannels * bytesPerSample)) mod 4294967296 /\
     getUint 2 32 wav = (numChannels * bytesPerSample) mod 65536 /\
     getUint 2 34 wav = (bytesPerSample * 8) mod 65536) /\
    (Z.of_nat (length wav) < 4294967296 ->
     getUint 4 4 wav = Z.of_nat (length wav) - 8 /\
     getUint 4 40 wav = Z.of_nat (length (drop 44 wav))).
Proof.
  intros pcmData sampleRate numChannels bytesPerSample.
  eexists. split; [apply createWavBlob_eq |].
  set (f1 := char_codes "RIFF").
  set (f2 := le_bytes 4 ((36 + Z.of_nat (length pcmData)) mod 4294967296)).
  set (f3 := char_codes "WAVE").
  set (f4 := char_codes "fmt ").
  set (f5 := le_bytes 4 (16 mod 4294967296)).
  set (f6 := le_bytes 2 (1 mod 65536)).
  set (f7 := le_bytes 2 (numChannels mod 65536)).
  set (f8 := le_bytes 4 (sampleRate mod 4294967296)).
  set (f9 := le_bytes 4 (to_double (sampleRate * to_double (numChannels * bytesPerSample)) mod 4294967296)).
  set (f10 := le_bytes 2 (to_double (numChannels * bytesPerSample) mod 65536)).
  set (f11 := le_bytes 2 (to_double (bytesPerSample * 8) mod 65536)).
  set (f12 := char_codes "data").
  set (f13 := le_bytes 4 (Z.of_nat (length pcmData) mod 4294967296)).
  set (wav := (f1 ++ _)%list).
  assert (forall v, le_value (le_bytes 4 (v mod 4294967296)) = v mod 4294967296) as H32.
  { intros v. apply le_value_le_bytes. apply (Z.mod_pos_bound v 4294967296). lia. }
  assert (forall v, le_value (le_bytes 2 (v mod 65536)) = v mod 65536) as H16.
  { intros v. apply le_value_le_bytes. apply (Z.mod_pos_bound v 65536). lia. }
  assert (getUint 4 4 wav = (36 + Z.of_nat (length pcmData)) mod 4294967296) as Hriff.
  { rewrite (getUint_field 4 4 wav f1 f2
               (f3 ++ f4 ++ f5 ++ f6 ++ f7 ++ f8 ++ f9 ++ f10 ++ f11 ++ f12 ++ f13 ++ pcmData));
      [apply H32 | reflexivity ..]. }
  assert (getUint 4 40 wav = Z.of_nat (length pcmData) mod 4294967296) as Hdata.
  { rewrite (getUint_field 4 40 wav
               (f1 ++ f2 ++ f3 ++ f4 ++ f5 ++ f6 ++ f7 ++ f8 ++ f9 ++ f10 ++ f11 ++ f12)
               f13 pcmData); [apply H32 | by rewrite <- !app_assoc | reflexivity ..]. }
  assert (length wav = (44 + length pcmData)%nat) as Hlen by reflexivity.
  split; [reflexivity |]. split; [exact Hriff |].
  split.
  { rewrite (getUint_field 4 16 wav (f1 ++ f2 ++ f3 ++ f4) f5
               (f6 ++ f7 ++ f8 ++ f9 ++ f10 ++ f11 ++ f12 ++ f13 ++ pcmData));
      [apply H32 | by rewrite <- !app_assoc | reflexivity ..]. }
  split.
  { rewrite (getUint_field 2 20 wav (f1 ++ f2 ++ f3 ++ f4 ++ f5) f6
               (f7 ++ f8 ++ f9 ++ f10 ++ f11 ++ f12 ++ f13 ++ pcmData));
      [apply H16 | by rewrite <- !app_assoc | reflexivity ..]. }
  split.
  { rewrite (getUint_field 2 22 wav (f1 ++ f2 ++ f3 ++ f4 ++ f5 ++ f6) f7
               (f8 ++ f9 ++ f10 ++ f11 ++ f12 ++ f13 ++ pcmData));
      [apply H16 | by rewrite <- !app_assoc | reflexivity ..]. }
  split.
  { rewrite (getUint_field 4 24 wav (f1 ++ f2 ++ f3 ++ f4 ++ f5 ++ f6 ++ f7) f8
               (f9 ++ f10 ++ f11 ++ f12 ++ f13 ++ pcmData));
      [apply H32 | by rewrite <- !app_assoc | reflexivity ..]. }
  assert (getUint 4 28 wav =
          to_double (sampleRate * to_double (numChannels * bytesPerSample))
            mod 4294967296) as Hrate.
  { rewrite (getUint_field 4 28 wav (f1 ++ f2 ++ f3 ++ f4 ++ f5 ++ f6 ++ f7 ++ f8) f9
               (f10 ++ f11 ++ f12 ++ f13 ++ pcmData));
      [apply H32 | by rewrite <- !app_assoc | reflexivity ..]. }
  assert (getUint 2 32 wav = to_double (numChannels * bytesPerSample) mod 65536) as Halign.
  { rewrite (getUint_field 2 32 wav (f1 ++ f2 ++ f3 ++ f4 ++ f5 ++ f6 ++ f7 ++ f8 ++ f9) f10
               (f11 ++ f12 ++ f13 ++ pcmData));
      [apply H16 | by rewrite <- !app_assoc | reflexivity ..]. }
  assert (getUint 2 34 wav = to_double (bytesPerSample * 8) mod 65536) as Hbits.
  { rewrite (getUint_field 2 34 wav
               (f1 ++ f2 ++ f3 ++ f4 ++ f5 ++ f6 ++ f7 ++ f8 ++ f9 ++ f10) f11
               (f12 ++ f13 ++ pcmData));
      [apply H16 | by rewrite <- !app_assoc | reflexivity ..]. }
  split; [exact Hrate |]. split; [exact Halign |]. split; [exact Hbits |].
  split; [exact Hdata |].
  split.
  { intros Hsafe1 Hsafe2 Hsafe3. rewrite Hrate, Halign, Hbits.
    by rewrite (to_double_safe (numChannels * bytesPerSample)),
      (to_double_safe (sampleRate * (numChannels * bytesPerSample))),
      (to_double_safe (bytesPerSample * 8)). }
  intros Hshort. rewrite Hriff, Hdata. rewrite Hlen in Hshort. rewrite Hlen.
  change (drop 44 wav) with pcmData.
  rewrite !Z.mod_small by lia. lia.
Qed.

End wav.

(** ** The executor: the requests of one run *)

Section executor_requests.

Import ApiKeyManager.
Context `{host : Host}.
Variable props : Props.

Lemma getCurrentKey_throws_unchanged w e w1 :
  getCurrentKey w = (Throws e, w1) ->
  w1 = w /\ e = TypeError "Reduce of empty array with no initial value".
Proof.
  rewrite getCurrentKey_eq.
  destruct (Array_find _ _) as [[i k]|]; [discriminate |].
  destruct (Array_reduce _ _) as [[i k]|]; [discriminate |].
  by intros [= <- <-].
Qed.

(** The [catch] block neither touches the credentials nor sends a request. *)
Lemma on_failure_quiet error attempt maxRetries w :
  keys (manager (snd (on_failure error attempt maxRetries w))) = keys (manager w) /\
  requests (snd (on_failure error attempt maxRetries w)) = requests w.
Proof.
  apply (keeps_on_failure
           (fun w w' => keys (manager w') = keys (manager w) /\ requests w' = requests w));
    try done.
  intros w1 w2 w3 (Hk12 & Hr12) (Hk23 & Hr23). split; congruence.
Qed.

Lemma attempts_requests remaining text attempt maxRetries w :
  (requests (snd (attempts props remaining text attempt maxRetries w)) = requests w /\
   forall blob, fst (attempts props remaining text attempt maxRetries w) <> Returns blob) \/
  (exists k,
     k ∈ keys (manager w) /\ isBlocked k = false /\
     requests (snd (attempts props remaining text attempt maxRetries w)) =
       (requests w ++ [request_for props text (key k)])%list /\
     forall blob, fst (attempts props remaining text attempt maxRetries w) = Returns blob ->
       remote (length (requests w)) (request_for props text (key k)) = Returns blob).
Proof.
  revert attempt w. induction remaining as [|remaining IH]; intros attempt w.
  { left. split; [done | discriminate]. }
  destruct (getCurrentKey w) as [[currentKey | e] w1] eqn:Hkey.
  - pose proof Hkey as Hsel.
    apply getCurrentKey_selection in Hsel as (i & k & Hw1 & Hi & <- & Hb & _).
    right. exists k. split; [by eapply list_elem_of_lookup_2 |]. split; [done |].
    destruct (remote (length (requests w)) (request_for props text (key k)))
      as [audioBlob | error] eqn:Hremote.
    + rewrite (attempt_resolves props _ _ _ _ _ _ _ _ Hkey Hremote). subst w1. simpl.
      split; [done |]. by intros blob [= <-].
    + destruct (isRateLimit (parseRateLimitError error)) eqn:Hlimit.
      * rewrite (rate_limit_failure_throws_TypeError props _ _ _ _ _ _ _ _ Hkey Hremote Hlimit).
        subst w1. simpl. split; [done | discriminate].
      * rewrite (attempt_throws_other props _ _ _ _ _ _ _ _ Hkey Hremote Hlimit).
        subst w1. simpl. split; [done | discriminate].
  - apply getCurrentKey_throws_unchanged in Hkey as Hsame. destruct Hsame as (-> & _).
    assert (attempts props (S remaining) text attempt maxRetries w =
            after_failure props remaining text attempt maxRetries e w) as ->.
    { rewrite attempts_S. unfold try_catch, bind. by rewrite Hkey. }
    unfold after_failure, bind.
    destruct (on_failure_quiet e attempt maxRetries w) as (Hkeys & Hreq).
    destruct (on_failure e attempt maxRetries w) as [[again | e'] w2]; simpl in Hkeys, Hreq.
    + destruct again; cbv beta iota.
      * destruct (IH (attempt + 1) w2) as [(Hr & Hno) | (k & Hk & Hb & Hr & Hblob)].
        -- left. split; [congruence | exact Hno].
        -- right. exists k. rewrite Hkeys, Hreq in *. split_and!; assumption.
      * left. split; [exact Hreq | discriminate].
    + left. split; [exact Hreq | discriminate].
Qed.

Lemma generateSingleAudio_sends_none_or_one text maxRetries w :
  requests (snd (generateSingleAudio props text maxRetries w)) = requests w \/
  exists k,
    requests (snd (generateSingleAudio props text maxRetries w)) =
      (requests w ++ [request_for props text (key k)])%list.
Proof.
  unfold generateSingleAudio.
  destruct (attempts_requests (Z.to_nat (maxRetries + 1)) text 0 maxRetries w)
    as [(Hr & _) | (k & _ & _ & Hr & _)].
  - left. exact Hr.
  - right. exists k. exact Hr.
Qed.

(** X17. One run of [generateSingleAudio] sends at most one request, whatever
    the retry budget and whatever the service answers: either it sends none
    and does not return a blob, or it sends exactly one, with the given text
    and the secret of a credential of the pool that is not blocked, and it
    returns a blob only if that request was answered with this blob. *)
Theorem generateSingleAudio_sends_at_most_one_request :
  forall (text : string) (maxRetries : Z) (w : World),
    let result := generateSingleAudio props text maxRetries w in
    (requests (snd result) = requests w /\ forall blob, fst result <> Returns blob) \/
    (exists k,
       k ∈ keys (manager w) /\ isBlocked k = false /\
       requests (snd result) = (requests w ++ [request_for props text (key k)])%list /\
       forall blob, fst result = Returns blob ->
         remote (length (requests w)) (request_for props text (key k)) = Returns blob).
Proof. intros text maxRetries w. cbv zeta. apply attempts_requests. Qed.

(** X18. With a retry budget below 0 the executor makes no attempt and
    throws "Max retries exceeded". With a budget of 0 or more and a pool in
    which every credential is blocked, it sends no request and throws the
    [TypeError] of [getCurrentKey] on its first attempt, leaving the world as
    it was, given that [JSON.parse] rejects the message of that error. *)
Theorem executor_without_usable_credential :
  forall (text : string) (maxRetries : Z) (w : World),
    (maxRetries < 0 ->
     generateSingleAudio props text maxRetries w =
       (Throws (Error "Max retries exceeded"), w)) /\
    (0 <= maxRetries ->
     Forall (fun k => isBlocked k = true) (keys (manager w)) ->
     JSON_parse "Reduce of empty array with no initial value" = None ->
     generateSingleAudio props text maxRetries w =
       (Throws (TypeError "Reduce of empty array with no initial value"), w)).
Proof.
  intros text maxRetries w. split.
  - intros Hneg. unfold generateSingleAudio.
    by replace (Z.to_nat (maxRetries + 1)) with 0%nat by lia.
  - intros Hmax Hall Hparse. rewrite generateSingleAudio_eq, attempts_S by done.
    assert (exists e w1, getCurrentKey w = (Throws e, w1)) as (e & w1 & Hkey).
    { apply getCurrentKey_throws. right. by apply Forall_forall. }
    apply getCurrentKey_throws_unchanged in Hkey as Hsame. destruct Hsame as (-> & ->).
    unfold try_catch, bind at 1. rewrite Hkey.
    unfold after_failure, bind, on_failure, parseRateLimitError, TypeError.
    by rewrite Hparse.
Qed.

End executor_requests.

(** ** The batch and the retry of one clip: requests *)

Section batch_requests.

Import ApiKeyManager.
Context `{host : Host}.
Variable props : Props.

Lemma generate_clip_requests i len entry w :
  exists w',
    generate_clip props i len entry w = (Returns tt, w') /\
    requests w' = requests (snd (generateSingleAudio props (text entry) 2 w)).
Proof.
  unfold generate_clip, try_catch. unfold bind at 1.
  destruct (generateSingleAudio props (text entry) 2 w) as [[audioBlob | clipError] w1].
  - unfold bind, setAudioData, modify, sleep, ret. cbv beta iota.
    destruct (Z.of_nat i <? Z.of_nat len - 1); eauto.
  - unfold bind, console_line, Date_now, gets, setAudioData, modify. eauto.
Qed.

Lemma generate_from_requests entries i len w :
  exists w' new,
    generate_from props i len entries w = (Returns tt, w') /\
    requests w' = (requests w ++ new)%list /\
    sublist (req_text <$> new)
            (text <$> List.filter (fun e => trim_truthy (text e)) entries) /\
    Forall (fun q => req_language q = language props /\ req_voice q = voice props) new.
Proof.
  revert i w. induction entries as [|entry rest IH]; intros i w.
  - exists w, []. rewrite app_nil_r. repeat split; constructor.
  - rewrite generate_from_cons.
    change (List.filter (fun e => trim_truthy (text e)) (entry :: rest))
      with (if trim_truthy (text entry)
            then entry :: List.filter (fun e => trim_truthy (text e)) rest
            else List.filter (fun e => trim_truthy (text e)) rest).
    destruct (trim_truthy (text entry)) eqn:Htrim.
    + destruct (generate_clip_requests i len entry w) as (w1 & Hrun & Hreq).
      destruct (IH (S i) w1) as (w' & new & Hrest & Hreq' & Hsub & Hall).
      pose proof (generateSingleAudio_sends_none_or_one props (text entry) 2 w) as Hone.
      rewrite <- Hreq in Hone.
      destruct Hone as [Hnone | (k & Hk)].
      * exists w', new. split; [by rewrite (bind_returns _ _ w tt w1) |].
        split; [congruence |]. split; [| done].
        rewrite fmap_cons. by apply sublist_cons.
      * exists w', (request_for props (text entry) (key k) :: new).
        split; [by rewrite (bind_returns _ _ w tt w1) |].
        split; [rewrite Hreq', Hk; by rewrite <- app_assoc |].
        split; [rewrite !fmap_cons; by apply sublist_skip |]. by constructor.
    + destruct (IH (S i) w) as (w' & new & Hrest & Hreq' & Hsub & Hall).
      exists w', new. split; [by rewrite (bind_returns _ _ w tt w) |]. done.
Qed.

(** X19. A batch sends at most one request for each line of the script that
    is not blank, in the order of the script and with the text of its line,
    and none for a blank line; every request carries the chosen language and
    voice. The batch ends normally with [isLoadingAudio] false. Without a
    script it does nothing. *)
Theorem batch_sends_at_most_one_request_per_line :
  forall w : World,
    (script props = None -> handleGenerateAllAudio props w = (Returns tt, w)) /\
    (forall entries,
       script props = Some entries ->
       exists w' new,
         handleGenerateAllAudio props w = (Returns tt, w') /\
         isLoadingAudio w' = false /\
         requests w' = (requests w ++ new)%list /\
         sublist (req_text <$> new)
                 (text <$> List.filter (fun e => trim_truthy (text e)) entries) /\
         Forall (fun q => req_language q = language props /\
                          req_voice q = voice props) new).
Proof.
  intros w. split.
  { intros Hscript. unfold handleGenerateAllAudio. by rewrite Hscript. }
  intros entries Hscript. unfold handleGenerateAllAudio. rewrite Hscript.
  set (initialAudioData :=
         map (fun entry => if trim_truthy (text entry) then Clip loading_clip else Null)
             entries).
  set (w0 := set_audioData initialAudioData (set_isLoadingAudio true w)).
  destruct (generate_from_requests entries 0 (length entries) w0)
    as (w1 & new & Hrun & Hreq & Hsub & Hall).
  destruct (logStatus_eq (set_isLoadingAudio false w1)) as (l & Hlog).
  exists (with_line l (set_isLoadingAudio false w1)), new.
  split; [| split; [done | split; [exact Hreq | done]]].
  rewrite (bind_returns _ _ w tt (set_isLoadingAudio true w)) by done.
  rewrite (bind_returns _ _ _ tt w0) by done.
  unfold try_finally. rewrite Hrun.
  rewrite (bind_returns _ _ w1 tt (set_isLoadingAudio false w1)) by done.
  by rewrite Hlog.
Qed.

(** X20. [retryAudioClip] does nothing when there is no script, when the
    index names no line of it, or when the line is blank. Otherwise it ends
    normally after at most one request, and the cell of the line shows
    success only if that request was sent with the secret of a credential
    that is not blocked and was answered with a blob; the cell then holds
    this blob and its object URL. *)
Theorem retryAudioClip_one_request :
  forall (index : nat) (w : World),
    ((script props = None \/
      exists entries, script props = Some entries /\
        (entries !! index = None \/
         exists entry, entries !! index = Some entry /\
                       trim_truthy (text entry) = false)) ->
     retryAudioClip props index w = (Returns tt, w)) /\
    (forall entries entry,
       script props = Some entries -> entries !! index = Some entry ->
       trim_truthy (text entry) = true ->
       exists w',
         retryAudioClip props index w = (Returns tt, w') /\
         (requests w' = requests w \/
          exists k, requests w' =
                    (requests w ++ [request_for props (text entry) (key k)])%list) /\
         (item_state (Array_get index (audioData w')) = Succeeded ->
          exists k audioBlob,
            k ∈ keys (manager w) /\ isBlocked k = false /\
            requests w' = (requests w ++ [request_for props (text entry) (key k)])%list /\
            remote (length (requests w)) (request_for props (text entry) (key k))
              = Returns audioBlob /\
            Array_get index (audioData w') =
              Clip (succeeded_clip (URL_createObjectURL audioBlob) audioBlob))).
Proof.
  intros index w. split.
  - unfold retryAudioClip.
    intros [-> | (entries & -> & [-> | (entry & -> & ->)])]; done.
  - intros entries entry Hscript Hentry Htrim.
    unfold retryAudioClip. rewrite Hscript, Hentry, Htrim.
    set (w0 := set_audioData (Array_set index (Clip loading_clip) (audioData w)) w).
    unfold bind at 1, setAudioData at 1, modify at 1. fold w0.
    unfold try_catch, bind at 1.
    pose proof (attempts_requests props 3 (text entry) 0 2 w0) as Hone.
    change (attempts props 3 (text entry) 0 2 w0)
      with (generateSingleAudio props (text entry) 2 w0) in Hone.
    change (requests w0) with (requests w) in Hone.
    change (keys (manager w0)) with (keys (manager w)) in Hone.
    pose proof (executor_frame_generateSingleAudio props (text entry) 2 w0) as (Ha & _).
    destruct (generateSingleAudio props (text entry) 2 w0) as [[audioBlob | clipError] w1].
    + eexists. split; [reflexivity |]. cbn [requests audioData set_audioData].
      cbn [fst snd] in Hone, Ha.
      split.
      * destruct Hone as [(Hr & _) | (k & _ & _ & Hr & _)]; [by left | right; eauto].
      * intros _. destruct Hone as [(_ & Hno) | (k & Hk & Hb & Hr & Hblob)].
        -- by destruct (Hno audioBlob).
        -- exists k, audioBlob. rewrite Array_get_set_eq. split_and!; auto.
    + eexists. split; [reflexivity |].
      cbn [fst snd] in Hone, Ha.
      unfold bind, console_line, Date_now, gets, setAudioData, modify.
      cbn [requests audioData set_audioData with_line set_console].
      split.
      * destruct Hone as [(Hr & _) | (k & _ & _ & Hr & _)]; [by left | right; eauto].
      * rewrite Array_get_set_eq. discriminate.
Qed.

End batch_requests.

(** ** The summary and the countdown of the results list *)

Section results.

Context `{host : Host}.
Variable props : Props.

Lemma parseRateLimitError_cases clipError :
  (isRateLimit (parseRateLimitError clipError) = false /\
   retryAfterSeconds (parseRateLimitError clipError) = Int 0) \/
  (isRateLimit (parseRateLimitError clipError) = true /\
   errorMsg (parseRateLimitError clipError) = JString "Rate limit exceeded").
Proof.
  destruct clipError as [name message | text]; simpl; [| by left].
  destruct (JSON_parse message) as [errorJson|]; simpl; [| by left].
  destruct (parse_errorJson errorJson message) as [info|] eqn:Hinfo; simpl; [| by left].
  destruct (parse_errorJson_cases errorJson message info Hinfo)
    as [(Hno & Hzero) | (Hyes & Hmsg & _)]; [by left | by right].
Qed.

(** The errors that the executor throws: none is a rate limit, given that
    [JSON.parse] rejects the messages of the errors that the code itself
    throws. *)
Lemma attempts_throw_no_rate_limit remaining text attempt maxRetries w e w' :
  JSON_parse "keyString.substring is not a function" = None ->
  JSON_parse "Reduce of empty array with no initial value" = None ->
  JSON_parse "Max retries exceeded" = None ->
  attempts props remaining text attempt maxRetries w = (Throws e, w') ->
  isRateLimit (parseRateLimitError e) = false.
Proof.
  intros Hmark Hreduce Hmax.
  revert attempt w. induction remaining as [|remaining IH]; intros attempt w Hrun.
  { injection Hrun as <- _. unfold parseRateLimitError, Error. by rewrite Hmax. }
  destruct (ApiKeyManager.getCurrentKey w) as [[currentKey | e0] w1] eqn:Hkey.
  - destruct (remote (length (requests w)) (request_for props text currentKey))
      as [audioBlob | error] eqn:Hremote.
    + rewrite (attempt_resolves props _ _ _ _ _ _ _ _ Hkey Hremote) in Hrun.
      discriminate.
    + destruct (isRateLimit (parseRateLimitError error)) eqn:Hlimit.
      * rewrite (rate_limit_failure_throws_TypeError props _ _ _ _ _ _ _ _
                   Hkey Hremote Hlimit) in Hrun.
        injection Hrun as <- _. unfold parseRateLimitError, TypeError.
        by rewrite Hmark.
      * rewrite (attempt_throws_other props _ _ _ _ _ _ _ _ Hkey Hremote Hlimit)
          in Hrun.
        by injection Hrun as <- _.
  - apply getCurrentKey_throws_unchanged in Hkey as Hsame. destruct Hsame as (-> & ->).
    assert (isRateLimit (parseRateLimitError
                           (TypeError "Reduce of empty array with no initial value"))
            = false) as Hno.
    { unfold parseRateLimitError, TypeError. by rewrite Hreduce. }
    rewrite attempts_S in Hrun. unfold try_catch, bind in Hrun. rewrite Hkey in Hrun.
    unfold after_failure, bind, on_failure in Hrun. rewrite Hno in Hrun.
    by injection Hrun as <- _.
Qed.

Lemma failed_clip_no_retry_time now e :
  isRateLimit (parseRateLimitError e) = false ->
  retryAfter (failed_clip now e) = None.
Proof.
  intros Hno. unfold failed_clip. cbn [retryAfter].
  destruct (parseRateLimitError_cases e) as [(_ & ->) | (Hyes & _)]; [done | congruence].
Qed.

Lemma no_retry_time_no_countdown d :
  retryAfter d = None -> forall later t, shown later (Clip d) <> ShowCountdown t.
Proof.
  intros Hd later t. unfold shown. rewrite Hd.
  destruct (default false (isLoading d)); [done |].
  destruct (truthy (error d)); [done |].
  by destruct (negb (String.eqb (url d) "")).
Qed.

(** X21. The hook never stores a retry time. Every error that the executor
    throws is classified as no rate limit (a rate-limit failure of the
    service never leaves the executor: the [TypeError] of the call that
    should mark the credential does), so the object stored for a failed clip
    has no [retryAfter], by the batch as by the retry of one clip, and the
    list never shows the countdown for a cell that they wrote. This holds
    given that [JSON.parse] rejects the messages of the three errors that
    the code itself throws. *)
Theorem no_cell_gets_a_retry_time :
  JSON_parse "keyString.substring is not a function" = None ->
  JSON_parse "Reduce of empty array with no initial value" = None ->
  JSON_parse "Max retries exceeded" = None ->
  (forall text maxRetries w e w',
     generateSingleAudio props text maxRetries w = (Throws e, w') ->
     isRateLimit (parseRateLimitError e) = false /\
     forall now, retryAfter (failed_clip now e) = None) /\
  (forall entries w i d,
     script props = Some entries ->
     audioData (snd (handleGenerateAllAudio props w)) !! i = Some (Clip d) ->
     retryAfter d = None /\
     forall later t, shown later (Clip d) <> ShowCountdown t) /\
  (forall index w entries entry d,
     script props = Some entries -> entries !! index = Some entry ->
     trim_truthy (text entry) = true ->
     Array_get index (audioData (snd (retryAudioClip props index w))) = Clip d ->
     retryAfter d = None /\
     forall later t, shown later (Clip d) <> ShowCountdown t).
Proof.
  intros Hmark Hreduce Hmax.
  assert (forall text w d,
            state_after (generateSingleAudio props text 2 w) = Clip d ->
            retryAfter d = None) as Hstate.
  { intros text w d.
    destruct (generateSingleAudio props text 2 w) as [[audioBlob | e] w1] eqn:Hrun.
    - by intros [= <-].
    - intros [= <-]. apply failed_clip_no_retry_time.
      by apply (attempts_throw_no_rate_limit _ _ _ _ _ _ _ Hmark Hreduce Hmax Hrun). }
  split; [| split].
  - intros text maxRetries w e w' Hrun.
    assert (isRateLimit (parseRateLimitError e) = false) as Hno
      by (by apply (attempts_throw_no_rate_limit _ _ _ _ _ _ _ Hmark Hreduce Hmax Hrun)).
    split; [done |]. intros now. by apply failed_clip_no_retry_time.
  - intros entries w i d Hscript Hcell.
    assert (retryAfter d = None) as Hd;
      [| split; [done | by apply no_retry_time_no_countdown]].
    destruct (handleGenerateAllAudio_items props entries w Hscript)
      as (w' & Hrun & _ & Hlen & Hitems).
    rewrite Hrun in Hcell. cbn [snd] in Hcell.
    assert (i < length entries)%nat as Hi.
    { rewrite <- Hlen. by apply lookup_lt_Some in Hcell. }
    destruct (lookup_lt_is_Some_2 _ _ Hi) as (entry & Hentry).
    specialize (Hitems i entry Hentry).
    destruct (trim_truthy (text entry)); [| congruence].
    cbv zeta in Hitems. destruct Hitems as (Hstate_i & _).
    rewrite (Array_get_lookup _ _ _ Hcell) in Hstate_i by done.
    symmetry in Hstate_i. by apply Hstate in Hstate_i.
  - intros index w entries entry d Hscript Hentry Htrim Hcell.
    assert (retryAfter d = None) as Hd;
      [| split; [done | by apply no_retry_time_no_countdown]].
    destruct (retryAudioClip_run props index w entries entry Hscript Hentry Htrim)
      as (w' & Hrun & Ha & _).
    rewrite Hrun in Hcell. cbn [snd] in Hcell.
    rewrite Ha, Array_get_set_state_after in Hcell. by apply Hstate in Hcell.
Qed.

Lemma three_counts (a : list Cell) :
  (successCount a + errorCount_of a <= totalNonEmpty a)%nat /\
  (totalNonEmpty a <= length a)%nat.
Proof.
  unfold successCount, errorCount_of, totalNonEmpty.
  induction a as [|c a (IH1 & IH2)]; simpl; [lia |].
  destruct c as [| | | d]; simpl; try lia.
  destruct (truthy (error d)); simpl.
  - rewrite andb_false_r. simpl. lia.
  - destruct (negb (String.eqb (url d) "") && true && negb (default false (isLoading d)));
      simpl; lia.
Qed.

Lemma filter_length_Forall2 {A B : Type} (p : A -> bool) (q : B -> bool) l k :
  Forall2 (fun x y => p x = q y) l k ->
  length (List.filter p l) = length (List.filter q k).
Proof.
  induction 1 as [|x y l k Hxy _ IH]; simpl; [done |].
  rewrite Hxy. destruct (q y); simpl; by rewrite IH.
Qed.

(** X22. In the summary of the results list no cell counts both as a
    success and as a failure, and only cells that hold an object count:
    successes plus failures are at most the cells that are not empty, which
    are at most the cells. A cell counts as a success exactly when the list
    shows a player for it. After a batch the cells that are not empty are as
    many as the lines of the script that are not blank. *)
Theorem summary_counts :
  (forall a : list Cell,
     (successCount a + errorCount_of a <= totalNonEmpty a)%nat /\
     (totalNonEmpty a <= length a)%nat) /\
  (forall (now : Z) (c : Cell),
     counts_as_success c = true <-> exists u, shown now c = ShowPlayer u) /\
  (forall (entries : list ScriptEntry) (w : World),
     script props = Some entries ->
     totalNonEmpty (audioData (snd (handleGenerateAllAudio props w))) =
       length (List.filter (fun e => trim_truthy (text e)) entries)).
Proof.
  split; [exact three_counts |]. split.
  - intros now [| | | d]; simpl.
    + split; [discriminate | by intros (u & ?)].
    + split; [discriminate | by intros (u & ?)].
    + split; [discriminate | by intros (u & ?)].
    + destruct (default false (isLoading d)); simpl.
      { rewrite andb_false_r. split; [discriminate | by intros (u & ?)]. }
      destruct (truthy (error d)); simpl.
      { rewrite andb_false_r. split; [discriminate |].
        intros (u & Hu). destruct (retryAfter d) as [t|]; [| discriminate].
        by destruct (negb (t =? 0) && (now <? t)). }
      destruct (String.eqb (url d) ""); simpl.
      * split; [discriminate | by intros (u & ?)].
      * split; [eauto | done].
  - intros entries w Hscript.
    destruct (handleGenerateAllAudio_spec props entries w Hscript)
      as (w' & Hrun & _ & Hlen & Hcells).
    rewrite Hrun. simpl. unfold totalNonEmpty.
    apply (filter_length_Forall2 counts_as_nonempty (fun e => trim_truthy (text e))).
    apply Forall2_same_length_lookup_2; [done |].
    intros i c entry Hc Hentry. specialize (Hcells i entry Hentry).
    destruct (trim_truthy (text entry)).
    + unfold Array_get in Hcells. rewrite Hc in Hcells.
      destruct c as [| | | d]; [| | | done];
        destruct Hcells as [Hs | Hs]; discriminate Hs.
    + rewrite Hc in Hcells. by injection Hcells as ->.
Qed.

(** X23. A clip that fails with an [Error] whose message is empty and is not
    JSON is stored with an empty error text: the list then shows neither the
    error box nor a player for it, and the summary counts it neither as a
    failure nor as a success, though it counts as not empty. *)
Theorem failure_with_empty_message_is_not_shown :
  forall (name : string) (now later : Z),
    JSON_parse "" = None ->
    let c := Clip (failed_clip now (JsError name "")) in
    shown later c = ShowEmpty /\
    counts_as_error c = false /\
    counts_as_success c = false /\
    counts_as_nonempty c = true /\
    item_state c = Failed.
Proof.
  intros name now later Hparse c. unfold c, failed_clip, parseRateLimitError.
  rewrite Hparse. done.
Qed.

End results.

(** ** These properties on sample pools and runs *)

Section more_samples.

Import ApiKeyManager Samples.

Lemma built_pool_hands_out_first_key_witness :
  let w := fresh ["key-1"; "key-2"] noon in
  (key <$> keys (manager w)) = ["key-1"; "key-2"] /\
  Forall (fun k => available (clock w) k = true /\ isBlocked k = false /\
                   errorCount k = 0) (keys (manager w)) /\
  getCurrentKey w = (Returns "key-1", with_currentIndex 0 w).
Proof.
  apply (built_pool_hands_out_first_key "key-1" ["key-2"] (fresh ["key-1"; "key-2"] noon)).
  - reflexivity.
  - unfold noon. simpl. lia.
Defined.

Lemma getCurrentKey_never_hands_out_blocked_witness :
  let w := blocked_and_cooling in
  let w' := with_currentIndex 2 blocked_and_cooling in
  exists k,
    keys (manager w') = keys (manager w) /\
    keys (manager w') !! currentIndex (manager w') = Some k /\
    key k = "key-3" /\ isBlocked k = false /\
    (existsb (available (clock w)) (keys (manager w)) = true ->
     available (clock w) k = true) /\
    (existsb (available (clock w)) (keys (manager w)) = false ->
     cooling (clock w) k = true).
Proof.
  apply (getCurrentKey_never_hands_out_blocked blocked_and_cooling
           (with_currentIndex 2 blocked_and_cooling) "key-3").
  reflexivity.
Defined.


Lemma invalid_credential_never_selected_again_witness :
  let calls := [(noon + 1, CallResetErrorCounts); (noon + 2, CallRotateToNextKey)] in
  let w1 := perform_all calls (snd (markKeyInvalid (Some 1) cooling_then_two_usable)) in
  let w' := snd (getCurrentKey w1) in
  currentIndex (manager w') <> 1%nat /\
  exists k', keys (manager w') !! 1%nat = Some k' /\
             isBlocked k' = true /\ key k' = "key-2".
Proof.
  apply (invalid_credential_never_selected_again cooling_then_two_usable 1%nat
           (credential "key-2" 0 false)
           [(noon + 1, CallResetErrorCounts); (noon + 2, CallRotateToNextKey)]
           "key-3").
  - reflexivity.
  - reflexivity.
Defined.

Lemma pool_of_blocked_credentials_stays_dead_witness :
  let w1 := perform_all [(noon + 5, CallMarkRateLimited "key-1" 10);
                         (noon + 6, CallResetErrorCounts)] all_blocked in
  getCurrentKey w1 =
    (Throws (TypeError "Reduce of empty array with no initial value"), w1) /\
  hasAvailableKey w1 = (Returns false, w1) /\
  getAvailableKeyCount w1 = (Returns 0%nat, w1) /\
  getSecondsUntilNextAvailable w1 = (Returns 0, w1).
Proof.
  apply (pool_of_blocked_credentials_stays_dead all_blocked
           [(noon + 5, CallMarkRateLimited "key-1" 10); (noon + 6, CallResetErrorCounts)]).
  repeat constructor.
Defined.

Lemma rotateToNextKey_stays_only_when_alone_witness :
  let w := pool_world [credential "key-1" (noon + 5000) false;
                       credential "key-2" 0 false] 1 noon in
  available (clock w) (credential "key-1" (noon + 5000) false) = false.
Proof.
  apply (rotateToNextKey_stays_only_when_alone
           (pool_world [credential "key-1" (noon + 5000) false;
                        credential "key-2" 0 false] 1 noon)
           (rotated 1 (pool_world [credential "key-1" (noon + 5000) false;
                                   credential "key-2" 0 false] 1 noon))
           "key-2") with (j := 0%nat).
  - unfold current_in_range. simpl. lia.
  - reflexivity.
  - reflexivity.
  - simpl. lia.
  - reflexivity.
Defined.

Lemma configured_keys_round_trip_witness :
  configured_keys (Some (String.concat "," ["key-1"; "key-2"])) None = ["key-1"; "key-2"] /\
  (key <$> keys (useApiKeyManager (Some (String.concat "," ["key-1"; "key-2"])) None))
    = ["key-1"; "key-2"].
Proof.
  apply (configured_keys_round_trip ["key-1"; "key-2"] None).
  - discriminate.
  - repeat constructor; discriminate.
Defined.

Lemma retry_delay_in_seconds_is_read_back_witness :
  let message := JSON_stringify (too_many_requests "5s") in
  @parseRateLimitError (always_rate_limited "5s") (JsError "ApiError" message) =
    {| isRateLimit := true; retryAfterSeconds := Int (Z.of_N 5);
       errorMsg := JString "Rate limit exceeded" |}.
Proof.
  apply (@retry_delay_in_seconds_is_read_back (always_rate_limited "5s") "ApiError"
           (JSON_stringify (too_many_requests "5s")) 5%N).
  - simpl. lia.
  - reflexivity.
Defined.

Lemma executor_without_usable_credential_witness :
  @generateSingleAudio always_resolves three_lines "first line" (-1) all_blocked =
    (Throws (Error "Max retries exceeded"), all_blocked) /\
  @generateSingleAudio always_resolves three_lines "first line" 2 all_blocked =
    (Throws (TypeError "Reduce of empty array with no initial value"), all_blocked).
Proof.
  split.
  - apply (@executor_without_usable_credential always_resolves three_lines
             "first line" (-1) all_blocked). lia.
  - apply (@executor_without_usable_credential always_resolves three_lines
             "first line" 2 all_blocked).
    + lia.
    + repeat constructor.
    + reflexivity.
Defined.

Lemma batch_sends_at_most_one_request_per_line_witness :
  let w := fresh ["key-1"; "key-2"] noon in
  exists w' new,
    @handleGenerateAllAudio fails_on_second_line three_lines w = (Returns tt, w') /\
    isLoadingAudio w' = false /\
    requests w' = (requests w ++ new)%list /\
    sublist (req_text <$> new)
            (text <$> List.filter (fun e => trim_truthy (text e)) lines) /\
    Forall (fun q => req_language q = english /\ req_voice q = female) new.
Proof.
  apply (@batch_sends_at_most_one_request_per_line fails_on_second_line three_lines
           (fresh ["key-1"; "key-2"] noon)).
  reflexivity.
Defined.

Lemma retryAudioClip_one_request_witness :
  let w := fresh ["key-1"; "key-2"] noon in
  let entry := {| timestamp := "00:00-00:05"; text := "first line" |} in
  @retryAudioClip always_resolves three_lines 3 w = (Returns tt, w) /\
  exists w',
    @retryAudioClip always_resolves three_lines 0 w = (Returns tt, w') /\
    (requests w' = requests w \/
     exists k, requests w' =
               (requests w ++ [request_for three_lines (text entry) (key k)])%list) /\
    (item_state (Array_get 0 (audioData w')) = Succeeded ->
     exists k audioBlob,
       k ∈ keys (manager w) /\ isBlocked k = false /\
       requests w' = (requests w ++ [request_for three_lines (text entry) (key k)])%list /\
       @remote always_resolves (length (requests w))
         (request_for three_lines (text entry) (key k)) = Returns audioBlob /\
       Array_get 0 (audioData w') =
         Clip (succeeded_clip (@URL_createObjectURL always_resolves audioBlob) audioBlob)).
Proof.
  split.
  - apply (@retryAudioClip_one_request always_resolves three_lines 3%nat
             (fresh ["key-1"; "key-2"] noon)).
    right. exists lines. split; [reflexivity |]. right.
    exists {| timestamp := "00:15-00:20"; text := "   " |}. split; reflexivity.
  - destruct (@retryAudioClip_one_request always_resolves three_lines 0%nat
                (fresh ["key-1"; "key-2"] noon)) as (_ & H).
    apply (H lines {| timestamp := "00:00-00:05"; text := "first line" |}); reflexivity.
Defined.

Lemma no_cell_gets_a_retry_time_witness :
  (forall text maxRetries w e w',
     @generateSingleAudio (always_rate_limited "5s") three_lines text maxRetries w
       = (Throws e, w') ->
     isRateLimit (@parseRateLimitError (always_rate_limited "5s") e) = false /\
     forall now, retryAfter (@failed_clip (always_rate_limited "5s") now e) = None) /\
  (forall entries w i d,
     script three_lines = Some entries ->
     audioData (snd (@handleGenerateAllAudio (always_rate_limited "5s") three_lines w))
       !! i = Some (Clip d) ->
     retryAfter d = None /\
     forall later t, shown later (Clip d) <> ShowCountdown t) /\
  (forall index w entries entry d,
     script three_lines = Some entries -> entries !! index = Some entry ->
     trim_truthy (text entry) = true ->
     Array_get index
       (audioData (snd (@retryAudioClip (always_rate_limited "5s") three_lines index w)))
       = Clip d ->
     retryAfter d = None /\
     forall later t, shown later (Clip d) <> ShowCountdown t).
Proof.
  apply (@no_cell_gets_a_retry_time (always_rate_limited "5s") three_lines);
    reflexivity.
Defined.

Lemma summary_counts_witness :
  let w := fresh ["key-1"; "key-2"] noon in
  totalNonEmpty (audioData (snd (@handleGenerateAllAudio fails_on_second_line three_lines w)))
    = length (List.filter (fun e => trim_truthy (text e)) lines).
Proof.
  destruct (@summary_counts fails_on_second_line three_lines) as (_ & _ & H).
  apply (H lines (fresh ["key-1"; "key-2"] noon)). reflexivity.
Defined.

Lemma failure_with_empty_message_is_not_shown_witness :
  let c := Clip (@failed_clip fails_on_second_line noon (JsError "Error" "")) in
  shown (noon + 1) c = ShowEmpty /\
  counts_as_error c = false /\
  counts_as_success c = false /\
  counts_as_nonempty c = true /\
  item_state c = Failed.
Proof.
  apply (@failure_with_empty_message_is_not_shown fails_on_second_line "Error" noon
           (noon + 1)).
  reflexivity.
Defined.

End more_samples.
